(** * StegoNet: the steganographic codec (src/lib/steganography.ts, src/lib/crypto.ts)

    A shallow embedding of the position scheduler, the bit codec, the payload
    layout and the embed / extract engine, followed by the properties of the
    specification that concern them.

    Conventions.
    - A JavaScript number that the code uses as an integer is a [Z].  Where
      the source relies on 32-bit coercions ([<<], [&], [>>]) or on IEEE
      double rounding, the coercion or the rounding is written out.
    - A JavaScript string is the list of its UTF-16 code units ([charCodeAt]).
    - A [Uint8Array] / [Uint8ClampedArray] is a [list Z] of values below 256.
    - The [while] loop of the scheduler takes a fuel argument; [None] means
      that the fuel ran out before the loop ended.
    - Web Crypto and the text codec are platform capabilities. *)

From Stdlib Require Import ZArith Lia List String Ascii Bool.
From stdpp Require Import base tactics option list gmap sets.

Local Open Scope Z_scope.

(** ** JavaScript values *)

Definition jsstring := list Z.

(** Code units of an ASCII literal, for concrete inputs. *)
Definition js (s : string) : jsstring :=
  map (fun c => Z.of_nat (nat_of_ascii c)) (list_ascii_of_string s).

(** What a call does: it returns a value or throws an [Error] with a message. *)
Inductive outcome (A : Type) : Type :=
  | Returned (a : A)
  | Thrown (message : string).
Arguments Returned {A} a.
Arguments Thrown {A} message.

Definition obind {A B} (o : option (outcome A)) (k : A -> option (outcome B))
  : option (outcome B) :=
  match o with
  | None => None
  | Some (Thrown m) => Some (Thrown m)
  | Some (Returned a) => k a
  end.

Notation "'do' x <- o ; k" := (obind o (fun x => k))
  (at level 10, x name, o at level 100, k at level 200, only parsing).

(** [ToInt32]: the signed 32-bit value of an integral number. *)
Definition toInt32 (x : Z) : Z := (x + 2 ^ 31) mod 2 ^ 32 - 2 ^ 31.

(** An IEEE double keeps 53 significant bits.  [rne53 n] is the integer that
    the double nearest to [n] holds (round to nearest, ties to even), for
    [0 <= n]; scaling by a power of two does not change the rounding, so the
    same function rounds [n / 2^32]. *)
Definition rne53 (n : Z) : Z :=
  if n <? 2 ^ 53 then n
  else
    let sh := Z.log2 n - 52 in
    let q := Z.shiftr n sh in
    let r := n - Z.shiftl q sh in
    let half := Z.shiftl 1 (sh - 1) in
    let q' := if r <? half then q
              else if half <? r then q + 1
              else if Z.even q then q else q + 1 in
    Z.shiftl q' sh.

(** ** class PRNG *)

Module PRNG.

(** One round of the constructor's loop:
    [hash = ((hash << 5) - hash) + char; hash = hash & hash]. *)
Definition mix (hash char : Z) : Z :=
  toInt32 (toInt32 (hash * 32) - hash + char).

(** [new PRNG(seed)]: the state is [Math.abs] of the folded hash. *)
Definition new (seed : jsstring) : Z := Z.abs (fold_left mix seed 0).

(** The state after [next()]:
    [(seed * 1664525 + 1013904223) % Math.pow(2, 32)]. *)
Definition step (seed : Z) : Z := (seed * 1664525 + 1013904223) mod 2 ^ 32.

(** [Math.floor(this.next() * max)] on the state [seed] that [next()] has
    just stored: [seed / 2^32] is exact, the product is rounded. *)
Definition scale (seed max : Z) : Z := rne53 (seed * max) / 2 ^ 32.

(** [nextInt(max)]: the new state and the value returned. *)
Definition nextInt (seed max : Z) : Z * Z :=
  let seed' := step seed in (seed', scale seed' max).

End PRNG.

(** ** generatePixelPositions *)

(** The most entries a [Set] holds in V8, the engine of Chrome and Node:
    [add] of a new value to a [Set] that holds as many throws the
    RangeError 'Set maximum size exceeded'. *)
Definition setMaxSize : Z := 2 ^ 24.

(** The [while (positions.length < bitsNeeded)] loop. *)
Fixpoint drawPositions (fuel : nat) (totalPixels bitsNeeded : Z)
    (prng : Z) (used : gset Z) (positions : list Z)
  : option (outcome (list Z)) :=
  if bool_decide (Z.of_nat (length positions) < bitsNeeded) then
    match fuel with
    | O => None
    | S fuel' =>
        let '(prng', pos) := PRNG.nextInt prng totalPixels in
        if bool_decide (pos ∈ used) then
          drawPositions fuel' totalPixels bitsNeeded prng' used positions
        else if bool_decide (setMaxSize <= Z.of_nat (size used)) then
          Some (Thrown "Set maximum size exceeded")
        else
          drawPositions fuel' totalPixels bitsNeeded prng'
            ({[pos]} ∪ used) (positions ++ [pos])
    end
  else Some (Returned positions).

Definition generatePixelPositions (fuel : nat)
    (width height dataLength : Z) (seed : jsstring)
  : option (outcome (list Z)) :=
  let totalPixels := width * height in
  let prng := PRNG.new seed in
  let bitsNeeded := 32 + dataLength * 8 in
  if bitsNeeded >? totalPixels * 3 then
    Some (Thrown "Image too small for data payload")
  else
    drawPositions fuel totalPixels bitsNeeded prng ∅ [].

(** ** Typed arrays and DataView *)

Definition is_byte (b : Z) : Prop := 0 <= b < 256.

(** [arr[index]] on a typed array, used as a number by a bit operation:
    an index outside the array reads [undefined], which [&] takes as 0. *)
Definition readAt (arr : list Z) (index : Z) : Z :=
  if index <? 0 then 0 else default 0 (arr !! Z.to_nat index).

(** The value a [Uint8ClampedArray] stores. *)
Definition clampUint8 (v : Z) : Z := Z.max 0 (Z.min 255 v).

(** [arr[index] = v] on a [Uint8ClampedArray]: ignored outside the array. *)
Definition writeClamped (arr : list Z) (index v : Z) : list Z :=
  if index <? 0 then arr else <[Z.to_nat index := clampUint8 v]> arr.

(** [target.set(source, offset)]. *)
Definition typedArraySet (target source : list Z) (offset : Z) : outcome (list Z) :=
  if Z.of_nat (length target) <? offset + Z.of_nat (length source) then
    Thrown "offset is out of bounds"
  else
    Returned (take (Z.to_nat offset) target ++ source ++
              drop (Z.to_nat offset + length source) target).

(** The four bytes of an unsigned 32-bit value, most significant first. *)
Definition bytesOfUint32 (v : Z) : list Z :=
  [v / 2 ^ 24 mod 256; v / 2 ^ 16 mod 256; v / 2 ^ 8 mod 256; v mod 256].

(** [new DataView(buffer).setUint32(offset, value)] (big-endian). *)
Definition setUint32 (buffer : list Z) (offset value : Z) : outcome (list Z) :=
  if Z.of_nat (length buffer) <? offset + 4 then
    Thrown "Offset is outside the bounds of the DataView"
  else typedArraySet buffer (bytesOfUint32 (value mod 2 ^ 32)) offset.

(** [new DataView(buffer).getUint32(offset)] (big-endian). *)
Definition getUint32 (buffer : list Z) (offset : Z) : outcome Z :=
  if Z.of_nat (length buffer) <? offset + 4 then
    Thrown "Offset is outside the bounds of the DataView"
  else
    let b k := readAt buffer (offset + k) in
    Returned (b 0 * 2 ^ 24 + b 1 * 2 ^ 16 + b 2 * 2 ^ 8 + b 3).

(** [arr.slice(start, end)] for [0 <= start <= end]: both ends are clamped
    to the length. *)
Definition slice (arr : list Z) (start end_ : Z) : list Z :=
  take (Z.to_nat (end_ - start)) (drop (Z.to_nat start) arr).

(** ** Bits *)

Definition embedBit (pixelValue bit : Z) : Z :=
  Z.lor (Z.land pixelValue 254) bit.

Definition extractBit (pixelValue : Z) : Z := Z.land pixelValue 1.

(** The inner loop [for (let i = 7; i >= 0; i--)] of [dataToBits]. *)
Definition byteBits (byte : Z) : list Z :=
  map (fun i => Z.land (Z.shiftr byte i) 1) [7; 6; 5; 4; 3; 2; 1; 0].

Definition dataToBits (data : list Z) : list Z := flat_map byteBits data.

(** The loop of [bitsToData], from index [i] on:
    [if (bits[i]) bytes[byteIndex] |= (1 << bitIndex)]. *)
Fixpoint collectBits (i : nat) (bits bytes : list Z) : list Z :=
  match bits with
  | [] => bytes
  | bit :: rest =>
      let byteIndex := (i / 8)%nat in
      let bitIndex := 7 - Z.of_nat (i mod 8) in
      collectBits (S i) rest
        (if bit =? 0 then bytes
         else alter (fun v => Z.lor v (Z.shiftl 1 bitIndex) mod 256) byteIndex bytes)
  end.

Definition bitsToData (bits : list Z) : list Z :=
  collectBits 0 bits (replicate ((length bits + 7) / 8)%nat 0).

(** ** crypto.ts *)

Record EncryptionResult := {
  encryptedData : list Z;
  iv : list Z;
  salt : list Z;
  hash : jsstring
}.

(** The third field is [hash] in the source; it holds [actualHash]. *)
Record DecryptionResult := {
  decryptedMessage : jsstring;
  isValid : bool;
  actualHash : jsstring
}.

(** The platform: [TextEncoder], [TextDecoder] and [crypto.subtle].
    [aesGcmDecrypt] is [None] when [crypto.subtle.decrypt] rejects. *)
Class Platform := {
  CryptoKey : Type;
  textEncode : jsstring -> list Z;
  textDecode : list Z -> jsstring;
  pbkdf2 : list Z -> list Z -> CryptoKey;
  aesGcmEncrypt : CryptoKey -> list Z -> list Z -> list Z;
  aesGcmDecrypt : CryptoKey -> list Z -> list Z -> option (list Z);
  sha256 : list Z -> list Z
}.

(** What the codec relies on: typed arrays hold bytes, the text codec leaves
    ASCII alone, and AES-GCM decrypts what it encrypted under the same key
    and nonce. *)
Class PlatformLaws (P : Platform) : Prop := {
  textEncode_bytes : forall s, Forall is_byte (textEncode s);
  textEncode_ascii : forall s, Forall (fun c => 0 <= c < 128) s -> textEncode s = s;
  textDecode_ascii : forall b, Forall (fun c => 0 <= c < 128) b -> textDecode b = b;
  aesGcmEncrypt_bytes : forall k n m,
    Forall is_byte m -> Forall is_byte (aesGcmEncrypt k n m);
  aesGcmDecrypt_encrypt : forall k n m,
    Forall is_byte m -> aesGcmDecrypt k n (aesGcmEncrypt k n m) = Some m;
  sha256_bytes : forall m, Forall is_byte (sha256 m)
}.

Section Crypto.
Context {P : Platform}.

Definition deriveKey (password : jsstring) (salt : list Z) : CryptoKey :=
  pbkdf2 (textEncode password) salt.

(** [b.toString(16).padStart(2, '0')]. *)
Definition hexDigit (d : Z) : Z := if d <? 10 then 48 + d else 87 + d.
Definition hexByte (b : Z) : jsstring := [hexDigit (b / 16); hexDigit (b mod 16)].

Definition generateHash (message : jsstring) : jsstring :=
  flat_map hexByte (sha256 (textEncode message)).

(** [encryptMessage]; the two [crypto.getRandomValues] draws are inputs. *)
Definition encryptMessage (message password : jsstring)
    (randomSalt randomIv : list Z) : EncryptionResult :=
  let key := deriveKey password randomSalt in
  let hash := generateHash message in
  {| encryptedData := aesGcmEncrypt key randomIv (textEncode message);
     iv := randomIv; salt := randomSalt; hash := hash |}.

Definition decryptMessage (encryptedData iv salt : list Z)
    (password expectedHash : jsstring) : DecryptionResult :=
  let key := deriveKey password salt in
  match aesGcmDecrypt key iv encryptedData with
  | Some decryptedBuffer =>
      let decryptedMessage := textDecode decryptedBuffer in
      let actualHash := generateHash decryptedMessage in
      {| decryptedMessage := decryptedMessage;
         isValid := bool_decide (actualHash = expectedHash);
         actualHash := actualHash |}
  | None => {| decryptedMessage := []; isValid := false; actualHash := [] |}
  end.

End Crypto.

(** ** The pixel carrier *)

(** What [imageToCanvas] and [getImageData] give: the dimensions and the RGBA
    buffer.  PNG encoding of the result is lossless, so the produced image
    is the buffer again. *)
Record Image := {
  width : Z;
  height : Z;
  pixels : list Z
}.

Definition wf_image (img : Image) : Prop :=
  0 <= width img /\ 0 <= height img /\
  Z.of_nat (length (pixels img)) = width img * height img * 4 /\
  Forall is_byte (pixels img).

(** The integer statistics; [originalSize] (the size of the file) and
    [utilizationPercent] (a floating-point ratio) are left out. *)
Record Stats := {
  dataEmbedded : Z;
  capacity : Z
}.

Inductive StegoResult :=
  | StegoSuccess (modifiedImage : Image) (stats : Stats)
  | StegoFailure (error : string).

Inductive ExtractionResult :=
  | ExtractionSuccess (encryptedData iv salt : list Z) (hash : jsstring)
  | ExtractionFailure (error : string).

Definition liftO {A} (o : outcome A) : option (outcome A) := Some o.

(** ** embedDataInImage *)

Section Engine.
Context {P : Platform}.

(** The payload buffer and the writes that fill it. *)
Definition buildPayload (er : EncryptionResult) : outcome (list Z) :=
  let encryptedDataLength := Z.of_nat (length (encryptedData er)) in
  let hashBytes := textEncode (hash er) in
  let hashLength := Z.of_nat (length hashBytes) in
  let payload :=
    replicate (Z.to_nat (4 + encryptedDataLength + 12 + 16 + 4 + hashLength)) 0 in
  let offset := 0 in
  match setUint32 payload offset encryptedDataLength with
  | Thrown m => Thrown m
  | Returned payload =>
  let offset := offset + 4 in
  match typedArraySet payload (encryptedData er) offset with
  | Thrown m => Thrown m
  | Returned payload =>
  let offset := offset + encryptedDataLength in
  match typedArraySet payload (iv er) offset with
  | Thrown m => Thrown m
  | Returned payload =>
  let offset := offset + 12 in
  match typedArraySet payload (salt er) offset with
  | Thrown m => Thrown m
  | Returned payload =>
  let offset := offset + 16 in
  match setUint32 payload offset hashLength with
  | Thrown m => Thrown m
  | Returned payload =>
  let offset := offset + 4 in
  typedArraySet payload hashBytes offset
  end end end end end.

(** The bytes handed to [dataToBits] for the length header. *)
Definition lengthHeader (totalLength : Z) : list Z :=
  let t := toInt32 totalLength in
  [Z.land (Z.shiftr t 24) 255; Z.land (Z.shiftr t 16) 255;
   Z.land (Z.shiftr t 8) 255; Z.land t 255].

(** The index in the RGBA buffer that bit [i] goes to. *)
Definition channelIndex (positions : list Z) (i : nat) : option Z :=
  match positions !! i with
  | Some pixelIndex =>
      let pixelStart := pixelIndex * 4 in
      let channel := Z.of_nat i mod 3 in
      Some (pixelStart + channel)
  | None => None
  end.

(** One round of the embedding loop. *)
Definition embedOne (positions : list Z) (i : nat) (bit : Z) (pixels : list Z)
  : list Z :=
  match channelIndex positions i with
  | Some k => writeClamped pixels k (embedBit (readAt pixels k) bit)
  | None => pixels
  end.

(** [for (let i = 0; i < allBits.length; i++)], from index [i] on. *)
Fixpoint embedBits (positions : list Z) (i : nat) (bits pixels : list Z)
  : list Z :=
  match bits with
  | [] => pixels
  | bit :: rest => embedBits positions (S i) rest (embedOne positions i bit pixels)
  end.

(** The body of the [try] block. *)
Definition embedBody (fuel : nat) (image : Image) (er : EncryptionResult)
    (password : jsstring) : option (outcome (Image * Stats)) :=
  do payload <- liftO (buildPayload er);
  let payloadLength := Z.of_nat (length payload) in
  do positions <-
    generatePixelPositions fuel (width image) (height image) payloadLength password;
  let payloadBits := dataToBits payload in
  let totalLength := payloadLength in
  let lengthBits := dataToBits (lengthHeader totalLength) in
  let allBits := lengthBits ++ payloadBits in
  let pixels' := embedBits positions 0 allBits (pixels image) in
  Some (Returned
    ({| width := width image; height := height image; pixels := pixels' |},
     {| dataEmbedded := payloadLength;
        capacity := (width image * height image * 3) / 8 |})).

Definition embedDataInImage (fuel : nat) (image : Image) (er : EncryptionResult)
    (password : jsstring) : option StegoResult :=
  match embedBody fuel image er password with
  | None => None
  | Some (Returned (img, stats)) => Some (StegoSuccess img stats)
  | Some (Thrown m) => Some (StegoFailure m)
  end.

(** ** extractDataFromImage *)

Definition readOne (positions pixels : list Z) (i : nat) : Z :=
  match channelIndex positions i with
  | Some k => extractBit (readAt pixels k)
  | None => 0
  end.

(** [for (let i = from; i < from + count; i++) bits.push(...)]. *)
Definition readBits (positions pixels : list Z) (from count : nat) : list Z :=
  map (readOne positions pixels) (seq from count).

(** The parsing part of the [try] block. *)
Definition parsePayload (payload : list Z) : outcome ExtractionResult :=
  let offset := 0 in
  match getUint32 payload offset with
  | Thrown m => Thrown m
  | Returned encryptedDataLength =>
  let offset := offset + 4 in
  let encryptedData := slice payload offset (offset + encryptedDataLength) in
  let offset := offset + encryptedDataLength in
  let iv := slice payload offset (offset + 12) in
  let offset := offset + 12 in
  let salt := slice payload offset (offset + 16) in
  let offset := offset + 16 in
  match getUint32 payload offset with
  | Thrown m => Thrown m
  | Returned hashLength =>
  let offset := offset + 4 in
  let hashBytes := slice payload offset (offset + hashLength) in
  let hash := textDecode hashBytes in
  Returned (ExtractionSuccess encryptedData iv salt hash)
  end end.

Definition extractBody (fuel : nat) (image : Image) (password : jsstring)
  : option (outcome ExtractionResult) :=
  do headerPositions <-
    generatePixelPositions fuel (width image) (height image) 4 password;
  let lengthPositions := take 32 headerPositions in
  let lengthBits := readBits lengthPositions (pixels image) 0 32 in
  let lengthBytes := bitsToData lengthBits in
  do totalLength <- liftO (getUint32 lengthBytes 0);
  do positions <-
    generatePixelPositions fuel (width image) (height image) totalLength password;
  let payloadBits :=
    readBits positions (pixels image) 32 (Z.to_nat (totalLength * 8)) in
  let payload := bitsToData payloadBits in
  liftO (parsePayload payload).

Definition extractDataFromImage (fuel : nat) (image : Image) (password : jsstring)
  : option ExtractionResult :=
  match extractBody fuel image password with
  | None => None
  | Some (Returned r) => Some r
  | Some (Thrown m) => Some (ExtractionFailure m)
  end.

End Engine.

(** ** The page component: handleEmbedMessage, handleExtractMessage

    The state of the component and what each handler leaves in it when it
    has run to completion.  The two [crypto.getRandomValues] draws of
    [encryptMessage] are arguments of [handleEmbedMessage].  A handler whose
    call of the engine never returns gives [None]. *)

Module Page.

(** [String.prototype.trim]: the ECMAScript white space and line terminator
    code units are removed from both ends. *)
Definition isWhiteSpace (c : Z) : bool :=
  (c =? 9) || (c =? 10) || (c =? 11) || (c =? 12) || (c =? 13) || (c =? 32) ||
  (c =? 160) || (c =? 5760) || ((8192 <=? c) && (c <=? 8202)) ||
  (c =? 8232) || (c =? 8233) || (c =? 8239) || (c =? 8287) ||
  (c =? 12288) || (c =? 65279).

Fixpoint trimStart (s : jsstring) : jsstring :=
  match s with
  | c :: rest => if isWhiteSpace c then trimStart rest else s
  | [] => []
  end.

Definition trim (s : jsstring) : jsstring := rev (trimStart (rev (trimStart s))).

(** A string used as a condition: the empty string is falsy. *)
Definition truthy (s : jsstring) : bool := negb (bool_decide (s = [])).

Inductive CryptoStatusType :=
  | idle | encrypting | embedding | success | extracting | decrypting
  | verified | error.

Record IntegrityStatus := {
  integrityValid : bool;
  integrityHash : jsstring
}.

Record State := {
  selectedImage : option Image;
  message : jsstring;
  password : jsstring;
  modifiedImageBlob : option Image;
  extractImage : option Image;
  extractPassword : jsstring;
  extractedMessage : jsstring;
  status : CryptoStatusType;
  progress : Z;
  stats : option Stats;
  integrityStatus : option IntegrityStatus
}.

Inductive ToastVariant := defaultVariant | destructive.

Record Toast := {
  title : string;
  description : string;
  variant : ToastVariant
}.

(** [error || fallback] on an error message. *)
Definition orElse (message fallback : string) : string :=
  if String.eqb message EmptyString then fallback else message.

Section Handlers.
Context {P : Platform}.

Definition handleEmbedMessage (fuel : nat) (st : State)
    (randomSalt randomIv : list Z) : option (State * Toast) :=
  match selectedImage st with
  | Some image =>
      if truthy (trim (message st)) && truthy (password st) then
        let encryptionResult :=
          encryptMessage (message st) (password st) randomSalt randomIv in
        match embedDataInImage fuel image encryptionResult (password st) with
        | None => None
        | Some (StegoSuccess modifiedImage stats') =>
            Some ({| selectedImage := selectedImage st; message := message st;
                     password := password st;
                     modifiedImageBlob := Some modifiedImage;
                     extractImage := extractImage st;
                     extractPassword := extractPassword st;
                     extractedMessage := extractedMessage st;
                     status := success; progress := 100;
                     stats := Some stats';
                     integrityStatus := integrityStatus st |},
                  {| title := "Message Embedded Successfully!";
                     description :=
                       "Your secret message has been hidden in the image.";
                     variant := defaultVariant |})
        | Some (StegoFailure e) =>
            Some ({| selectedImage := selectedImage st; message := message st;
                     password := password st;
                     modifiedImageBlob := modifiedImageBlob st;
                     extractImage := extractImage st;
                     extractPassword := extractPassword st;
                     extractedMessage := extractedMessage st;
                     status := error; progress := 60;
                     stats := stats st;
                     integrityStatus := integrityStatus st |},
                  {| title := "Embedding Failed";
                     description := orElse e "Embedding failed";
                     variant := destructive |})
        end
      else
        Some (st,
              {| title := "Missing Information";
                 description := "Please select an image, enter a message, and provide a password.";
                 variant := destructive |})
  | None =>
      Some (st,
            {| title := "Missing Information";
               description := "Please select an image, enter a message, and provide a password.";
               variant := destructive |})
  end.

(** The state the [catch] block of [handleExtractMessage] leaves. *)
Definition extractFailed (st : State) (progress' : Z) (e : string)
  : State * Toast :=
  ({| selectedImage := selectedImage st; message := message st;
      password := password st; modifiedImageBlob := modifiedImageBlob st;
      extractImage := extractImage st; extractPassword := extractPassword st;
      extractedMessage := extractedMessage st;
      status := error; progress := progress';
      stats := stats st; integrityStatus := None |},
   {| title := "Extraction Failed"; description := e; variant := destructive |}).

Definition handleExtractMessage (fuel : nat) (st : State)
  : option (State * Toast) :=
  match extractImage st with
  | Some image =>
      if truthy (extractPassword st) then
        match extractDataFromImage fuel image (extractPassword st) with
        | None => None
        | Some (ExtractionFailure e) =>
            Some (extractFailed st 30 (orElse e "No hidden data found in image"))
        | Some (ExtractionSuccess encryptedData iv salt hash) =>
            let decryptionResult :=
              decryptMessage encryptedData iv salt (extractPassword st) hash in
            if truthy (decryptedMessage decryptionResult) then
              Some ({| selectedImage := selectedImage st; message := message st;
                       password := password st;
                       modifiedImageBlob := modifiedImageBlob st;
                       extractImage := extractImage st;
                       extractPassword := extractPassword st;
                       extractedMessage := decryptedMessage decryptionResult;
                       status := if isValid decryptionResult then verified
                                 else success;
                       progress := 100;
                       stats := stats st;
                       integrityStatus :=
                         Some {| integrityValid := isValid decryptionResult;
                                 integrityHash := actualHash decryptionResult |} |},
                    if isValid decryptionResult then
                      {| title := "Message Verified!";
                         description := "Message integrity verified successfully.";
                         variant := defaultVariant |}
                    else
                      {| title := "Message Extracted";
                         description := "Message extracted but integrity check failed.";
                         variant := destructive |})
            else
              Some (extractFailed st 70
                      "Decryption failed - incorrect password or corrupted data")
        end
      else
        Some (st,
              {| title := "Missing Information";
                 description := "Please select an image and provide the decryption password.";
                 variant := destructive |})
  | None =>
      Some (st,
            {| title := "Missing Information";
               description := "Please select an image and provide the decryption password.";
               variant := destructive |})
  end.

End Handlers.

(** [isProcessing], as the page computes it from the status. *)
Definition isProcessing (s : CryptoStatusType) : bool :=
  match s with
  | encrypting | embedding | extracting | decrypting => true
  | _ => false
  end.

(** The [disabled] attribute of the button that calls [handleEmbedMessage]
    (component MessageInput), with the properties the page passes:
    [disabled = !selectedImage]. *)
Definition embedDisabled (st : State) : bool :=
  let isValidMessage := 0 <? Z.of_nat (length (trim (message st))) in
  let isValidPassword := 8 <=? Z.of_nat (length (password st)) in
  let disabled := match selectedImage st with Some _ => false | None => true end in
  negb isValidMessage || negb isValidPassword || disabled
  || isProcessing (status st).

(** The [disabled] attribute of the button that calls
    [handleExtractMessage] (component MessageExtractor), with
    [disabled = !extractImage]. *)
Definition extractDisabled (st : State) : bool :=
  let disabled := match extractImage st with Some _ => false | None => true end in
  (Z.of_nat (length (extractPassword st)) <? 8) || disabled
  || isProcessing (status st).

End Page.

(** ** A small platform for concrete runs

    Text is its own encoding (code units reduced to bytes), a key is the
    password bytes followed by the salt, the cipher appends a tag taken
    from key and nonce and checks it on decryption, and the digest is the
    first bytes of its input, zero padded.  [toyPlatform] has the sizes of
    AES-GCM and SHA-256 (16-byte tag, 32-byte digest); [lightPlatform] has
    one byte of each, for short schedules. *)

Definition toByte (x : Z) : Z := x mod 256.

Definition toyTag (tagLength : nat) (key nonce : list Z) : list Z :=
  take tagLength (map toByte (key ++ nonce) ++ replicate tagLength 0).

Definition toyEncrypt (tagLength : nat) (key nonce plaintext : list Z) : list Z :=
  plaintext ++ toyTag tagLength key nonce.

Definition toyDecrypt (tagLength : nat) (key nonce ciphertext : list Z)
  : option (list Z) :=
  let n := (length ciphertext - tagLength)%nat in
  if bool_decide (tagLength <= length ciphertext)%nat
     && bool_decide (drop n ciphertext = toyTag tagLength key nonce)
  then Some (take n ciphertext) else None.

Definition toyDigest (digestLength : nat) (data : list Z) : list Z :=
  take digestLength (map toByte data ++ replicate digestLength 0).

Definition sizedPlatform (tagLength digestLength : nat) : Platform := {|
  CryptoKey := list Z;
  textEncode := map toByte;
  textDecode := fun b => b;
  pbkdf2 := fun password salt => password ++ salt;
  aesGcmEncrypt := toyEncrypt tagLength;
  aesGcmDecrypt := toyDecrypt tagLength;
  sha256 := toyDigest digestLength
|}.

Definition toyPlatform : Platform := sizedPlatform 16 32.

Definition lightPlatform : Platform := sizedPlatform 1 1.

(** ** Sample inputs *)

(** An envelope of the sizes [encryptMessage] produces for an empty message:
    a 16-byte ciphertext (the tag alone), a 64-character hash. *)
Definition sampleEnvelope : EncryptionResult := {|
  encryptedData := replicate 16 7;
  iv := replicate 12 1;
  salt := replicate 16 2;
  hash := replicate 64 48
|}.

(** A 36-byte buffer whose hash length field says 100 although nothing
    follows it: no ciphertext, a nonce, a salt, and the field. *)
Definition truncatedPayload : list Z :=
  bytesOfUint32 0 ++ replicate 12 1 ++ replicate 16 2 ++ bytesOfUint32 100.

(** A 7-byte buffer whose ciphertext length field says 50. *)
Definition overrunPayload : list Z := bytesOfUint32 50 ++ [1; 2; 3].

(** A 41 x 8 cover: 328 pixels, room for 3 x 328 = 984 bits by the
    capacity test. *)
Definition tinyCover : Image :=
  {| width := 41; height := 8; pixels := replicate 1312 128 |}.

(** A 32 x 32 cover of one colour. *)
Definition plainCover : Image :=
  {| width := 32; height := 32; pixels := replicate 4096 200 |}.

(** What [encryptMessage] gives for "abc" on the small platform: 19 bytes
    of ciphertext, 64 characters of hash, a payload of 119 bytes. *)
Definition shortEnvelope : EncryptionResult :=
  @encryptMessage toyPlatform (js "abc") (js "Str0ngPass!")
    (replicate 16 2) (replicate 12 1).

(** A 512 x 512 cover of one colour. *)
Definition largeCover : Image :=
  {| width := 512; height := 512; pixels := replicate (Z.to_nat 1048576) 128 |}.

(** Two envelopes of the light platform, for two passwords. *)
Definition oldEnvelope : EncryptionResult :=
  @encryptMessage lightPlatform (js "old") (js "battery staple")
    (replicate 16 2) (replicate 12 1).

Definition newEnvelope : EncryptionResult :=
  @encryptMessage lightPlatform (js "new") (js "correct horse")
    (replicate 16 4) (replicate 12 3).

(** The page with the embedding form filled in. *)
Definition embeddingPage (image : Image) (message password : jsstring)
  : Page.State := {|
  Page.selectedImage := Some image; Page.message := message;
  Page.password := password;
  Page.modifiedImageBlob := None;
  Page.extractImage := None; Page.extractPassword := [];
  Page.extractedMessage := [];
  Page.status := Page.idle; Page.progress := 0; Page.stats := None;
  Page.integrityStatus := None
|}.

(** The page with the extraction form filled in, showing the message
    [shown] of an earlier extraction. *)
Definition extractionPage (image : Image) (password shown : jsstring)
  : Page.State := {|
  Page.selectedImage := None; Page.message := []; Page.password := [];
  Page.modifiedImageBlob := None;
  Page.extractImage := Some image; Page.extractPassword := password;
  Page.extractedMessage := shown;
  Page.status := Page.verified; Page.progress := 100; Page.stats := None;
  Page.integrityStatus := None
|}.

(** ** Notions used in the proofs *)

(** The state transition without the reduction modulo [2^32]. *)
Definition affine (x : Z) : Z := x * 1664525 + 1013904223.

(** [1 + a + ... + a^(k-1)] for the multiplier [a] of the generator. *)
Fixpoint geo (k : nat) : Z :=
  match k with
  | O => 0
  | S k' => 1 + 1664525 * geo k'
  end.

(** What one round of [collectBits] leaves in the byte it addresses. *)
Definition withBit (bit bitIndex v : Z) : Z :=
  if bit =? 0 then v else Z.lor v (Z.shiftl 1 bitIndex) mod 256.

(** Bit [i] of a byte, as [dataToBits] pushes it. *)
Definition bitOf (byte i : Z) : Z := Z.land (Z.shiftr byte i) 1.

(** The buffer index of each scheduled channel, in order. *)
Definition channelsOf (positions : list Z) : list Z :=
  imap (fun i pixelIndex => pixelIndex * 4 + Z.of_nat i mod 3) positions.

(** No channel of the second schedule is a channel of the first. *)
Definition channelsApart (positions1 positions2 : list Z) : bool :=
  let written := channelsOf positions1 in
  forallb (fun k => negb (existsb (Z.eqb k) written)) (channelsOf positions2).

(** * Properties *)

(** The seed of "ab" is 97 * 31 + 98, and the first draw on 16 pixels is
    pixel 7. *)
Example new_ab : PRNG.new (js "ab") = 3105.
Proof. reflexivity. Qed.

Example nextInt_ab : PRNG.nextInt 3105 16 = (1887287052, 7).
Proof. reflexivity. Qed.

(** ** The generator *)

Lemma step_range seed : 0 <= PRNG.step seed < 2 ^ 32.
Proof. unfold PRNG.step. apply Z.mod_pos_bound. lia. Qed.

(** The state transition never leaves the integers a double holds exactly. *)
Lemma step_exact_in_double seed :
  0 <= seed <= 2 ^ 32 -> 0 <= seed * 1664525 + 1013904223 < 2 ^ 53.
Proof. lia. Qed.

Lemma toInt32_range x : - 2 ^ 31 <= toInt32 x < 2 ^ 31.
Proof.
  unfold toInt32.
  pose proof (Z.mod_pos_bound (x + 2 ^ 31) (2 ^ 32)). lia.
Qed.

Lemma new_range seed : 0 <= PRNG.new seed <= 2 ^ 31.
Proof.
  unfold PRNG.new.
  assert (H : - 2 ^ 31 <= fold_left PRNG.mix seed 0 < 2 ^ 31).
  { induction seed as [|c seed IH] using rev_ind; simpl; [lia|].
    rewrite fold_left_app. simpl. apply toInt32_range. }
  lia.
Qed.

Section Rounding.

Variable n : Z.
Hypothesis Hn : 2 ^ 53 <= n.

(** The exponent of the spacing of doubles around [n]. *)
Lemma rne53_shift :
  1 <= Z.log2 n - 52 /\
  2 ^ (Z.log2 n - 52 + 52) <= n < 2 ^ (Z.log2 n - 52 + 53).
Proof.
  assert (0 < n) by lia.
  pose proof (Z.log2_spec n ltac:(lia)) as [Hlo Hhi].
  assert (53 <= Z.log2 n).
  { apply Z.log2_le_pow2; lia. }
  replace (Z.log2 n - 52 + 52) with (Z.log2 n) by lia.
  replace (Z.log2 n - 52 + 53) with (Z.succ (Z.log2 n)) by lia.
  lia.
Qed.

(** The rounded value is a multiple of the spacing, at least the truncated
    value and at most half a spacing above [n]. *)
Lemma rne53_bounds :
  exists q', rne53 n = q' * 2 ^ (Z.log2 n - 52) /\
             n / 2 ^ (Z.log2 n - 52) <= q' /\
             q' * 2 ^ (Z.log2 n - 52) <= n + 2 ^ (Z.log2 n - 52 - 1).
Proof.
  destruct rne53_shift as [Hsh _].
  unfold rne53. destruct (Z.ltb_spec n (2 ^ 53)) as [|_]; [lia|].
  cbv zeta. generalize dependent (Z.log2 n - 52). intros sh Hsh.
  rewrite Z.shiftr_div_pow2 by lia.
  rewrite !Z.shiftl_mul_pow2 by lia.
  rewrite Z.mul_1_l.
  set (q := n / 2 ^ sh).
  assert (Hpow : 2 ^ sh = 2 * 2 ^ (sh - 1)).
  { rewrite <- Z.pow_succ_r by lia. f_equal. lia. }
  assert (Hhalf : 0 < 2 ^ (sh - 1)) by (apply Z.pow_pos_nonneg; lia).
  pose proof (Z.div_mod n (2 ^ sh) ltac:(lia)) as Hdm.
  pose proof (Z.mod_pos_bound n (2 ^ sh) ltac:(lia)) as Hm.
  fold q in Hdm.
  assert (Hr : n - q * 2 ^ sh = n mod 2 ^ sh) by lia.
  repeat match goal with
         | |- context [if ?b then _ else _] => destruct b eqn:?
         end;
    eexists; (split; [reflexivity|]); split; try lia;
    repeat match goal with
           | H : (_ <? _) = true |- _ => apply Z.ltb_lt in H
           | H : (_ <? _) = false |- _ => apply Z.ltb_ge in H
           end; lia.
Qed.

End Rounding.

Lemma rne53_small n : n < 2 ^ 53 -> rne53 n = n.
Proof.
  intros H. unfold rne53. destruct (Z.ltb_spec n (2 ^ 53)); [reflexivity | lia].
Qed.

(** [nextInt(max)] returns an index below [max]. *)
Lemma scale_range seed max :
  0 <= seed < 2 ^ 32 -> 0 < max -> 0 <= PRNG.scale seed max < max.
Proof.
  intros Hs Hmax. unfold PRNG.scale.
  assert (Hp : 0 <= seed * max <= (2 ^ 32 - 1) * max) by nia.
  destruct (Z.lt_ge_cases (seed * max) (2 ^ 53)) as [Hsmall | Hbig].
  - rewrite rne53_small by assumption. split.
    + apply Z.div_pos; lia.
    + apply Z.div_lt_upper_bound; lia.
  - destruct (rne53_bounds _ Hbig) as (q' & -> & Hq1 & Hq2).
    destruct (rne53_shift _ Hbig) as (Hsh & Hlo & _).
    set (sh := Z.log2 (seed * max) - 52) in *.
    assert (Hhalf : 2 ^ (sh - 1) < max).
    { assert (2 ^ (sh + 52) < max * 2 ^ 32) by lia.
      assert (2 ^ (sh + 52) = 2 ^ (sh - 1) * 2 ^ 53).
      { rewrite <- Z.pow_add_r by lia. f_equal. lia. }
      assert (0 < 2 ^ (sh - 1)) by (apply Z.pow_pos_nonneg; lia).
      nia. }
    assert (0 <= (seed * max) / 2 ^ sh).
    { apply Z.div_pos; [lia|]. apply Z.pow_pos_nonneg; lia. }
    assert (0 < 2 ^ sh) by (apply Z.pow_pos_nonneg; lia).
    split.
    + apply Z.div_pos; [nia | lia].
    + apply Z.div_lt_upper_bound; lia.
Qed.

(** ** The generator has full period

    The multiplier is 1 modulo 4 and the increment is odd, so the states
    reached from any state run through all of [0, 2^32). *)

Lemma iter_affine k x :
  Nat.iter k affine x = x + geo k * (1664524 * x + 1013904223).
Proof.
  induction k as [|k IH]; [cbn; lia|].
  rewrite Nat.iter_succ, IH. cbn [geo]. unfold affine. lia.
Qed.

Lemma iter_step_affine k s :
  exists q, Nat.iter k PRNG.step s = Nat.iter k affine s + q * 2 ^ 32.
Proof.
  induction k as [|k [q IH]].
  - exists 0. cbn. lia.
  - rewrite !Nat.iter_succ, IH.
    generalize (Nat.iter k affine s). intros y.
    unfold PRNG.step, affine.
    pose proof (Z.div_mod ((y + q * 2 ^ 32) * 1664525 + 1013904223) (2 ^ 32)
                  ltac:(lia)) as Hdm.
    exists (q * 1664525 -
            ((y + q * 2 ^ 32) * 1664525 + 1013904223) / 2 ^ 32).
    lia.
Qed.

Lemma geo_add j k : geo (j + k) = geo j + 1664525 ^ Z.of_nat j * geo k.
Proof.
  induction j as [|j IH].
  - simpl. lia.
  - replace (S j + k)%nat with (S (j + k)) by lia. cbn [geo]. rewrite IH.
    rewrite Nat2Z.inj_succ, Z.pow_succ_r by lia. lia.
Qed.

Lemma multiplier_pow_mod4 k : exists w, 1664525 ^ Z.of_nat k = 4 * w + 1.
Proof.
  induction k as [|k [w IH]].
  - exists 0. reflexivity.
  - rewrite Nat2Z.inj_succ, Z.pow_succ_r, IH by lia.
    exists (1664525 * w + 416131). lia.
Qed.

Lemma geo_pow2 n : exists t, geo (2 ^ n) = 2 ^ Z.of_nat n * (2 * t + 1).
Proof.
  induction n as [|n [t IH]].
  - exists 0. reflexivity.
  - replace (2 ^ S n)%nat with (2 ^ n + 2 ^ n)%nat by (simpl; lia).
    rewrite geo_add, IH.
    destruct (multiplier_pow_mod4 (2 ^ n)) as [w ->].
    rewrite Nat2Z.inj_succ, Z.pow_succ_r by lia.
    exists (t + (2 * t + 1) * w). lia.
Qed.

Lemma iter_affine_pow2 n y :
  exists r, Nat.iter (2 ^ n) affine y = y + 2 ^ Z.of_nat n * (2 * r + 1).
Proof.
  rewrite iter_affine. destruct (geo_pow2 n) as [t ->].
  exists (t + (2 * t + 1) * (832262 * y + 506952111)). lia.
Qed.

Lemma affine_reach n s t :
  exists k, (k < 2 ^ n)%nat /\
            exists d, Nat.iter k affine s - t = 2 ^ Z.of_nat n * d.
Proof.
  induction n as [|n (k & Hk & d & Hd)].
  - exists 0%nat. split; [simpl; lia|]. exists (s - t). simpl. lia.
  - assert (Hpow : (2 ^ S n = 2 ^ n + 2 ^ n)%nat) by (simpl; lia).
    rewrite Nat2Z.inj_succ, Z.pow_succ_r by lia.
    destruct (Z.Even_or_Odd d) as [[e ->] | [e ->]].
    + exists k. split; [lia|]. exists e. lia.
    + exists (2 ^ n + k)%nat. split; [lia|].
      rewrite Nat.iter_add.
      destruct (iter_affine_pow2 n (Nat.iter k affine s)) as [r ->].
      exists (e + r + 1). lia.
Qed.

Theorem step_full_period s t :
  0 <= t < 2 ^ 32 -> exists k, Nat.iter (S k) PRNG.step s = t.
Proof.
  intros Ht.
  destruct (affine_reach 32 (PRNG.step s) t) as (k & _ & d & Hd).
  exists k. rewrite Nat.iter_succ_r.
  destruct (iter_step_affine k (PRNG.step s)) as [q Hq].
  assert (Hr : 0 <= Nat.iter k PRNG.step (PRNG.step s) < 2 ^ 32).
  { destruct k; [cbn | rewrite Nat.iter_succ]; apply step_range. }
  change (2 ^ Z.of_nat 32) with (2 ^ 32) in Hd.
  lia.
Qed.

(** ** The drawing loop *)

Ltac draw_step :=
  cbn [drawPositions]; unfold PRNG.nextInt; cbv zeta;
  repeat case_bool_decide; try lia.

Lemma draw_more_fuel fuel fuel' totalPixels bitsNeeded prng used positions r :
  (fuel <= fuel')%nat ->
  drawPositions fuel totalPixels bitsNeeded prng used positions = Some r ->
  drawPositions fuel' totalPixels bitsNeeded prng used positions = Some r.
Proof.
  revert fuel' prng used positions.
  induction fuel as [|fuel IH]; intros fuel' prng used positions Hle.
  - destruct fuel'; draw_step; congruence.
  - destruct fuel' as [|fuel']; [lia|].
    draw_step; try congruence; apply IH; lia.
Qed.

(** The loop only appends, and stops as soon as the count is reached. *)
Lemma draw_extends fuel totalPixels bitsNeeded prng used positions l :
  drawPositions fuel totalPixels bitsNeeded prng used positions =
    Some (Returned l) ->
  exists suffix,
    l = positions ++ suffix /\
    Z.of_nat (length l) = Z.max (Z.of_nat (length positions)) bitsNeeded.
Proof.
  revert prng used positions.
  induction fuel as [|fuel IH]; intros prng used positions.
  - draw_step; intros [= <-]; try discriminate.
    exists []. rewrite app_nil_r. split; [reflexivity | lia].
  - draw_step.
    + intros (suffix & -> & Hlen)%IH. exists suffix. split; [reflexivity | lia].
    + discriminate.
    + intros (suffix & -> & Hlen)%IH.
      exists ([PRNG.scale (PRNG.step prng) totalPixels] ++ suffix).
      rewrite app_assoc. split; [reflexivity|].
      rewrite !length_app in *. cbn [length] in *. lia.
    + intros [= <-]. exists []. rewrite app_nil_r. split; [reflexivity | lia].
Qed.

(** Every index the loop appends is new and is a value of [nextInt]. *)
Lemma draw_fresh fuel totalPixels bitsNeeded prng used positions l :
  drawPositions fuel totalPixels bitsNeeded prng used positions =
    Some (Returned l) ->
  used = list_to_set positions ->
  NoDup positions ->
  NoDup l /\
  forall p, p ∈ l -> p ∈ positions \/
    exists seed, 0 <= seed < 2 ^ 32 /\ p = PRNG.scale seed totalPixels.
Proof.
  revert prng used positions.
  induction fuel as [|fuel IH]; intros prng used positions.
  - draw_step; intros [= <-]; try discriminate. auto.
  - draw_step.
    + intros Hrun Hused Hnd. exact (IH _ _ _ Hrun Hused Hnd).
    + discriminate.
    + intros Hrun -> Hnd.
      set (pos := PRNG.scale (PRNG.step prng) totalPixels) in *.
      assert (Hnew : pos ∉ positions).
      { intros Hin.
        match goal with H : _ ∉ _ |- _ => apply H end.
        apply elem_of_list_to_set. exact Hin. }
      destruct (IH _ _ _ Hrun) as [Hnd' Hin].
      * rewrite list_to_set_app_L. cbn.
        rewrite union_empty_r_L. apply union_comm_L.
      * apply NoDup_app. repeat split; auto.
        -- intros x Hx ->%list_elem_of_singleton. contradiction.
        -- apply NoDup_singleton.
      * split; [assumption|]. intros p [Hp | Hp]%Hin; [|auto].
        apply elem_of_app in Hp as [Hp | ->%list_elem_of_singleton]; [auto|].
        right. exists (PRNG.step prng). split; [apply step_range | reflexivity].
    + intros [= <-]. auto.
Qed.

(** The set and the list hold the same indices, so a returned list is no
    longer than a [Set] can be. *)
Lemma draw_within_set fuel totalPixels bitsNeeded prng used positions l :
  drawPositions fuel totalPixels bitsNeeded prng used positions =
    Some (Returned l) ->
  used = list_to_set positions ->
  NoDup positions ->
  Z.of_nat (length l) <= Z.max (Z.of_nat (length positions)) setMaxSize.
Proof.
  revert prng used positions.
  induction fuel as [|fuel IH]; intros prng used positions.
  - draw_step; intros [= <-]; try discriminate. lia.
  - draw_step.
    + intros Hrun Hused Hnd. exact (IH _ _ _ Hrun Hused Hnd).
    + discriminate.
    + intros Hrun -> Hnd.
      set (pos := PRNG.scale (PRNG.step prng) totalPixels) in *.
      assert (Hnew : pos ∉ positions).
      { intros Hin.
        match goal with H : _ ∉ _ |- _ => apply H end.
        apply elem_of_list_to_set. exact Hin. }
      assert (Hsize : size (list_to_set positions : gset Z) = length positions)
        by (apply size_list_to_set; exact Hnd).
      pose proof (IH _ _ _ Hrun) as Hlen.
      rewrite length_app in Hlen. cbn [length] in Hlen.
      etransitivity; [apply Hlen|].
      * rewrite list_to_set_app_L. cbn.
        rewrite union_empty_r_L. apply union_comm_L.
      * apply NoDup_app. repeat split; auto.
        -- intros x Hx ->%list_elem_of_singleton. contradiction.
        -- apply NoDup_singleton.
      * lia.
    + intros [= <-]. lia.
Qed.

(** A smaller count stops the same run earlier. *)
Lemma draw_prefix fuel totalPixels b1 b2 prng used positions l2 :
  b1 <= b2 ->
  drawPositions fuel totalPixels b2 prng used positions = Some (Returned l2) ->
  drawPositions fuel totalPixels b1 prng used positions =
    Some (Returned (take (Z.to_nat (Z.max (Z.of_nat (length positions)) b1)) l2)).
Proof.
  intros Hb. revert prng used positions.
  induction fuel as [|fuel IH]; intros prng used positions Hrun.
  - revert Hrun. draw_step; intros [= <-]; try discriminate.
    do 2 f_equal. rewrite take_ge; [reflexivity | lia].
  - destruct (decide (Z.of_nat (length positions) < b1)) as [Hlt | Hge].
    + revert Hrun. draw_step; intros Hrun.
      * rewrite (IH _ _ _ Hrun). reflexivity.
      * discriminate.
      * rewrite (IH _ _ _ Hrun). rewrite length_app. cbn.
        do 4 f_equal. lia.
    + apply draw_extends in Hrun as (suffix & -> & _).
      draw_step. do 2 f_equal.
      replace (Z.to_nat (Z.max (Z.of_nat (length positions)) b1))
        with (length positions) by lia.
      rewrite take_app_length. reflexivity.
Qed.

(** ** Counting distinct indices *)

Lemma NoDup_range_length (l : list Z) n :
  NoDup l -> (forall x, x ∈ l -> 0 <= x < n) -> Z.of_nat (length l) <= Z.max 0 n.
Proof.
  intros Hnd Hr.
  assert (Hsub : l ⊆+ seqZ 0 n).
  { apply NoDup_submseteq; [assumption|].
    intros x Hx. apply elem_of_seqZ. specialize (Hr x Hx). lia. }
  apply submseteq_length in Hsub. rewrite length_seqZ in Hsub. lia.
Qed.

Lemma NoDup_image_length (f : Z -> Z) (l : list Z) n :
  NoDup l ->
  (forall p, p ∈ l -> exists s, 0 <= s < n /\ p = f s) ->
  Z.of_nat (length l) <= Z.max 0 n.
Proof.
  intros Hnd Him.
  assert (Hpre : exists l', l = f <$> l' /\ forall s, s ∈ l' -> 0 <= s < n).
  { clear Hnd. induction l as [|p l IH].
    - exists []. split; [reflexivity|]. intros s Hs. inversion Hs.
    - destruct (Him p) as (s & Hs & ->); [left|].
      destruct IH as (l' & -> & Hl').
      { intros q Hq. apply Him. right. exact Hq. }
      exists (s :: l'). split; [reflexivity|].
      intros s' [-> | Hs']%elem_of_cons; auto. }
  destruct Hpre as (l' & -> & Hl').
  rewrite length_fmap. apply NoDup_range_length; [|assumption].
  eapply NoDup_fmap_1. exact Hnd.
Qed.

(** If the unused pixels are not exhausted, one of them is still free. *)
Lemma free_pixel (positions : list Z) totalPixels :
  Z.of_nat (length positions) < totalPixels ->
  exists p, 0 <= p < totalPixels /\ p ∉ positions.
Proof.
  intros Hlen.
  destruct (decide (Forall (fun p => p ∈ positions) (seqZ 0 totalPixels)))
    as [Hall | Hsome].
  - exfalso.
    assert (Hsub : seqZ 0 totalPixels ⊆+ positions).
    { apply NoDup_submseteq; [apply NoDup_seqZ|].
      intros x Hx. rewrite Forall_forall in Hall. exact (Hall x Hx). }
    apply submseteq_length in Hsub. rewrite length_seqZ in Hsub. lia.
  - apply not_Forall_Exists in Hsome; [|intros x; apply _].
    apply Exists_exists in Hsome as (p & Hp & Hfree).
    apply elem_of_seqZ in Hp. exists p. split; [lia | exact Hfree].
Qed.

(** ** What a returned schedule looks like *)

Lemma generatePixelPositions_returned fuel w h dataLength seed l :
  generatePixelPositions fuel w h dataLength seed = Some (Returned l) ->
  32 + dataLength * 8 <= w * h * 3 /\
  Z.of_nat (length l) = Z.max 0 (32 + dataLength * 8) /\
  NoDup l /\
  (forall p, p ∈ l -> exists s, 0 <= s < 2 ^ 32 /\ p = PRNG.scale s (w * h)) /\
  (forall p, p ∈ l -> 0 <= p < w * h).
Proof.
  unfold generatePixelPositions. cbv zeta.
  destruct (Z.gtb_spec (32 + dataLength * 8) (w * h * 3)) as [|Hcap];
    [discriminate|].
  intros Hrun.
  pose proof (draw_extends _ _ _ _ _ _ _ Hrun) as (suffix & _ & Hlen).
  destruct (draw_fresh _ _ _ _ _ _ _ Hrun) as [Hnd Him];
    [reflexivity | apply NoDup_nil_2 |].
  cbn [length] in Hlen.
  assert (Hseeds : forall p, p ∈ l ->
            exists s, 0 <= s < 2 ^ 32 /\ p = PRNG.scale s (w * h)).
  { intros p [Hp | Hp]%Him; [inversion Hp | exact Hp]. }
  repeat split; try assumption; try lia.
  - destruct (Hseeds p H) as (s & Hs & ->).
    apply scale_range; [assumption|].
    destruct l; [inversion H | cbn [length] in Hlen; lia].
  - destruct (Hseeds p H) as (s & Hs & ->).
    apply scale_range; [assumption|].
    destruct l; [inversion H | cbn [length] in Hlen; lia].
Qed.

(** A returned schedule fits in the set of used indices. *)
Lemma generatePixelPositions_at_most_set fuel w h dataLength seed l :
  generatePixelPositions fuel w h dataLength seed = Some (Returned l) ->
  32 + dataLength * 8 <= setMaxSize.
Proof.
  intros Hrun.
  pose proof (generatePixelPositions_returned _ _ _ _ _ _ Hrun) as (_ & Hlen & _).
  revert Hrun. unfold generatePixelPositions. cbv zeta.
  destruct (_ >? _); [discriminate|]. intros Hrun.
  pose proof (draw_within_set _ _ _ _ _ _ _ Hrun eq_refl (NoDup_nil_2 (A:=Z))) as H.
  cbn [length] in H. unfold setMaxSize in *. lia.
Qed.

(** An exception of the scheduler is one of two. *)
Lemma draw_thrown fuel totalPixels bitsNeeded prng used positions m :
  drawPositions fuel totalPixels bitsNeeded prng used positions =
    Some (Thrown m) ->
  m = "Set maximum size exceeded"%string.
Proof.
  revert prng used positions.
  induction fuel as [|fuel IH]; intros prng used positions.
  - draw_step; discriminate.
  - draw_step; try discriminate; try apply IH. intros [= <-]. reflexivity.
Qed.

(** While every pixel fits in a set, the loop never throws. *)
Lemma draw_never_throws fuel totalPixels bitsNeeded prng used positions m :
  0 < totalPixels <= setMaxSize ->
  (forall x, x ∈ used -> 0 <= x < totalPixels) ->
  drawPositions fuel totalPixels bitsNeeded prng used positions <>
    Some (Thrown m).
Proof.
  intros HT. revert prng used positions.
  induction fuel as [|fuel IH]; intros prng used positions Hused.
  - draw_step; discriminate.
  - pose proof (scale_range (PRNG.step prng) totalPixels (step_range prng)
                  ltac:(lia)) as Hpos.
    set (pos := PRNG.scale (PRNG.step prng) totalPixels) in *.
    assert (Hsub : {[pos]} ∪ used ⊆ (list_to_set (seqZ 0 totalPixels) : gset Z)).
    { intros x [->%elem_of_singleton | Hx]%elem_of_union;
        apply elem_of_list_to_set, elem_of_seqZ; [lia|].
      specialize (Hused x Hx). lia. }
    draw_step; try discriminate.
    + apply IH. exact Hused.
    + exfalso.
      apply subseteq_size in Hsub.
      rewrite size_union, size_singleton in Hsub
        by (apply disjoint_singleton_l; assumption).
      rewrite size_list_to_set, length_seqZ in Hsub by apply NoDup_seqZ.
      match goal with H : setMaxSize <= _ |- _ => revert H end. lia.
    + fold pos. apply IH.
      intros x [->%elem_of_singleton | Hx]%elem_of_union; [lia | auto].
Qed.

(** The indices are unique per pixel, so no call returns more positions
    than there are pixels: with more bits than pixels, and no more pixels
    than a set holds, the loop runs for ever. *)
Lemma generatePixelPositions_at_most_pixels fuel w h dataLength seed :
  w * h < 32 + dataLength * 8 <= w * h * 3 ->
  w * h <= setMaxSize ->
  generatePixelPositions fuel w h dataLength seed = None.
Proof.
  intros Hbits Hset.
  destruct (generatePixelPositions fuel w h dataLength seed) as [[l|m]|] eqn:Hrun;
    [| |reflexivity].
  - apply generatePixelPositions_returned in Hrun as (_ & Hlen & Hnd & _ & Hin).
    pose proof (NoDup_range_length _ _ Hnd Hin). lia.
  - exfalso. unfold generatePixelPositions in Hrun. cbv zeta in Hrun.
    destruct (Z.gtb_spec (32 + dataLength * 8) (w * h * 3)); [lia|].
    revert Hrun. apply draw_never_throws; [lia|].
    intros x Hx. apply elem_of_empty in Hx. contradiction.
Qed.

(** ... nor more than the generator has states. *)
Lemma generatePixelPositions_at_most_states fuel w h dataLength seed l :
  generatePixelPositions fuel w h dataLength seed = Some (Returned l) ->
  32 + dataLength * 8 <= 2 ^ 32.
Proof.
  intros (_ & Hlen & Hnd & Him & _)%generatePixelPositions_returned.
  pose proof (NoDup_image_length _ _ _ Hnd Him). lia.
Qed.

(** ** Termination of the drawing loop *)

(** Every pixel index is a value of [nextInt] for some state. *)
Lemma scale_onto totalPixels p :
  0 < totalPixels <= 2 ^ 32 - 1024 ->
  0 <= p < totalPixels ->
  exists s, 0 <= s < 2 ^ 32 /\ PRNG.scale s totalPixels = p.
Proof.
  intros HT Hp.
  set (s := (p * 2 ^ 32 + totalPixels - 1) / totalPixels).
  pose proof (Z.div_mod (p * 2 ^ 32 + totalPixels - 1) totalPixels ltac:(lia)) as Hdm.
  pose proof (Z.mod_pos_bound (p * 2 ^ 32 + totalPixels - 1) totalPixels ltac:(lia)).
  fold s in Hdm.
  assert (Hlo : p * 2 ^ 32 <= s * totalPixels) by lia.
  assert (Hhi : s * totalPixels <= p * 2 ^ 32 + totalPixels - 1) by lia.
  assert (Hs : 0 <= s < 2 ^ 32) by nia.
  exists s. split; [exact Hs|].
  unfold PRNG.scale.
  assert (Hgoal : p * 2 ^ 32 <= rne53 (s * totalPixels) < (p + 1) * 2 ^ 32).
  { destruct (Z.lt_ge_cases (s * totalPixels) (2 ^ 53)) as [Hsmall | Hbig].
    - rewrite rne53_small by assumption. lia.
    - destruct (rne53_bounds _ Hbig) as (q' & -> & Hq1 & Hq2).
      destruct (rne53_shift _ Hbig) as (Hsh & Hnlo & _).
      set (sh := Z.log2 (s * totalPixels) - 52) in *.
      assert (Hsh' : sh <= 11).
      { assert (2 ^ (sh + 52) < 2 ^ 64) by nia.
        apply Z.pow_lt_mono_r_iff in H0; lia. }
      assert (Hhalf : 2 ^ (sh - 1) <= 2 ^ 10) by (apply Z.pow_le_mono_r; lia).
      assert (Hpos : 0 < 2 ^ sh) by (apply Z.pow_pos_nonneg; lia).
      assert (Hsplit : 2 ^ 32 = 2 ^ (32 - sh) * 2 ^ sh).
      { rewrite <- Z.pow_add_r by lia. f_equal. lia. }
      assert (Htrunc : p * 2 ^ (32 - sh) <= (s * totalPixels) / 2 ^ sh).
      { apply Z.div_le_lower_bound; [lia|]. rewrite Hsplit in Hlo. lia. }
      split.
      + rewrite Hsplit. nia.
      + change (2 ^ 10) with 1024 in Hhalf. lia. }
  symmetry. apply Z.div_unique with (r := rne53 (s * totalPixels) - p * 2 ^ 32); lia.
Qed.

(** Rounding moves a product by less than one part in [2^52]. *)
Lemma rne53_near n :
  0 <= n ->
  2 ^ 52 * (rne53 n - n) <= n /\ 2 ^ 52 * (n - rne53 n) <= n.
Proof.
  intros Hn.
  destruct (Z.lt_ge_cases n (2 ^ 53)) as [Hsmall | Hbig].
  - rewrite rne53_small by assumption. lia.
  - destruct (rne53_bounds _ Hbig) as (q' & -> & Hq1 & Hq2).
    destruct (rne53_shift _ Hbig) as (Hsh & Hnlo & _).
    set (sh := Z.log2 n - 52) in *.
    assert (Hpos : 0 < 2 ^ sh) by (apply Z.pow_pos_nonneg; lia).
    assert (Hpow : 2 ^ sh = 2 * 2 ^ (sh - 1)).
    { rewrite <- Z.pow_succ_r by lia. f_equal. lia. }
    assert (Hsum : 2 ^ (sh + 52) = 2 ^ 52 * 2 ^ sh).
    { rewrite Z.pow_add_r by lia. lia. }
    pose proof (Z.div_mod n (2 ^ sh) ltac:(lia)) as Hdm.
    pose proof (Z.mod_pos_bound n (2 ^ sh) ltac:(lia)) as Hm.
    split; nia.
Qed.

(** On an image of at least 2^26 pixels, states that are 128 apart give
    different indices. *)
Lemma scale_spread totalPixels s s' :
  2 ^ 26 <= totalPixels ->
  0 <= s -> s + 128 <= s' -> s' < 2 ^ 32 ->
  PRNG.scale s totalPixels < PRNG.scale s' totalPixels.
Proof.
  intros HT Hs Hgap Hs'. unfold PRNG.scale.
  pose proof (rne53_near (s * totalPixels) ltac:(nia)) as [Ha _].
  pose proof (rne53_near (s' * totalPixels) ltac:(nia)) as [_ Hb].
  set (ra := rne53 (s * totalPixels)) in *.
  set (rb := rne53 (s' * totalPixels)) in *.
  assert (Hfar : ra + 2 ^ 32 <= rb) by nia.
  apply Z.lt_le_trans with ((ra + 1 * 2 ^ 32) / 2 ^ 32).
  - rewrite Z.div_add by lia. lia.
  - apply Z.div_le_mono; lia.
Qed.

(** While fewer than 2^25 indices are taken and a pixel is left, some
    state of the generator gives an index that is not taken. *)
Lemma fresh_state totalPixels (positions : list Z) :
  Z.of_nat (length positions) < totalPixels ->
  Z.of_nat (length positions) < 2 ^ 25 ->
  exists s, 0 <= s < 2 ^ 32 /\ PRNG.scale s totalPixels ∉ positions.
Proof.
  intros Hlen Hfew.
  destruct (Z.le_gt_cases totalPixels (2 ^ 32 - 1024)) as [Hsmall | Hbig].
  - destruct (free_pixel positions totalPixels Hlen) as (p & Hp & Hfree).
    destruct (scale_onto totalPixels p ltac:(lia) Hp) as (s & Hs & Hsp).
    exists s. split; [exact Hs|]. rewrite Hsp. exact Hfree.
  - set (f := fun k => PRNG.scale (128 * k) totalPixels).
    destruct (decide (Forall (fun k => f k ∈ positions) (seqZ 0 (2 ^ 25))))
      as [Hall | Hsome].
    + exfalso.
      assert (Hnd : NoDup (f <$> seqZ 0 (2 ^ 25))).
      { apply NoDup_fmap_2_strong; [|apply NoDup_seqZ].
        intros x y Hx%elem_of_seqZ Hy%elem_of_seqZ Hxy. unfold f in Hxy.
        destruct (Z.lt_trichotomy x y) as [Hlt | [Heq | Hgt]]; [|exact Heq|].
        - pose proof (scale_spread totalPixels (128 * x) (128 * y)
                        ltac:(lia) ltac:(lia) ltac:(lia) ltac:(lia)). lia.
        - pose proof (scale_spread totalPixels (128 * y) (128 * x)
                        ltac:(lia) ltac:(lia) ltac:(lia) ltac:(lia)). lia. }
      assert (Hsub : f <$> seqZ 0 (2 ^ 25) ⊆+ positions).
      { apply NoDup_submseteq; [exact Hnd|].
        intros x (k & -> & Hk)%list_elem_of_fmap.
        rewrite Forall_forall in Hall. exact (Hall k Hk). }
      apply submseteq_length in Hsub.
      rewrite length_fmap, length_seqZ in Hsub. lia.
    + apply not_Forall_Exists in Hsome; [|intros x; apply _].
      apply Exists_exists in Hsome as (k & Hk & Hfree).
      apply elem_of_seqZ in Hk. exists (128 * k). split; [lia | exact Hfree].
Qed.

(** If some later draw is new, the loop gets to add an index to the set,
    which throws when the set is full. *)
Lemma draw_reaches_fresh j totalPixels bitsNeeded used positions :
  Z.of_nat (length positions) < bitsNeeded ->
  forall prng,
    PRNG.scale (Nat.iter (S j) PRNG.step prng) totalPixels ∉ used ->
    exists prng' pos,
      (pos ∉ used) /\
      forall fuel, exists fuel', (fuel <= fuel')%nat /\
        drawPositions (S j + fuel) totalPixels bitsNeeded prng used positions =
        if bool_decide (setMaxSize <= Z.of_nat (size used)) then
          Some (Thrown "Set maximum size exceeded")
        else
          drawPositions fuel' totalPixels bitsNeeded prng'
            ({[pos]} ∪ used) (positions ++ [pos]).
Proof.
  intros Hlen. induction j as [|j IH]; intros prng Hfresh.
  - change (Nat.iter 1 PRNG.step prng) with (PRNG.step prng) in Hfresh.
    exists (PRNG.step prng), (PRNG.scale (PRNG.step prng) totalPixels).
    split; [exact Hfresh|]. intros fuel. exists fuel. split; [lia|].
    replace (1 + fuel)%nat with (S fuel) by lia.
    cbn [drawPositions]. unfold PRNG.nextInt. cbv zeta.
    rewrite (bool_decide_eq_true_2 _ Hlen), (bool_decide_eq_false_2 _ Hfresh).
    reflexivity.
  - destruct (decide (PRNG.scale (PRNG.step prng) totalPixels ∈ used))
      as [Hused | Hnew].
    + rewrite Nat.iter_succ_r in Hfresh.
      destruct (IH _ Hfresh) as (prng' & pos & Hpos & Hrun).
      exists prng', pos. split; [exact Hpos|]. intros fuel.
      destruct (Hrun fuel) as (fuel' & Hle & Heq).
      exists fuel'. split; [exact Hle|]. rewrite <- Heq.
      replace (S (S j) + fuel)%nat with (S (S j + fuel)) by lia.
      cbn [drawPositions]. unfold PRNG.nextInt. cbv zeta.
      rewrite (bool_decide_eq_true_2 _ Hlen), (bool_decide_eq_true_2 _ Hused).
      reflexivity.
    + exists (PRNG.step prng), (PRNG.scale (PRNG.step prng) totalPixels).
      split; [exact Hnew|]. intros fuel. exists (S j + fuel)%nat. split; [lia|].
      replace (S (S j) + fuel)%nat with (S (S j + fuel)) by lia.
      cbn [drawPositions]. unfold PRNG.nextInt. cbv zeta.
      rewrite (bool_decide_eq_true_2 _ Hlen), (bool_decide_eq_false_2 _ Hnew).
      reflexivity.
Qed.

(** The state of the loop: the set holds the indices of the list. *)
Lemma draw_state_add (positions : list Z) (used : gset Z) pos :
  used = list_to_set positions -> NoDup positions -> pos ∉ used ->
  {[pos]} ∪ used = list_to_set (positions ++ [pos]) /\
  NoDup (positions ++ [pos]) /\
  size used = length positions.
Proof.
  intros -> Hnd Hpos. rewrite elem_of_list_to_set in Hpos. split; [|split].
  - rewrite list_to_set_app_L. cbn.
    rewrite union_empty_r_L. apply union_comm_L.
  - apply NoDup_app. repeat split; auto.
    + intros x Hx ->%list_elem_of_singleton. contradiction.
    + apply NoDup_singleton.
  - apply size_list_to_set. exact Hnd.
Qed.

Lemma draw_terminates totalPixels bitsNeeded :
  bitsNeeded <= totalPixels ->
  bitsNeeded <= setMaxSize ->
  forall n prng used positions,
    Z.to_nat (bitsNeeded - Z.of_nat (length positions)) = n ->
    used = list_to_set positions ->
    NoDup positions ->
    exists fuel l,
      drawPositions fuel totalPixels bitsNeeded prng used positions =
        Some (Returned l).
Proof.
  intros HB Hset. induction n as [|n IH]; intros prng used positions Hn Hused Hnd.
  - exists 0%nat, positions. draw_step; reflexivity.
  - assert (Hlen : Z.of_nat (length positions) < bitsNeeded) by lia.
    destruct (fresh_state totalPixels positions) as (s & Hs & Hfree);
      [lia | unfold setMaxSize in Hset; lia |].
    destruct (step_full_period prng s Hs) as [j Hj].
    destruct (draw_reaches_fresh j totalPixels bitsNeeded used positions Hlen prng)
      as (prng' & pos & Hpos & Hrun).
    { rewrite Hj, Hused. rewrite elem_of_list_to_set. exact Hfree. }
    destruct (draw_state_add positions used pos Hused Hnd Hpos)
      as (Hused' & Hnd' & Hsize).
    destruct (IH prng' ({[pos]} ∪ used) (positions ++ [pos])) as (fuel & l & Hl);
      [rewrite length_app; cbn [length]; lia | exact Hused' | exact Hnd' |].
    destruct (Hrun fuel) as (fuel' & Hle & Heq).
    exists (S j + fuel)%nat, l. rewrite Heq.
    rewrite bool_decide_eq_false_2 by lia.
    eapply draw_more_fuel; eassumption.
Qed.

(** With more bits than a set holds and more pixels too, the loop fills
    the set and the next new index makes [add] throw. *)
Lemma draw_throws totalPixels bitsNeeded :
  setMaxSize < totalPixels ->
  setMaxSize < bitsNeeded ->
  forall n prng used positions,
    Z.to_nat (setMaxSize - Z.of_nat (length positions)) = n ->
    Z.of_nat (length positions) <= setMaxSize ->
    used = list_to_set positions ->
    NoDup positions ->
    exists fuel,
      drawPositions fuel totalPixels bitsNeeded prng used positions =
        Some (Thrown "Set maximum size exceeded").
Proof.
  intros HT HB. induction n as [|n IH];
    intros prng used positions Hn Hfull Hused Hnd;
    (assert (Hlen : Z.of_nat (length positions) < bitsNeeded) by lia);
    (destruct (fresh_state totalPixels positions) as (s & Hs & Hfree);
      [lia | unfold setMaxSize in Hfull; lia |]);
    destruct (step_full_period prng s Hs) as [j Hj];
    (destruct (draw_reaches_fresh j totalPixels bitsNeeded used positions Hlen prng)
      as (prng' & pos & Hpos & Hrun);
      [rewrite Hj, Hused; rewrite elem_of_list_to_set; exact Hfree|]);
    destruct (draw_state_add positions used pos Hused Hnd Hpos)
      as (Hused' & Hnd' & Hsize).
  - destruct (Hrun 0%nat) as (fuel' & _ & Heq).
    exists (S j + 0)%nat. rewrite Heq.
    rewrite bool_decide_eq_true_2 by lia. reflexivity.
  - destruct (IH prng' ({[pos]} ∪ used) (positions ++ [pos])) as (fuel & Hl);
      [rewrite length_app; cbn [length]; lia
      |rewrite length_app; cbn [length]; lia
      | exact Hused' | exact Hnd' |].
    destruct (Hrun fuel) as (fuel' & Hle & Heq).
    exists (S j + fuel)%nat. rewrite Heq.
    rewrite bool_decide_eq_false_2 by lia.
    eapply draw_more_fuel; eassumption.
Qed.

Lemma generatePixelPositions_more_fuel fuel fuel' w h dataLength seed r :
  (fuel <= fuel')%nat ->
  generatePixelPositions fuel w h dataLength seed = Some r ->
  generatePixelPositions fuel' w h dataLength seed = Some r.
Proof.
  intros Hle. unfold generatePixelPositions. cbv zeta.
  destruct (_ >? _); [trivial|].
  apply draw_more_fuel. exact Hle.
Qed.

Lemma generatePixelPositions_terminates w h dataLength seed :
  0 <= dataLength ->
  32 + dataLength * 8 <= w * h ->
  32 + dataLength * 8 <= setMaxSize ->
  exists fuel l,
    generatePixelPositions fuel w h dataLength seed = Some (Returned l).
Proof.
  intros Hd Hcap Hset.
  destruct (draw_terminates (w * h) (32 + dataLength * 8) Hcap Hset
              _ (PRNG.new seed) ∅ [] eq_refl eq_refl (NoDup_nil_2 (A:=Z)))
    as (fuel & l & Hl).
  exists fuel, l. unfold generatePixelPositions. cbv zeta.
  destruct (Z.gtb_spec (32 + dataLength * 8) (w * h * 3)); [lia|].
  exact Hl.
Qed.

(** A schedule of more than 2^24 positions on an image of more than 2^24
    pixels ends in the exception of the set. *)
Lemma generatePixelPositions_throws w h dataLength seed :
  setMaxSize < 32 + dataLength * 8 <= w * h * 3 ->
  setMaxSize < w * h ->
  exists fuel,
    generatePixelPositions fuel w h dataLength seed =
      Some (Thrown "Set maximum size exceeded").
Proof.
  intros Hbits HT.
  destruct (draw_throws (w * h) (32 + dataLength * 8) HT ltac:(lia)
              _ (PRNG.new seed) ∅ [] eq_refl ltac:(cbn; unfold setMaxSize; lia)
              eq_refl (NoDup_nil_2 (A:=Z)))
    as (fuel & Hl).
  exists fuel. unfold generatePixelPositions. cbv zeta.
  destruct (Z.gtb_spec (32 + dataLength * 8) (w * h * 3)); [lia|].
  exact Hl.
Qed.

(** An exception cannot turn into a result with more fuel, nor a result
    into an exception. *)
Lemma generatePixelPositions_outcome fuel fuel' w h dataLength seed r r' :
  generatePixelPositions fuel w h dataLength seed = Some r ->
  generatePixelPositions fuel' w h dataLength seed = Some r' ->
  r = r'.
Proof.
  intros Hr Hr'.
  destruct (Nat.le_ge_cases fuel fuel') as [Hle | Hge].
  - rewrite (generatePixelPositions_more_fuel _ _ _ _ _ _ _ Hle Hr) in Hr'.
    congruence.
  - rewrite (generatePixelPositions_more_fuel _ _ _ _ _ _ _ Hge Hr') in Hr.
    congruence.
Qed.

(** ** The scheduler: determinism, prefix stability, capacity *)

(** The seed is the 32-bit string hash of the password, so distinct
    passwords can share a schedule. *)
Example seed_collision : PRNG.new (js "Aa") = PRNG.new (js "BB").
Proof. reflexivity. Qed.

(** C6. Two calls of [generatePixelPositions] with the same width, height,
    byte count and password produce the same outcome: the generator is
    created anew from the password in each call, and the outcome does not
    depend on how long each call is left to run. *)
Theorem C6_schedule_deterministic fuel1 fuel2 w h dataLength password r1 r2 :
  generatePixelPositions fuel1 w h dataLength password = Some r1 ->
  generatePixelPositions fuel2 w h dataLength password = Some r2 ->
  r1 = r2.
Proof.
  intros H1 H2.
  apply (generatePixelPositions_more_fuel _ (Nat.max fuel1 fuel2)) in H1; [|lia].
  apply (generatePixelPositions_more_fuel _ (Nat.max fuel1 fuel2)) in H2; [|lia].
  congruence.
Qed.

Lemma C6_schedule_deterministic_witness :
  exists r1 r2,
    generatePixelPositions 100 16 16 4 (js "ab") = Some r1 /\
    generatePixelPositions 300 16 16 4 (js "ab") = Some r2 /\
    r1 = r2.
Proof.
  eexists _, _.
  split; [vm_compute; reflexivity|].
  split; [vm_compute; reflexivity|].
  apply (C6_schedule_deterministic 100 300 16 16 4 (js "ab"));
    vm_compute; reflexivity.
Defined.

Lemma generatePixelPositions_prefix fuel w h seed k n l :
  k <= n ->
  generatePixelPositions fuel w h n seed = Some (Returned l) ->
  generatePixelPositions fuel w h k seed =
    Some (Returned (take (Z.to_nat (32 + k * 8)) l)).
Proof.
  intros Hk. unfold generatePixelPositions. cbv zeta.
  destruct (Z.gtb_spec (32 + n * 8) (w * h * 3)); [discriminate|].
  destruct (Z.gtb_spec (32 + k * 8) (w * h * 3)); [lia|].
  intros Hn.
  assert (Hle : 32 + k * 8 <= 32 + n * 8) by lia.
  rewrite (draw_prefix _ _ _ _ _ _ _ _ Hle Hn).
  cbn. do 3 f_equal. lia.
Qed.

Lemma generatePixelPositions_header fuel w h seed n l :
  4 <= n ->
  generatePixelPositions fuel w h n seed = Some (Returned l) ->
  exists header,
    generatePixelPositions fuel w h 4 seed = Some (Returned header) /\
    take 32 header = take 32 l.
Proof.
  intros H4 Hrun. eexists.
  split; [exact (generatePixelPositions_prefix _ _ _ _ 4 n l H4 Hrun)|].
  rewrite take_take. reflexivity.
Qed.

(** C3. Prefix stability: when the call for [n] bytes returns a sequence,
    the call for any [m <= n] bytes with the same dimensions and seed returns
    its first [32 + 8 m] positions; in particular the 32 header positions that
    extraction takes from its 4-byte call are the first 32 positions of the
    full-payload call. *)
Theorem C3_prefix_stability fuel w h seed m n l :
  m <= n ->
  generatePixelPositions fuel w h n seed = Some (Returned l) ->
  generatePixelPositions fuel w h m seed =
    Some (Returned (take (Z.to_nat (32 + m * 8)) l)) /\
  (4 <= n ->
   exists header,
     generatePixelPositions fuel w h 4 seed = Some (Returned header) /\
     take 32 header = take 32 l).
Proof.
  intros Hmn Hrun. split.
  - exact (generatePixelPositions_prefix _ _ _ _ m n l Hmn Hrun).
  - intros H4. exact (generatePixelPositions_header _ _ _ _ n l H4 Hrun).
Qed.

Lemma C3_prefix_stability_witness :
  exists l,
    generatePixelPositions 200 16 16 4 (js "key") = Some (Returned l) /\
    generatePixelPositions 200 16 16 1 (js "key") = Some (Returned (take 40 l)).
Proof.
  eexists. split.
  - vm_compute. reflexivity.
  - refine (proj1 (C3_prefix_stability 200 16 16 (js "key") 1 4 _ _ _)).
    + lia.
    + vm_compute. reflexivity.
Defined.

(** C2. The capacity test allows three bits per pixel, the drawing loop
    hands out each pixel once.  On a 41 x 8 carrier a 119-byte payload needs
    exactly 3 x 328 = 984 positions: the test passes and the loop never
    ends, however long it runs.  One more byte is refused by the test, before
    any position is drawn and so before any pixel is written. *)
Theorem C2_capacity_boundary fuel password :
  32 + 119 * 8 = 3 * (41 * 8) /\
  generatePixelPositions fuel 41 8 119 password = None /\
  generatePixelPositions fuel 41 8 120 password =
    Some (Thrown "Image too small for data payload").
Proof.
  split; [reflexivity|]. split.
  - apply generatePixelPositions_at_most_pixels; [lia|].
    unfold setMaxSize. lia.
  - reflexivity.
Qed.

(** C10, as stated, fails on a 5000 x 5000 carrier and 2200000 bytes: the
    17600032 positions asked for are fewer than the 25000000 pixels, but
    more than the set of used indices can hold, and the call ends in the
    exception of the set instead of a sequence. *)
Lemma C10_counterexample :
  32 + 2200000 * 8 <= 5000 * 5000 /\
  (exists fuel,
     generatePixelPositions fuel 5000 5000 2200000 (js "pw") =
       Some (Thrown "Set maximum size exceeded")) /\
  forall fuel l,
    generatePixelPositions fuel 5000 5000 2200000 (js "pw")
      <> Some (Returned l).
Proof.
  split; [lia|]. split.
  - apply generatePixelPositions_throws; unfold setMaxSize; lia.
  - intros fuel l Hrun.
    apply generatePixelPositions_at_most_set in Hrun.
    unfold setMaxSize in Hrun. lia.
Qed.

(** C10, amended. For a byte count [dataLength >= 0] with
    [32 + 8 dataLength <= width * height] and [32 + 8 dataLength <= 2^24],
    the most a set holds, the call terminates and returns exactly
    [32 + 8 dataLength] pairwise distinct pixel indices, each in
    [0, width * height). *)
Theorem C10_schedule_total w h dataLength seed :
  0 <= dataLength ->
  32 + dataLength * 8 <= w * h ->
  32 + dataLength * 8 <= setMaxSize ->
  exists fuel l,
    generatePixelPositions fuel w h dataLength seed = Some (Returned l) /\
    Z.of_nat (length l) = 32 + dataLength * 8 /\
    NoDup l /\
    forall p, p ∈ l -> 0 <= p < w * h.
Proof.
  intros Hd Hcap Hset.
  destruct (generatePixelPositions_terminates w h dataLength seed Hd Hcap Hset)
    as (fuel & l & Hrun).
  exists fuel, l. split; [exact Hrun|].
  apply generatePixelPositions_returned in Hrun as (_ & Hlen & Hnd & _ & Hin).
  repeat split; try assumption; try lia; apply Hin; assumption.
Qed.

Lemma C10_schedule_total_witness :
  exists fuel l,
    generatePixelPositions fuel 8 8 4 (js "key") = Some (Returned l) /\
    Z.of_nat (length l) = 32 + 4 * 8 /\
    NoDup l /\
    forall p, p ∈ l -> 0 <= p < 8 * 8.
Proof.
  apply (C10_schedule_total 8 8 4 (js "key")); unfold setMaxSize; lia.
Defined.

(** ** The bit codec *)

Lemma byte_cases (Q : Z -> bool) :
  forallb Q (seqZ 0 256) = true -> forall b, is_byte b -> Q b = true.
Proof.
  intros Hall b Hb. rewrite forallb_forall in Hall. apply Hall.
  apply list_elem_of_In, elem_of_seqZ. unfold is_byte in Hb. lia.
Qed.

Lemma byte_rebuild b :
  is_byte b ->
  withBit (bitOf b 0) 0 (withBit (bitOf b 1) 1 (withBit (bitOf b 2) 2
    (withBit (bitOf b 3) 3 (withBit (bitOf b 4) 4 (withBit (bitOf b 5) 5
      (withBit (bitOf b 6) 6 (withBit (bitOf b 7) 7 0))))))) = b.
Proof.
  intros Hb. apply Z.eqb_eq. revert b Hb.
  apply byte_cases. vm_compute. reflexivity.
Qed.

Lemma byteBits_bit b x : x ∈ byteBits b -> x = 0 \/ x = 1.
Proof.
  unfold byteBits. intros (i & -> & _)%list_elem_of_fmap.
  pose proof (Z.land_ones (Z.shiftr b i) 1 ltac:(lia)) as Hland.
  change (Z.ones 1) with 1 in Hland. change (2 ^ 1) with 2 in Hland.
  pose proof (Z.mod_pos_bound (Z.shiftr b i) 2). lia.
Qed.

Lemma dataToBits_bit data x : x ∈ dataToBits data -> x = 0 \/ x = 1.
Proof.
  unfold dataToBits. intros Hx. apply list_elem_of_In, in_flat_map in Hx.
  destruct Hx as (b & _ & Hx). apply list_elem_of_In in Hx.
  eapply byteBits_bit; eassumption.
Qed.

Lemma length_dataToBits data : length (dataToBits data) = (8 * length data)%nat.
Proof.
  induction data as [|b data IH]; [reflexivity|].
  unfold dataToBits in *. cbn [flat_map]. rewrite length_app, IH.
  cbn [byteBits map length]. lia.
Qed.

Lemma collectBits_one k j bit rest pre v post :
  length pre = k -> (j < 8)%nat ->
  collectBits (8 * k + j) (bit :: rest) (pre ++ v :: post) =
  collectBits (8 * k + S j) rest
    (pre ++ withBit bit (7 - Z.of_nat j) v :: post).
Proof.
  intros Hk Hj. cbn [collectBits].
  replace ((8 * k + j) / 8)%nat with k
    by (rewrite Nat.mul_comm, Nat.div_add_l, Nat.div_small; lia).
  replace ((8 * k + j) mod 8)%nat with j
    by (rewrite Nat.add_comm, Nat.mul_comm, Nat.Div0.mod_add, Nat.mod_small; lia).
  replace (S (8 * k + j)) with (8 * k + S j)%nat by lia.
  f_equal. unfold withBit. destruct (bit =? 0); [reflexivity|].
  subst k. rewrite alter_app_r_alt by lia.
  rewrite Nat.sub_diag. reflexivity.
Qed.

Lemma collectBits_byte k b rest pre post :
  length pre = k -> is_byte b ->
  collectBits (8 * k) (byteBits b ++ rest) (pre ++ 0 :: post) =
  collectBits (8 * k + 8) rest (pre ++ b :: post).
Proof.
  intros Hk Hb. unfold byteBits. cbn [map app].
  replace (8 * k)%nat with (8 * k + 0)%nat at 1 by lia.
  do 8 (rewrite (collectBits_one k) by (assumption || lia)).
  cbn [Z.of_nat Pos.of_succ_nat Pos.succ Z.sub Z.add Z.opp Z.pos_sub
         Z.succ_double Z.pred_double Z.double Pos.pred_double].
  fold (bitOf b 7) (bitOf b 6) (bitOf b 5) (bitOf b 4)
       (bitOf b 3) (bitOf b 2) (bitOf b 1) (bitOf b 0).
  rewrite byte_rebuild by assumption. reflexivity.
Qed.

Lemma collectBits_data data :
  Forall is_byte data ->
  forall pre,
    collectBits (8 * length pre) (dataToBits data)
      (pre ++ replicate (length data) 0) = pre ++ data.
Proof.
  induction 1 as [|b data Hb _ IH]; intros pre.
  - reflexivity.
  - unfold dataToBits. cbn [flat_map length replicate].
    rewrite collectBits_byte by (reflexivity || assumption).
    specialize (IH (pre ++ [b])).
    rewrite length_app, <- !app_assoc in IH. cbn [length app] in IH.
    replace (8 * (length pre + 1))%nat with (8 * length pre + 8)%nat in IH by lia.
    exact IH.
Qed.

Lemma bitsToData_dataToBits data :
  Forall is_byte data -> bitsToData (dataToBits data) = data.
Proof.
  intros Hdata. unfold bitsToData. rewrite length_dataToBits.
  replace ((8 * length data + 7) / 8)%nat with (length data)
    by (rewrite Nat.mul_comm, Nat.div_add_l, Nat.div_small; lia).
  exact (collectBits_data data Hdata []).
Qed.

(** C5. Collapsing the MSB-first bit expansion of a byte sequence gives the
    sequence back, for every byte sequence (the empty one included). *)
Theorem C5_bits_roundtrip data :
  Forall is_byte data -> bitsToData (dataToBits data) = data.
Proof. exact (bitsToData_dataToBits data). Qed.

Lemma C5_bits_roundtrip_witness :
  bitsToData (dataToBits [0; 255; 104; 129]) = [0; 255; 104; 129].
Proof.
  apply C5_bits_roundtrip.
  repeat constructor; unfold is_byte; lia.
Defined.

(** ** The small platform satisfies the laws *)

Lemma Forall_toByte l : Forall is_byte (map toByte l).
Proof.
  apply Forall_forall. intros x (y & -> & _)%list_elem_of_fmap.
  unfold toByte, is_byte. apply Z.mod_pos_bound. lia.
Qed.

Lemma Forall_take_pad n l : Forall is_byte l -> Forall is_byte (take n (l ++ replicate n 0)).
Proof.
  intros Hl. apply Forall_take, Forall_app. split; [exact Hl|].
  apply Forall_replicate. unfold is_byte. lia.
Qed.

Lemma toByte_ascii l : Forall (fun c => 0 <= c < 128) l -> map toByte l = l.
Proof.
  induction 1 as [|c l Hc _ IH]; [reflexivity|].
  cbn [map]. rewrite IH. unfold toByte. rewrite Z.mod_small by lia. reflexivity.
Qed.

Lemma length_toyTag tagLength key nonce :
  length (toyTag tagLength key nonce) = tagLength.
Proof.
  unfold toyTag. rewrite length_take, length_app, length_replicate. lia.
Qed.

Lemma sizedPlatform_laws tagLength digestLength :
  PlatformLaws (sizedPlatform tagLength digestLength).
Proof.
  split; cbn.
  - apply Forall_toByte.
  - apply toByte_ascii.
  - reflexivity.
  - intros k n m Hm. unfold toyEncrypt, toyTag.
    apply Forall_app. split; [exact Hm|].
    apply Forall_take_pad, Forall_toByte.
  - intros k n m _. unfold toyEncrypt, toyDecrypt.
    rewrite length_app, length_toyTag.
    replace (length m + tagLength - tagLength)%nat with (length m) by lia.
    rewrite drop_app_length, take_app_length.
    rewrite !bool_decide_eq_true_2 by (lia || reflexivity). reflexivity.
  - intros m. unfold toyDigest. apply Forall_take_pad, Forall_toByte.
Qed.

Lemma toyPlatform_laws : PlatformLaws toyPlatform.
Proof. exact (sizedPlatform_laws 16 32). Qed.

Lemma lightPlatform_laws : PlatformLaws lightPlatform.
Proof. exact (sizedPlatform_laws 1 1). Qed.

(** ** Typed arrays and the payload layout *)

Lemma bytesOfUint32_bytes v : Forall is_byte (bytesOfUint32 v).
Proof.
  unfold bytesOfUint32, is_byte.
  repeat constructor; apply Z.mod_pos_bound; lia.
Qed.

Lemma typedArraySet_length target source offset target' :
  0 <= offset ->
  typedArraySet target source offset = Returned target' ->
  length target' = length target.
Proof.
  intros Hoff. unfold typedArraySet.
  destruct (Z.ltb_spec (Z.of_nat (length target))
              (offset + Z.of_nat (length source))); [discriminate|].
  intros [= <-]. rewrite !length_app, length_take, length_drop. lia.
Qed.

Lemma setUint32_length buffer offset value buffer' :
  0 <= offset ->
  setUint32 buffer offset value = Returned buffer' ->
  length buffer' = length buffer.
Proof.
  intros Hoff. unfold setUint32. destruct (_ <? _); [discriminate|].
  apply typedArraySet_length. exact Hoff.
Qed.

Lemma typedArraySet_zeros pre source n :
  (length source <= n)%nat ->
  typedArraySet (pre ++ replicate n 0) source (Z.of_nat (length pre)) =
  Returned (pre ++ source ++ replicate (n - length source) 0).
Proof.
  intros Hn. unfold typedArraySet.
  rewrite length_app, length_replicate.
  destruct (Z.ltb_spec (Z.of_nat (length pre + n))
              (Z.of_nat (length pre) + Z.of_nat (length source))); [lia|].
  rewrite Nat2Z.id, take_app_length.
  rewrite <- drop_drop, drop_app_length, drop_replicate. reflexivity.
Qed.

Lemma setUint32_zeros pre value n :
  (4 <= n)%nat ->
  setUint32 (pre ++ replicate n 0) (Z.of_nat (length pre)) value =
  Returned (pre ++ bytesOfUint32 (value mod 2 ^ 32) ++ replicate (n - 4) 0).
Proof.
  intros Hn. unfold setUint32.
  rewrite length_app, length_replicate.
  destruct (Z.ltb_spec (Z.of_nat (length pre + n)) (Z.of_nat (length pre) + 4));
    [lia|].
  apply typedArraySet_zeros. cbn. lia.
Qed.

Lemma readAt_app_r pre post k :
  0 <= k ->
  readAt (pre ++ post) (Z.of_nat (length pre) + k) =
  default 0 (post !! Z.to_nat k).
Proof.
  intros Hk. unfold readAt.
  destruct (Z.ltb_spec (Z.of_nat (length pre) + k) 0); [lia|].
  rewrite lookup_app_r by lia. do 2 f_equal. lia.
Qed.

Lemma uint32_of_bytes v :
  0 <= v < 2 ^ 32 ->
  (v / 2 ^ 24 mod 256) * 2 ^ 24 + (v / 2 ^ 16 mod 256) * 2 ^ 16 +
  (v / 2 ^ 8 mod 256) * 2 ^ 8 + v mod 256 = v.
Proof.
  intros Hv.
  change (2 ^ 24) with 16777216. change (2 ^ 16) with 65536.
  change (2 ^ 8) with 256. change (2 ^ 32) with 4294967296 in Hv.
  Z.div_mod_to_equations. lia.
Qed.

Lemma getUint32_bytesOfUint32 pre v post :
  0 <= v < 2 ^ 32 ->
  getUint32 (pre ++ bytesOfUint32 v ++ post) (Z.of_nat (length pre)) = Returned v.
Proof.
  intros Hv. unfold getUint32.
  match goal with |- context [if ?c then _ else _] => destruct c eqn:Hc end.
  { apply Z.ltb_lt in Hc. rewrite !length_app in Hc. cbn in Hc. lia. }
  rewrite !readAt_app_r by lia. cbn. f_equal. apply uint32_of_bytes, Hv.
Qed.

Lemma slice_middle pre mid post :
  slice (pre ++ mid ++ post) (Z.of_nat (length pre))
    (Z.of_nat (length pre) + Z.of_nat (length mid)) = mid.
Proof.
  unfold slice. rewrite Nat2Z.id, drop_app_length.
  replace (Z.to_nat (Z.of_nat (length pre) + Z.of_nat (length mid) -
                     Z.of_nat (length pre))) with (length mid) by lia.
  apply take_app_length.
Qed.

(** Past the end of the buffer a slice is what is left of it. *)
Lemma slice_clamped arr start end_ :
  0 <= start -> Z.of_nat (length arr) <= end_ ->
  slice arr start end_ = drop (Z.to_nat start) arr.
Proof.
  intros Hs He. unfold slice. apply take_ge. rewrite length_drop. lia.
Qed.

Lemma typedArraySet_fill buffer pre source n offset :
  buffer = pre ++ replicate n 0 ->
  offset = Z.of_nat (length pre) ->
  (length source <= n)%nat ->
  typedArraySet buffer source offset =
  Returned ((pre ++ source) ++ replicate (n - length source) 0).
Proof.
  intros -> -> Hn. rewrite <- app_assoc. apply typedArraySet_zeros, Hn.
Qed.

Lemma setUint32_fill buffer pre value n offset :
  buffer = pre ++ replicate n 0 ->
  offset = Z.of_nat (length pre) ->
  (4 <= n)%nat ->
  setUint32 buffer offset value =
  Returned ((pre ++ bytesOfUint32 (value mod 2 ^ 32)) ++ replicate (n - 4) 0).
Proof.
  intros -> -> Hn. rewrite <- app_assoc. apply setUint32_zeros, Hn.
Qed.

Section Payload.
Context {P : Platform}.

(** The six fields, one after the other. *)
Lemma buildPayload_layout er :
  length (iv er) = 12%nat ->
  length (salt er) = 16%nat ->
  buildPayload er =
  Returned (bytesOfUint32 (Z.of_nat (length (encryptedData er)) mod 2 ^ 32) ++
            encryptedData er ++ iv er ++ salt er ++
            bytesOfUint32 (Z.of_nat (length (textEncode (hash er))) mod 2 ^ 32) ++
            textEncode (hash er)).
Proof.
  intros Hiv Hsalt. unfold buildPayload. cbv zeta.
  set (ct := encryptedData er). set (hb := textEncode (hash er)).
  set (c := length ct). set (h := length hb).
  match goal with |- context [setUint32 ?b ?o ?v] =>
    rewrite (setUint32_fill b [] v (36 + c + h) o)
      by (reflexivity || lia || (cbn [app]; f_equal; lia))
  end.
  match goal with |- context [typedArraySet ?b ct ?o] =>
    rewrite (typedArraySet_fill b _ ct _ o)
      by (reflexivity || (fold c; lia) || (rewrite length_app; cbn; lia))
  end.
  match goal with |- context [typedArraySet ?b (iv er) ?o] =>
    rewrite (typedArraySet_fill b _ (iv er) _ o)
      by (reflexivity || (fold c; lia) || (rewrite !length_app; fold c; cbn; lia))
  end.
  match goal with |- context [typedArraySet ?b (salt er) ?o] =>
    rewrite (typedArraySet_fill b _ (salt er) _ o)
      by (reflexivity || (fold c; lia) || (rewrite !length_app; fold c; cbn; lia))
  end.
  match goal with |- context [setUint32 ?b ?o ?v] =>
    rewrite (setUint32_fill b _ v _ o)
      by (reflexivity || (fold c; lia) || (rewrite !length_app; fold c; cbn; lia))
  end.
  match goal with |- context [typedArraySet ?b hb ?o] =>
    rewrite (typedArraySet_fill b _ hb _ o)
      by (reflexivity || (fold c h; lia) || (rewrite !length_app; fold c; cbn; lia))
  end.
  f_equal.
  match goal with |- context [replicate ?n 0] =>
    replace n with 0%nat by (subst c h; lia)
  end.
  cbn [replicate]. rewrite app_nil_r, <- !app_assoc. reflexivity.
Qed.

Lemma buildPayload_length er payload :
  buildPayload er = Returned payload ->
  Z.of_nat (length payload) =
    36 + Z.of_nat (length (encryptedData er)) +
    Z.of_nat (length (textEncode (hash er))).
Proof.
  unfold buildPayload. cbv zeta.
  repeat match goal with
         | |- context [match ?o with Returned _ => _ | Thrown _ => _ end] =>
             let H := fresh "Hstep" in destruct o eqn:H; [|discriminate]
         end.
  intros Hlast.
  repeat match goal with
         | H : typedArraySet _ _ _ = Returned _ |- _ =>
             apply typedArraySet_length in H; [|lia]
         | H : setUint32 _ _ _ = Returned _ |- _ =>
             apply setUint32_length in H; [|lia]
         end.
  rewrite length_replicate in *. lia.
Qed.

End Payload.

Lemma land_255 x : Z.land x 255 = x mod 256.
Proof. exact (Z.land_ones x 8 ltac:(lia)). Qed.

(** The header bytes, computed with [>>] and [&], are the big-endian bytes. *)
Lemma lengthHeader_bytes totalLength :
  0 <= totalLength < 2 ^ 32 ->
  lengthHeader totalLength = bytesOfUint32 totalLength.
Proof.
  intros HL. unfold lengthHeader, bytesOfUint32, toInt32. cbv zeta.
  rewrite !land_255, !Z.shiftr_div_pow2 by lia.
  change (2 ^ 24) with 16777216. change (2 ^ 16) with 65536.
  change (2 ^ 8) with 256. change (2 ^ 31) with 2147483648.
  change (2 ^ 32) with 4294967296 in *.
  f_equal; [|f_equal; [|f_equal; [|f_equal]]];
    Z.div_mod_to_equations; lia.
Qed.

Lemma getUint32_lengthHeader totalLength :
  0 <= totalLength < 2 ^ 32 ->
  getUint32 (lengthHeader totalLength) 0 = Returned totalLength.
Proof.
  intros HL. rewrite lengthHeader_bytes by exact HL.
  pose proof (getUint32_bytesOfUint32 [] totalLength [] HL) as H.
  rewrite app_nil_r in H. exact H.
Qed.

Section Parsing.
Context {P : Platform}.

Lemma parsePayload_layout ct nonce slt hb :
  Z.of_nat (length ct) < 2 ^ 32 ->
  Z.of_nat (length hb) < 2 ^ 32 ->
  length nonce = 12%nat ->
  length slt = 16%nat ->
  parsePayload (bytesOfUint32 (Z.of_nat (length ct)) ++ ct ++ nonce ++ slt ++
                bytesOfUint32 (Z.of_nat (length hb)) ++ hb) =
  Returned (ExtractionSuccess ct nonce slt (textDecode hb)).
Proof.
  intros Hc Hh Hn Hs. unfold parsePayload. cbv zeta.
  set (hdr := bytesOfUint32 (Z.of_nat (length ct))).
  set (hdr2 := bytesOfUint32 (Z.of_nat (length hb))).
  assert (E1 : getUint32 (hdr ++ ct ++ nonce ++ slt ++ hdr2 ++ hb) 0
               = Returned (Z.of_nat (length ct))).
  { apply (getUint32_bytesOfUint32 []). lia. }
  rewrite E1.
  assert (E2 : getUint32 (hdr ++ ct ++ nonce ++ slt ++ hdr2 ++ hb)
                 (0 + 4 + Z.of_nat (length ct) + 12 + 16)
               = Returned (Z.of_nat (length hb))).
  { replace (0 + 4 + Z.of_nat (length ct) + 12 + 16)
      with (Z.of_nat (length (hdr ++ ct ++ nonce ++ slt)))
      by (rewrite !length_app, Hn, Hs; cbn; lia).
    replace (hdr ++ ct ++ nonce ++ slt ++ hdr2 ++ hb)
      with ((hdr ++ ct ++ nonce ++ slt) ++ hdr2 ++ hb)
      by (rewrite <- !app_assoc; reflexivity).
    apply getUint32_bytesOfUint32. lia. }
  rewrite E2.
  assert (S1 : slice (hdr ++ ct ++ nonce ++ slt ++ hdr2 ++ hb) (0 + 4)
                 (0 + 4 + Z.of_nat (length ct)) = ct).
  { exact (slice_middle hdr ct _). }
  assert (S2 : slice (hdr ++ ct ++ nonce ++ slt ++ hdr2 ++ hb)
                 (0 + 4 + Z.of_nat (length ct))
                 (0 + 4 + Z.of_nat (length ct) + 12) = nonce).
  { pose proof (slice_middle (hdr ++ ct) nonce (slt ++ hdr2 ++ hb)) as H.
    rewrite <- !app_assoc, length_app, Hn in H.
    replace (0 + 4 + Z.of_nat (length ct))
      with (Z.of_nat (length hdr + length ct)) by (cbn; lia).
    exact H. }
  assert (S3 : slice (hdr ++ ct ++ nonce ++ slt ++ hdr2 ++ hb)
                 (0 + 4 + Z.of_nat (length ct) + 12)
                 (0 + 4 + Z.of_nat (length ct) + 12 + 16) = slt).
  { pose proof (slice_middle (hdr ++ ct ++ nonce) slt (hdr2 ++ hb)) as H.
    rewrite <- !app_assoc, !length_app, Hn, Hs in H.
    replace (0 + 4 + Z.of_nat (length ct) + 12)
      with (Z.of_nat (length hdr + (length ct + 12))) by (cbn; lia).
    exact H. }
  assert (S4 : slice (hdr ++ ct ++ nonce ++ slt ++ hdr2 ++ hb)
                 (0 + 4 + Z.of_nat (length ct) + 12 + 16 + 4)
                 (0 + 4 + Z.of_nat (length ct) + 12 + 16 + 4 +
                  Z.of_nat (length hb)) = hb).
  { pose proof (slice_middle (hdr ++ ct ++ nonce ++ slt ++ hdr2) hb []) as H.
    rewrite <- !app_assoc, !length_app, Hn, Hs, app_nil_r in H.
    replace (0 + 4 + Z.of_nat (length ct) + 12 + 16 + 4)
      with (Z.of_nat (length hdr + (length ct + (12 + (16 + length hdr2)))))
      by (cbn; lia).
    exact H. }
  rewrite S1, S2, S3, S4. reflexivity.
Qed.

(** A ciphertext length that overruns the buffer makes the second
    [getUint32] throw; a buffer shorter than four bytes makes the first. *)
Lemma parsePayload_overrun payload :
  (forall n, getUint32 payload 0 = Returned n ->
             Z.of_nat (length payload) - 4 < n) ->
  parsePayload payload = Thrown "Offset is outside the bounds of the DataView".
Proof.
  intros Hover. unfold parsePayload. cbv zeta.
  destruct (getUint32 payload 0) as [n|m] eqn:Hfirst.
  - specialize (Hover n eq_refl).
    unfold getUint32 at 1.
    destruct (Z.ltb_spec (Z.of_nat (length payload)) (0 + 4 + n + 12 + 16 + 4));
      [reflexivity | lia].
  - unfold getUint32 in Hfirst.
    destruct (_ <? _); [congruence | discriminate].
Qed.

End Parsing.

(** ** The length header *)

(** ** Writing and reading least-significant bits *)

Lemma embedBit_byte v bit :
  is_byte v -> bit = 0 \/ bit = 1 ->
  is_byte (clampUint8 (embedBit v bit)) /\
  clampUint8 (embedBit v bit) / 2 = v / 2 /\
  extractBit (clampUint8 (embedBit v bit)) = bit.
Proof.
  intros Hv Hbit.
  assert (H : forall b, is_byte b ->
            ((0 <=? clampUint8 (embedBit b bit)) &&
             (clampUint8 (embedBit b bit) <? 256) &&
             (clampUint8 (embedBit b bit) / 2 =? b / 2) &&
             (extractBit (clampUint8 (embedBit b bit)) =? bit)) = true).
  { apply byte_cases. destruct Hbit as [-> | ->]; vm_compute; reflexivity. }
  specialize (H v Hv).
  rewrite !andb_true_iff in H. destruct H as [[[H1 H2] H3] H4].
  unfold is_byte. lia.
Qed.

Lemma length_writeClamped arr index v :
  length (writeClamped arr index v) = length arr.
Proof.
  unfold writeClamped. destruct (index <? 0); [reflexivity|].
  apply length_insert.
Qed.

Lemma readAt_writeClamped_eq arr index v :
  0 <= index < Z.of_nat (length arr) ->
  readAt (writeClamped arr index v) index = clampUint8 v.
Proof.
  intros Hi. unfold readAt, writeClamped.
  destruct (Z.ltb_spec index 0); [lia|].
  rewrite list_lookup_insert_eq by lia. reflexivity.
Qed.

Lemma readAt_writeClamped_ne arr index index' v :
  index <> index' ->
  readAt (writeClamped arr index v) index' = readAt arr index'.
Proof.
  intros Hne. unfold readAt, writeClamped.
  destruct (Z.ltb_spec index' 0); [reflexivity|].
  destruct (Z.ltb_spec index 0); [reflexivity|].
  rewrite list_lookup_insert_ne by lia. reflexivity.
Qed.

Lemma readAt_lookup arr k v : arr !! k = Some v -> readAt arr (Z.of_nat k) = v.
Proof.
  intros Hk. unfold readAt.
  destruct (Z.ltb_spec (Z.of_nat k) 0); [lia|].
  rewrite Nat2Z.id, Hk. reflexivity.
Qed.

Lemma channel_not_alpha p i : (p * 4 + Z.of_nat i mod 3) mod 4 <> 3.
Proof.
  pose proof (Z.mod_pos_bound (Z.of_nat i) 3 ltac:(lia)).
  rewrite Z.add_comm, Z.mod_add, Z.mod_small by lia. lia.
Qed.

(** One round of the loop touches one colour channel, and there only the
    lowest bit. *)
Lemma embedOne_frame positions i bit pixels :
  Forall is_byte pixels -> bit = 0 \/ bit = 1 ->
  Forall is_byte (embedOne positions i bit pixels) /\
  length (embedOne positions i bit pixels) = length pixels /\
  forall k v, pixels !! k = Some v ->
    exists v', embedOne positions i bit pixels !! k = Some v' /\
      v' / 2 = v / 2 /\
      (Z.of_nat k mod 4 = 3 -> v' = v) /\
      ((forall p, positions !! i = Some p ->
                  Z.of_nat k <> p * 4 + Z.of_nat i mod 3) -> v' = v).
Proof.
  intros Hbytes Hbit. unfold embedOne, channelIndex.
  destruct (positions !! i) as [p|] eqn:Hp; cbv zeta;
    [|split; [assumption|]; split; [reflexivity|]; intros k v Hk; eauto].
  set (idx := p * 4 + Z.of_nat i mod 3).
  unfold writeClamped. destruct (Z.ltb_spec idx 0) as [Hneg | Hpos];
    [split; [assumption|]; split; [reflexivity|]; intros k v Hk; eauto|].
  destruct (pixels !! Z.to_nat idx) as [v0|] eqn:Hv0.
  - assert (Hread : readAt pixels idx = v0).
    { rewrite <- (Z2Nat.id idx) by lia. apply readAt_lookup, Hv0. }
    rewrite Hread.
    assert (Hb0 : is_byte v0).
    { rewrite Forall_forall in Hbytes. apply Hbytes.
      eapply list_elem_of_lookup_2, Hv0. }
    destruct (embedBit_byte v0 bit Hb0 Hbit) as (Hb & Hhigh & _).
    split; [apply Forall_insert; assumption|].
    split; [apply length_insert|].
    intros k v Hk. destruct (decide (k = Z.to_nat idx)) as [-> | Hne].
    + rewrite Hv0 in Hk. injection Hk as <-.
      exists (clampUint8 (embedBit v0 bit)).
      rewrite list_lookup_insert_eq by (eapply lookup_lt_Some, Hv0).
      split; [reflexivity|]. split; [exact Hhigh|]. split.
      * intros Halpha. exfalso. rewrite Z2Nat.id in Halpha by lia.
        exact (channel_not_alpha p i Halpha).
      * intros Hfree. exfalso. apply (Hfree p eq_refl).
        rewrite Z2Nat.id by lia. reflexivity.
    + exists v. rewrite list_lookup_insert_ne by congruence. auto.
  - apply lookup_ge_None in Hv0. rewrite list_insert_ge by exact Hv0.
    split; [assumption|]. split; [reflexivity|]. intros k v Hk. eauto.
Qed.

Lemma embedBits_frame positions bits :
  (forall b, b ∈ bits -> b = 0 \/ b = 1) ->
  forall i pixels,
    Forall is_byte pixels ->
    Forall is_byte (embedBits positions i bits pixels) /\
    length (embedBits positions i bits pixels) = length pixels /\
    forall k v, pixels !! k = Some v ->
      exists v', embedBits positions i bits pixels !! k = Some v' /\
        v' / 2 = v / 2 /\
        (Z.of_nat k mod 4 = 3 -> v' = v) /\
        ((forall j p, (i <= j < i + length bits)%nat ->
                      positions !! j = Some p ->
                      Z.of_nat k <> p * 4 + Z.of_nat j mod 3) -> v' = v).
Proof.
  induction bits as [|bit rest IH]; intros Hbits i pixels Hbytes.
  - cbn. split; [assumption|]. split; [reflexivity|]. intros k v Hk. eauto.
  - cbn [embedBits].
    destruct (embedOne_frame positions i bit pixels Hbytes) as (Hb1 & Hl1 & Hf1).
    { apply Hbits. left. }
    destruct (IH (fun b Hb => Hbits b (list_elem_of_further _ _ _ Hb))
                (S i) _ Hb1) as (Hb2 & Hl2 & Hf2).
    split; [exact Hb2|]. split; [congruence|].
    intros k v Hk.
    destruct (Hf1 k v Hk) as (v1 & Hk1 & Hh1 & Ha1 & Hu1).
    destruct (Hf2 k v1 Hk1) as (v2 & Hk2 & Hh2 & Ha2 & Hu2).
    exists v2. split; [exact Hk2|]. split; [congruence|]. split.
    + intros Halpha. rewrite Ha2, Ha1 by assumption. reflexivity.
    + intros Hfree. rewrite Hu2, Hu1; [reflexivity| |].
      * intros p Hp. apply (Hfree i p); [cbn [length]; lia | exact Hp].
      * intros j p Hj Hp. apply (Hfree j p); [cbn [length]; lia | exact Hp].
Qed.

Section Embedding.
Context {P : Platform}.

(** What a successful [embedDataInImage] did. *)
Lemma embedDataInImage_success fuel image er password image' stats :
  embedDataInImage fuel image er password = Some (StegoSuccess image' stats) ->
  exists payload positions,
    buildPayload er = Returned payload /\
    generatePixelPositions fuel (width image) (height image)
      (Z.of_nat (length payload)) password = Some (Returned positions) /\
    image' = {| width := width image; height := height image;
                pixels := embedBits positions 0
                            (dataToBits (lengthHeader (Z.of_nat (length payload))) ++
                             dataToBits payload) (pixels image) |}.
Proof.
  unfold embedDataInImage, embedBody, liftO, obind.
  destruct (buildPayload er) as [payload|m] eqn:Hbuild; [|discriminate].
  destruct (generatePixelPositions _ _ _ _ _) as [[positions|m]|] eqn:Hgen;
    [|discriminate|discriminate].
  cbv zeta. intros [= <- _].
  exists payload, positions. repeat split; [exact Hgen].
Qed.

(** With more bits than three per pixel, embedding fails before the loop
    that writes pixels is reached. *)
Lemma embed_too_small fuel image er password payload :
  buildPayload er = Returned payload ->
  width image * height image * 3 < 32 + Z.of_nat (length payload) * 8 ->
  embedDataInImage fuel image er password =
    Some (StegoFailure "Image too small for data payload").
Proof.
  intros Hbuild Hcap. unfold embedDataInImage, embedBody.
  rewrite Hbuild. cbn [obind liftO]. cbv zeta.
  unfold generatePixelPositions. cbv zeta.
  destruct (Z.gtb_spec (32 + Z.of_nat (length payload) * 8)
              (width image * height image * 3)); [reflexivity | lia].
Qed.

(** With more bits than pixels, but no more than three per pixel, it never
    returns (on an image whose pixels fit in a set). *)
Lemma embed_hangs fuel image er password payload :
  buildPayload er = Returned payload ->
  width image * height image < 32 + Z.of_nat (length payload) * 8
    <= width image * height image * 3 ->
  width image * height image <= setMaxSize ->
  embedDataInImage fuel image er password = None.
Proof.
  intros Hbuild Hcap Hset. unfold embedDataInImage, embedBody.
  rewrite Hbuild. cbn [obind liftO]. cbv zeta.
  rewrite generatePixelPositions_at_most_pixels by assumption. reflexivity.
Qed.

(** With more bits than a set holds, on an image of more pixels than that,
    it reports the exception of the set. *)
Lemma embed_set_full image er password payload :
  buildPayload er = Returned payload ->
  setMaxSize < 32 + Z.of_nat (length payload) * 8
    <= width image * height image * 3 ->
  setMaxSize < width image * height image ->
  exists fuel,
    embedDataInImage fuel image er password =
      Some (StegoFailure "Set maximum size exceeded").
Proof.
  intros Hbuild Hcap Hset.
  destruct (generatePixelPositions_throws (width image) (height image)
              (Z.of_nat (length payload)) password Hcap Hset) as (fuel & Hrun).
  exists fuel. unfold embedDataInImage, embedBody.
  rewrite Hbuild. cbn [obind liftO]. cbv zeta.
  rewrite Hrun. reflexivity.
Qed.

(** C7. A successful embedding leaves the dimensions and the size of the
    buffer alone; every channel keeps its upper seven bits; alpha channels
    (index 3 modulo 4) keep their value; and so does every channel that is
    not the colour channel [i mod 3] of a scheduled pixel [positions[i]]. *)
Theorem C7_embed_frame fuel image er password image' stats :
  Forall is_byte (pixels image) ->
  embedDataInImage fuel image er password = Some (StegoSuccess image' stats) ->
  exists payload positions,
    buildPayload er = Returned payload /\
    generatePixelPositions fuel (width image) (height image)
      (Z.of_nat (length payload)) password = Some (Returned positions) /\
    width image' = width image /\ height image' = height image /\
    length (pixels image') = length (pixels image) /\
    forall k v, pixels image !! k = Some v ->
      exists v', pixels image' !! k = Some v' /\
        v' / 2 = v / 2 /\
        (Z.of_nat k mod 4 = 3 -> v' = v) /\
        ((forall i p, positions !! i = Some p ->
                      Z.of_nat k <> p * 4 + Z.of_nat i mod 3) -> v' = v).
Proof.
  intros Hbytes (payload & positions & Hbuild & Hgen & ->)%embedDataInImage_success.
  exists payload, positions. cbn [width height pixels].
  split; [exact Hbuild|]. split; [exact Hgen|].
  split; [reflexivity|]. split; [reflexivity|].
  set (bits := dataToBits _ ++ dataToBits payload).
  destruct (embedBits_frame positions bits) with (i := 0%nat) (pixels := pixels image)
    as (_ & Hlen & Hframe); [|exact Hbytes|].
  { intros b [Hb | Hb]%elem_of_app; eapply dataToBits_bit; eassumption. }
  split; [exact Hlen|].
  intros k v Hk. destruct (Hframe k v Hk) as (v' & Hk' & Hhigh & Halpha & Hfree).
  exists v'. repeat split; try assumption.
  intros Hunsched. apply Hfree. intros j p _ Hp. exact (Hunsched j p Hp).
Qed.

End Embedding.

(** ** Reading back what was embedded *)

Lemma readAt_embedOne_ne positions i bit pixels idx :
  channelIndex positions i <> Some idx ->
  readAt (embedOne positions i bit pixels) idx = readAt pixels idx.
Proof.
  intros Hne. unfold embedOne.
  destruct (channelIndex positions i) as [k|]; [|reflexivity].
  apply readAt_writeClamped_ne. congruence.
Qed.

Lemma readAt_embedBits_ne positions bits idx :
  forall i pixels,
    (forall j, (i <= j < i + length bits)%nat ->
               channelIndex positions j <> Some idx) ->
    readAt (embedBits positions i bits pixels) idx = readAt pixels idx.
Proof.
  induction bits as [|bit rest IH]; intros i pixels Hne; [reflexivity|].
  cbn [embedBits]. rewrite IH.
  - apply readAt_embedOne_ne, Hne. cbn [length]. lia.
  - intros j Hj. apply Hne. cbn [length]. lia.
Qed.

Lemma channelIndex_inj positions i j idx :
  NoDup positions ->
  channelIndex positions i = Some idx ->
  channelIndex positions j = Some idx ->
  i = j.
Proof.
  intros Hnd. unfold channelIndex.
  destruct (positions !! i) as [p|] eqn:Hp; [|discriminate].
  destruct (positions !! j) as [q|] eqn:Hq; [|discriminate].
  cbv zeta. intros [= <-] [= Heq].
  pose proof (Z.mod_pos_bound (Z.of_nat i) 3 ltac:(lia)).
  pose proof (Z.mod_pos_bound (Z.of_nat j) 3 ltac:(lia)).
  assert (p = q) by lia. subst q.
  eapply NoDup_lookup; eassumption.
Qed.

Lemma extractBit_embedOne positions i bit pixels idx :
  channelIndex positions i = Some idx ->
  0 <= idx < Z.of_nat (length pixels) ->
  Forall is_byte pixels -> bit = 0 \/ bit = 1 ->
  extractBit (readAt (embedOne positions i bit pixels) idx) = bit.
Proof.
  intros Hidx Hrange Hbytes Hbit. unfold embedOne. rewrite Hidx.
  rewrite readAt_writeClamped_eq by exact Hrange.
  apply embedBit_byte; [|exact Hbit].
  destruct (lookup_lt_is_Some_2 pixels (Z.to_nat idx) ltac:(lia)) as [v Hv].
  rewrite <- (Z2Nat.id idx) by lia. rewrite (readAt_lookup _ _ _ Hv).
  rewrite Forall_forall in Hbytes. apply Hbytes.
  eapply list_elem_of_lookup_2, Hv.
Qed.

Section ReadBack.

Variable positions : list Z.
Hypothesis positions_NoDup : NoDup positions.

(** Bit [n] of the embedded sequence is what is read at position [i + n]. *)
Lemma readOne_embedBits bits :
  (forall b, b ∈ bits -> b = 0 \/ b = 1) ->
  forall n b i pixels,
    Forall is_byte pixels ->
    (forall j idx, channelIndex positions j = Some idx ->
                   0 <= idx < Z.of_nat (length pixels)) ->
    (i + length bits <= length positions)%nat ->
    bits !! n = Some b ->
    readOne positions (embedBits positions i bits pixels) (i + n) = b.
Proof.
  induction bits as [|bit rest IH]; intros Hbits n b i pixels Hbytes Hrange Hlen Hn;
    [inversion Hn|].
  cbn [embedBits].
  destruct (embedOne_frame positions i bit pixels Hbytes) as (Hb1 & Hl1 & _).
  { apply Hbits. left. }
  cbn [length] in Hlen.
  destruct n as [|n]; cbn in Hn.
  - injection Hn as ->. rewrite Nat.add_0_r. unfold readOne.
    destruct (lookup_lt_is_Some_2 positions i ltac:(lia)) as [p Hp].
    assert (Hidx : channelIndex positions i = Some (p * 4 + Z.of_nat i mod 3)).
    { unfold channelIndex. rewrite Hp. reflexivity. }
    rewrite Hidx. rewrite readAt_embedBits_ne.
    + apply extractBit_embedOne; [exact Hidx | eapply Hrange, Hidx | exact Hbytes |].
      apply Hbits. left.
    + intros j Hj Hsame.
      pose proof (channelIndex_inj _ _ _ _ positions_NoDup Hsame Hidx). lia.
  - replace (i + S n)%nat with (S i + n)%nat by lia.
    apply IH; auto.
    + intros b' Hb'. apply Hbits. right. exact Hb'.
    + rewrite Hl1. exact Hrange.
    + lia.
Qed.

Lemma readBits_embedBits bits pixels from count :
  (forall b, b ∈ bits -> b = 0 \/ b = 1) ->
  Forall is_byte pixels ->
  (forall j idx, channelIndex positions j = Some idx ->
                 0 <= idx < Z.of_nat (length pixels)) ->
  (length bits <= length positions)%nat ->
  (from + count <= length bits)%nat ->
  readBits positions (embedBits positions 0 bits pixels) from count =
  take count (drop from bits).
Proof.
  intros Hbits Hbytes Hrange Hlen Hcount. unfold readBits.
  apply list_eq_same_length with (n := count).
  - rewrite length_take, length_drop. lia.
  - rewrite length_map, length_seq. reflexivity.
  - intros k x y Hk Hx Hy.
    rewrite list_lookup_fmap, lookup_seq_lt in Hx by exact Hk.
    cbn in Hx. injection Hx as <-.
    rewrite lookup_take_lt, lookup_drop in Hy by exact Hk.
    exact (readOne_embedBits bits Hbits _ _ 0%nat pixels Hbytes Hrange
             ltac:(lia) Hy).
Qed.

End ReadBack.

(** ** Schedules that share no channel *)

Lemma channelIndex_channelsOf positions i :
  channelIndex positions i = channelsOf positions !! i.
Proof.
  unfold channelIndex, channelsOf. rewrite list_lookup_imap.
  destruct (positions !! i); reflexivity.
Qed.

Lemma channelsApart_sound positions1 positions2 i j idx :
  channelsApart positions1 positions2 = true ->
  channelIndex positions1 i = Some idx ->
  channelIndex positions2 j = Some idx ->
  False.
Proof.
  unfold channelsApart. cbv zeta.
  rewrite forallb_forall, !channelIndex_channelsOf.
  intros Hall H1 H2.
  specialize (Hall idx). rewrite negb_true_iff in Hall.
  assert (Hex : existsb (Z.eqb idx) (channelsOf positions1) = true).
  { apply existsb_exists. exists idx. split; [|apply Z.eqb_refl].
    apply list_elem_of_In. eapply list_elem_of_lookup_2, H1. }
  rewrite Hall in Hex; [discriminate|].
  apply list_elem_of_In. eapply list_elem_of_lookup_2, H2.
Qed.

(** An embedding along one schedule is invisible along a schedule whose
    channels it does not share. *)
Lemma readBits_embedBits_apart positions1 positions2 bits pixels from count :
  channelsApart positions1 positions2 = true ->
  readBits positions2 (embedBits positions1 0 bits pixels) from count =
  readBits positions2 pixels from count.
Proof.
  intros Hapart. unfold readBits. apply map_ext_in. intros j _.
  unfold readOne.
  destruct (channelIndex positions2 j) as [idx|] eqn:Hidx; [|reflexivity].
  rewrite readAt_embedBits_ne; [reflexivity|].
  intros i _ Hsame. exact (channelsApart_sound _ _ _ _ _ Hapart Hsame Hidx).
Qed.

(** ** Extraction from an image that carries a payload *)

Lemma readBits_take positions pixels n count :
  (count <= n)%nat ->
  readBits (take n positions) pixels 0 count = readBits positions pixels 0 count.
Proof.
  intros Hn. unfold readBits. apply map_ext_in.
  intros i Hi%in_seq. unfold readOne, channelIndex.
  rewrite lookup_take_lt by lia. reflexivity.
Qed.

Lemma readBits_app positions pixels from a b :
  readBits positions pixels from (a + b) =
  readBits positions pixels from a ++ readBits positions pixels (from + a) b.
Proof. unfold readBits. rewrite seq_app, map_app. reflexivity. Qed.

Lemma length_readBits positions pixels from count :
  length (readBits positions pixels from count) = count.
Proof. unfold readBits. rewrite length_map, length_seq. reflexivity. Qed.

Section Extraction.
Context {P : Platform}.

(** If the scheduled channels of an image hold the header bits followed by
    the bits of a buffer, extraction is the deserialization of that
    buffer. *)
Lemma extract_reads fuel image password payload positions :
  Forall is_byte payload ->
  (4 <= length payload)%nat ->
  generatePixelPositions fuel (width image) (height image)
    (Z.of_nat (length payload)) password = Some (Returned positions) ->
  readBits positions (pixels image) 0 (32 + 8 * length payload) =
    dataToBits (lengthHeader (Z.of_nat (length payload))) ++ dataToBits payload ->
  extractDataFromImage fuel image password =
    Some (match parsePayload payload with
          | Returned r => r
          | Thrown m => ExtractionFailure m
          end).
Proof.
  intros Hbytes Hlen4 Hgen Hreads.
  pose proof (generatePixelPositions_at_most_states _ _ _ _ _ _ Hgen) as Hsmall.
  assert (HL : 0 <= Z.of_nat (length payload) < 2 ^ 32) by lia.
  rewrite readBits_app in Hreads.
  apply app_inj_1 in Hreads as [Hhead Hbody];
    [|rewrite length_readBits, length_dataToBits; reflexivity].
  assert (H4 : 4 <= Z.of_nat (length payload)) by lia.
  destruct (generatePixelPositions_header _ _ _ _ _ _ H4 Hgen)
    as (header & Hheader & Htake).
  unfold extractDataFromImage, extractBody. rewrite Hheader. cbn [obind liftO].
  rewrite Htake, readBits_take by lia. rewrite Hhead.
  rewrite bitsToData_dataToBits
    by (rewrite lengthHeader_bytes by exact HL; apply bytesOfUint32_bytes).
  rewrite getUint32_lengthHeader by exact HL. cbv zeta.
  rewrite Hgen.
  replace (Z.to_nat (Z.of_nat (length payload) * 8))
    with (8 * length payload)%nat by lia.
  cbn [obind liftO].
  change (0 + 32)%nat with 32%nat in Hbody. rewrite Hbody.
  rewrite bitsToData_dataToBits by exact Hbytes.
  destruct (parsePayload payload); reflexivity.
Qed.

Lemma extract_of_reads fuel image password ct nonce slt hb payload positions :
  payload = bytesOfUint32 (Z.of_nat (length ct)) ++ ct ++ nonce ++ slt ++
            bytesOfUint32 (Z.of_nat (length hb)) ++ hb ->
  Forall is_byte ct -> Forall is_byte nonce -> Forall is_byte slt ->
  Forall is_byte hb ->
  length nonce = 12%nat -> length slt = 16%nat ->
  generatePixelPositions fuel (width image) (height image)
    (Z.of_nat (length payload)) password = Some (Returned positions) ->
  readBits positions (pixels image) 0 (32 + 8 * length payload) =
    dataToBits (lengthHeader (Z.of_nat (length payload))) ++ dataToBits payload ->
  extractDataFromImage fuel image password =
    Some (ExtractionSuccess ct nonce slt (textDecode hb)).
Proof.
  intros Hpayload Hct Hnonce Hslt Hhb Hn12 Hs16 Hgen Hreads.
  assert (Hlen : length payload = (36 + length ct + length hb)%nat).
  { rewrite Hpayload, !length_app, Hn12, Hs16. cbn. lia. }
  pose proof (generatePixelPositions_at_most_states _ _ _ _ _ _ Hgen) as Hsmall.
  assert (Hbytes : Forall is_byte payload).
  { rewrite Hpayload. repeat (apply Forall_app; split);
      auto using bytesOfUint32_bytes. }
  rewrite (extract_reads fuel image password payload positions Hbytes
             ltac:(lia) Hgen Hreads).
  rewrite Hpayload, parsePayload_layout by (assumption || lia).
  reflexivity.
Qed.

Lemma allBits_bits payload b :
  b ∈ dataToBits (lengthHeader (Z.of_nat (length payload))) ++ dataToBits payload ->
  b = 0 \/ b = 1.
Proof. intros [Hb | Hb]%elem_of_app; eapply dataToBits_bit; eassumption. Qed.

Lemma length_allBits payload :
  length (dataToBits (lengthHeader (Z.of_nat (length payload))) ++
          dataToBits payload) = (32 + 8 * length payload)%nat.
Proof. rewrite length_app, !length_dataToBits. reflexivity. Qed.

(** Along its own schedule an embedding reads back as written. *)
Lemma readBits_scheduled fuel image n password positions bits :
  wf_image image ->
  generatePixelPositions fuel (width image) (height image) n password =
    Some (Returned positions) ->
  (forall b, b ∈ bits -> b = 0 \/ b = 1) ->
  Z.of_nat (length bits) = 32 + n * 8 ->
  readBits positions (embedBits positions 0 bits (pixels image)) 0 (length bits)
  = bits.
Proof.
  intros (Hw & Hh & Hsize & Hpix) Hgen Hbits Hlen.
  destruct (generatePixelPositions_returned _ _ _ _ _ _ Hgen)
    as (_ & Hcount & Hnd & _ & Hin).
  rewrite (readBits_embedBits positions Hnd bits (pixels image)); auto.
  - rewrite drop_0. apply take_ge. lia.
  - intros j idx. unfold channelIndex.
    destruct (positions !! j) as [p|] eqn:Hp; [|discriminate].
    cbv zeta. intros [= <-].
    pose proof (Hin p (list_elem_of_lookup_2 _ _ _ Hp)).
    pose proof (Z.mod_pos_bound (Z.of_nat j) 3 ltac:(lia)). lia.
  - lia.
Qed.

Context {HL : PlatformLaws P}.

Lemma payload_of_envelope er payload :
  length (iv er) = 12%nat -> length (salt er) = 16%nat ->
  buildPayload er = Returned payload ->
  Z.of_nat (length payload) < 2 ^ 32 ->
  payload = bytesOfUint32 (Z.of_nat (length (encryptedData er))) ++
            encryptedData er ++ iv er ++ salt er ++
            bytesOfUint32 (Z.of_nat (length (textEncode (hash er)))) ++
            textEncode (hash er).
Proof.
  intros Hn12 Hs16 Hbuild Hsmall.
  pose proof (buildPayload_length _ _ Hbuild) as Hlen.
  rewrite buildPayload_layout in Hbuild by assumption.
  rewrite !Z.mod_small in Hbuild by lia. congruence.
Qed.

Lemma readBits_allBits fuel image payload password positions :
  wf_image image ->
  generatePixelPositions fuel (width image) (height image)
    (Z.of_nat (length payload)) password = Some (Returned positions) ->
  readBits positions
    (embedBits positions 0
       (dataToBits (lengthHeader (Z.of_nat (length payload))) ++
        dataToBits payload) (pixels image))
    0 (32 + 8 * length payload) =
  dataToBits (lengthHeader (Z.of_nat (length payload))) ++ dataToBits payload.
Proof.
  intros Hwf Hgen.
  pose proof (readBits_scheduled fuel image _ password positions _ Hwf Hgen
                (allBits_bits payload)) as H.
  rewrite length_allBits in H. apply H. lia.
Qed.

(** The header that extraction reads back from the image that embedding
    made: the 32 bits at the first 32 positions of the 4-byte scheduling
    call, as a big-endian integer, are the payload length. *)
Lemma embedded_header fuel image er password image' stats :
  wf_image image ->
  embedDataInImage fuel image er password = Some (StegoSuccess image' stats) ->
  exists header,
    generatePixelPositions fuel (width image') (height image') 4 password =
      Some (Returned header) /\
    getUint32
      (bitsToData (readBits (take 32 header) (pixels image') 0 32)) 0 =
    Returned (36 + Z.of_nat (length (encryptedData er)) +
              Z.of_nat (length (textEncode (hash er)))).
Proof.
  intros Hwf (payload & positions & Hbuild & Hgen & ->)%embedDataInImage_success.
  cbn [width height pixels].
  pose proof (buildPayload_length er payload Hbuild) as Hlen.
  pose proof (generatePixelPositions_at_most_states _ _ _ _ _ _ Hgen) as Hsmall.
  assert (Hrange : 0 <= Z.of_nat (length payload) < 2 ^ 32) by lia.
  assert (H4 : 4 <= Z.of_nat (length payload)) by lia.
  destruct (generatePixelPositions_header _ _ _ _ _ _ H4 Hgen)
    as (header & Hheader & Htake).
  exists header. split; [exact Hheader|].
  pose proof (readBits_allBits fuel image payload password positions Hwf Hgen)
    as Hreads.
  rewrite readBits_app in Hreads.
  apply app_inj_1 in Hreads as [Hhead _];
    [|rewrite length_readBits, length_dataToBits; reflexivity].
  rewrite Htake, readBits_take by lia. rewrite Hhead.
  rewrite bitsToData_dataToBits
    by (rewrite lengthHeader_bytes by exact Hrange; apply bytesOfUint32_bytes).
  rewrite getUint32_lengthHeader by exact Hrange.
  rewrite Hlen. reflexivity.
Qed.

(** Any buffer can be planted in a cover with a pixel per bit: the
    scheduled channels of the image then hold the header bits and the bits
    of the buffer. *)
Lemma carrier_reads cover payload password :
  wf_image cover ->
  32 + Z.of_nat (length payload) * 8 <= width cover * height cover ->
  32 + Z.of_nat (length payload) * 8 <= setMaxSize ->
  exists fuel image positions,
    wf_image image /\
    width image = width cover /\ height image = height cover /\
    generatePixelPositions fuel (width image) (height image)
      (Z.of_nat (length payload)) password = Some (Returned positions) /\
    readBits positions (pixels image) 0 (32 + 8 * length payload) =
      dataToBits (lengthHeader (Z.of_nat (length payload))) ++
      dataToBits payload.
Proof.
  intros Hwf Hcap Hset.
  destruct (generatePixelPositions_terminates (width cover) (height cover)
              (Z.of_nat (length payload)) password ltac:(lia) Hcap Hset)
    as (fuel & positions & Hgen).
  pose (bits := dataToBits (lengthHeader (Z.of_nat (length payload))) ++
                dataToBits payload).
  exists fuel,
    {| width := width cover; height := height cover;
       pixels := embedBits positions 0 bits (pixels cover) |}, positions.
  pose proof Hwf as (Hw & Hh & Hsize & Hpix).
  destruct (embedBits_frame positions bits (allBits_bits payload) 0%nat
              (pixels cover) Hpix) as (Hpix' & Hlen' & _).
  cbn [width height pixels].
  split; [unfold wf_image; cbn [width height pixels]; rewrite Hlen'; auto|].
  split; [reflexivity|]. split; [reflexivity|]. split; [exact Hgen|].
  exact (readBits_allBits fuel cover payload password positions Hwf Hgen).
Qed.

(** Extraction from such an image deserializes the buffer. *)
Lemma carrier_of_payload cover payload password :
  wf_image cover ->
  Forall is_byte payload ->
  (4 <= length payload)%nat ->
  32 + Z.of_nat (length payload) * 8 <= width cover * height cover ->
  32 + Z.of_nat (length payload) * 8 <= setMaxSize ->
  exists fuel image,
    wf_image image /\
    extractDataFromImage fuel image password =
      Some (match parsePayload payload with
            | Returned r => r
            | Thrown m => ExtractionFailure m
            end).
Proof.
  intros Hwf Hbytes Hlen4 Hcap Hset.
  destruct (carrier_reads cover payload password Hwf Hcap Hset)
    as (fuel & image & positions & Hwf' & _ & _ & Hgen & Hreads).
  exists fuel, image. split; [exact Hwf'|].
  exact (extract_reads fuel image password payload positions Hbytes Hlen4
           Hgen Hreads).
Qed.

(** What [extractDataFromImage] finds in the image [embedDataInImage] made. *)
Lemma extract_embed fuel image er password image' stats :
  wf_image image ->
  Forall is_byte (encryptedData er) ->
  Forall is_byte (iv er) -> Forall is_byte (salt er) ->
  length (iv er) = 12%nat -> length (salt er) = 16%nat ->
  embedDataInImage fuel image er password = Some (StegoSuccess image' stats) ->
  extractDataFromImage fuel image' password =
    Some (ExtractionSuccess (encryptedData er) (iv er) (salt er)
            (textDecode (textEncode (hash er)))).
Proof.
  intros Hwf Hct Hiv Hsalt Hn12 Hs16
         (payload & positions & Hbuild & Hgen & ->)%embedDataInImage_success.
  pose proof (generatePixelPositions_at_most_states _ _ _ _ _ _ Hgen) as Hsmall.
  pose proof (payload_of_envelope er payload Hn12 Hs16 Hbuild ltac:(lia))
    as Hpayload.
  eapply extract_of_reads with (payload := payload) (positions := positions);
    try eassumption.
  - apply textEncode_bytes.
  - cbn [width height pixels].
    exact (readBits_allBits fuel image payload password positions Hwf Hgen).
Qed.

(** A payload already present in the cover survives an embedding under
    another password whose schedule does not share a channel with it, and
    is what extraction with the first password finds. *)
Lemma extract_stale fuel blank er1 er2 password1 password2
    cover stats0 image stats payload1 payload2 positions1 positions2 :
  wf_image blank ->
  Forall is_byte (encryptedData er2) ->
  Forall is_byte (iv er2) -> Forall is_byte (salt er2) ->
  length (iv er2) = 12%nat -> length (salt er2) = 16%nat ->
  buildPayload er1 = Returned payload1 ->
  buildPayload er2 = Returned payload2 ->
  generatePixelPositions fuel (width blank) (height blank)
    (Z.of_nat (length payload1)) password1 = Some (Returned positions1) ->
  generatePixelPositions fuel (width blank) (height blank)
    (Z.of_nat (length payload2)) password2 = Some (Returned positions2) ->
  channelsApart positions1 positions2 = true ->
  embedDataInImage fuel blank er2 password2 = Some (StegoSuccess cover stats0) ->
  embedDataInImage fuel cover er1 password1 = Some (StegoSuccess image stats) ->
  extractDataFromImage fuel image password2 =
    Some (ExtractionSuccess (encryptedData er2) (iv er2) (salt er2)
            (textDecode (textEncode (hash er2)))).
Proof.
  intros Hwf Hct Hiv Hsalt Hn12 Hs16 Hb1 Hb2 Hg1 Hg2 Hapart Hcover Himage.
  apply embedDataInImage_success in Hcover
    as (payload2' & positions2' & Hb2' & Hg2' & ->).
  apply embedDataInImage_success in Himage
    as (payload1' & positions1' & Hb1' & Hg1' & ->).
  cbn [width height pixels] in *.
  assert (payload1' = payload1) by congruence. subst payload1'.
  assert (payload2' = payload2) by congruence. subst payload2'.
  assert (positions1' = positions1) by congruence. subst positions1'.
  assert (positions2' = positions2) by congruence. subst positions2'.
  pose proof (generatePixelPositions_at_most_states _ _ _ _ _ _ Hg2) as Hsmall.
  pose proof (payload_of_envelope er2 payload2 Hn12 Hs16 Hb2 ltac:(lia))
    as Hpayload.
  eapply extract_of_reads with (payload := payload2) (positions := positions2);
    try eassumption.
  - apply textEncode_bytes.
  - cbn [width height pixels].
    rewrite readBits_embedBits_apart by exact Hapart.
    exact (readBits_allBits fuel blank payload2 password2 positions2 Hwf Hg2).
Qed.

End Extraction.

(** ** The round trip *)

Section RoundTrip.
Context {P : Platform} {HL : PlatformLaws P}.

Lemma hexByte_ascii b : is_byte b -> Forall (fun c => 0 <= c < 128) (hexByte b).
Proof.
  intros Hb.
  assert (H : forall b, is_byte b ->
            forallb (fun c => (0 <=? c) && (c <? 128)) (hexByte b) = true).
  { apply byte_cases. vm_compute. reflexivity. }
  specialize (H b Hb). rewrite forallb_forall in H.
  apply Forall_forall. intros c Hc%list_elem_of_In%H. lia.
Qed.

Lemma generateHash_ascii message :
  Forall (fun c => 0 <= c < 128) (generateHash message).
Proof.
  unfold generateHash.
  pose proof (sha256_bytes (textEncode message)) as Hbytes.
  induction Hbytes as [|b l Hb _ IH]; cbn [flat_map]; [constructor|].
  apply Forall_app. split; [apply hexByte_ascii, Hb | exact IH].
Qed.

Lemma generateHash_codec message :
  textEncode (generateHash message) = generateHash message /\
  textDecode (generateHash message) = generateHash message.
Proof.
  split; [apply textEncode_ascii | apply textDecode_ascii];
    apply generateHash_ascii.
Qed.

(** Decrypting an envelope of [encryptMessage] with the same password. *)
Lemma decrypt_encrypt message password randomSalt randomIv :
  textDecode (textEncode message) = message ->
  let er := encryptMessage message password randomSalt randomIv in
  decryptMessage (encryptedData er) (iv er) (salt er) password
    (textDecode (textEncode (hash er))) =
  {| decryptedMessage := message; isValid := true;
     actualHash := generateHash message |}.
Proof.
  intros Htext. cbn. unfold decryptMessage.
  rewrite aesGcmDecrypt_encrypt by apply textEncode_bytes.
  rewrite Htext.
  destruct (generateHash_codec message) as [-> ->].
  rewrite bool_decide_eq_true_2 by reflexivity. reflexivity.
Qed.

(** With a pixel for every bit, and no more bits than a set holds,
    embedding returns an image. *)
Lemma embed_returns image er password :
  length (iv er) = 12%nat -> length (salt er) = 16%nat ->
  32 + 8 * (36 + Z.of_nat (length (encryptedData er)) +
            Z.of_nat (length (textEncode (hash er))))
    <= width image * height image /\
  32 + 8 * (36 + Z.of_nat (length (encryptedData er)) +
            Z.of_nat (length (textEncode (hash er))))
    <= setMaxSize ->
  exists fuel image' stats,
    embedDataInImage fuel image er password = Some (StegoSuccess image' stats).
Proof.
  intros Hn12 Hs16 [Hcap Hset].
  pose proof (buildPayload_layout er Hn12 Hs16) as Hbuild.
  pose proof (buildPayload_length er _ Hbuild) as Hlen.
  destruct (generatePixelPositions_terminates (width image) (height image)
              (36 + Z.of_nat (length (encryptedData er)) +
               Z.of_nat (length (textEncode (hash er)))) password)
    as (fuel & positions & Hgen); [lia | lia | lia |].
  exists fuel. unfold embedDataInImage, embedBody.
  rewrite Hbuild. cbn [obind liftO]. cbv zeta.
  rewrite Hlen, Hgen. cbn [obind]. eauto.
Qed.

(** Within one bit per pixel and the size of a set, the round trip: for
    every message that the text codec round-trips (the empty one included),
    every password, every fresh salt and nonce, embedding returns an image,
    extraction from it with the same password returns the envelope, and
    decryption returns the message with verified status true. *)
Lemma round_trip message password randomSalt randomIv image :
  textDecode (textEncode message) = message ->
  Forall is_byte randomSalt -> length randomSalt = 16%nat ->
  Forall is_byte randomIv -> length randomIv = 12%nat ->
  wf_image image ->
  let er := encryptMessage message password randomSalt randomIv in
  32 + 8 * (36 + Z.of_nat (length (encryptedData er)) +
            Z.of_nat (length (textEncode (hash er))))
    <= width image * height image /\
  32 + 8 * (36 + Z.of_nat (length (encryptedData er)) +
            Z.of_nat (length (textEncode (hash er))))
    <= setMaxSize ->
  exists fuel image' stats,
    embedDataInImage fuel image er password = Some (StegoSuccess image' stats) /\
    exists ct nonce slt h,
      extractDataFromImage fuel image' password =
        Some (ExtractionSuccess ct nonce slt h) /\
      decryptMessage ct nonce slt password h =
        {| decryptedMessage := message; isValid := true;
           actualHash := generateHash message |}.
Proof.
  intros Htext Hsalt Hs16 Hiv Hn12 Hwf er Hcap.
  destruct (embed_returns image er password Hn12 Hs16 Hcap)
    as (fuel & image' & stats & Hembed).
  exists fuel, image', stats. split; [exact Hembed|].
  exists (encryptedData er), (iv er), (salt er),
         (textDecode (textEncode (hash er))).
  split.
  - apply (extract_embed fuel image er password image' stats); auto.
    apply aesGcmEncrypt_bytes, textEncode_bytes.
  - exact (decrypt_encrypt message password randomSalt randomIv Htext).
Qed.

End RoundTrip.

(** An embedding on the 32 x 32 cover, and what it left alone. *)
Lemma C7_embed_frame_witness :
  exists fuel image' stats,
    @embedDataInImage toyPlatform fuel plainCover shortEnvelope (js "Str0ngPass!")
      = Some (StegoSuccess image' stats) /\
    length (pixels image') = length (pixels plainCover) /\
    forall k v, pixels plainCover !! k = Some v ->
      exists v', pixels image' !! k = Some v' /\ v' / 2 = v / 2 /\
                 (Z.of_nat k mod 4 = 3 -> v' = v).
Proof.
  destruct (@embed_returns toyPlatform plainCover shortEnvelope (js "Str0ngPass!"))
    as (fuel & image' & stats & Hembed);
    [reflexivity | reflexivity | vm_compute; split; discriminate |].
  exists fuel, image', stats. split; [exact Hembed|].
  destruct (@C7_embed_frame toyPlatform fuel plainCover shortEnvelope
              (js "Str0ngPass!") image' stats)
    as (payload & positions & _ & _ & _ & _ & Hlen & Hframe).
  - apply Forall_replicate. unfold is_byte. lia.
  - exact Hembed.
  - split; [exact Hlen|]. intros k v Hk.
    destruct (Hframe k v Hk) as (v' & Hk' & Hhigh & Halpha & _).
    exists v'. auto.
Defined.

(** C1. The round trip fails on a cover whose capacity suffices by the
    code's own test, three bits per pixel: the message "abc" makes a
    payload of 119 bytes, 32 + 8 x 119 = 984 = 3 x 328 bits, and on the
    41 x 8 cover embedding never returns, however long it runs, so nothing
    can be extracted. *)
Theorem C1_round_trip_fails :
  wf_image tinyCover /\
  shortEnvelope =
    @encryptMessage toyPlatform (js "abc") (js "Str0ngPass!")
      (replicate 16 2) (replicate 12 1) /\
  32 + 8 * (36 + Z.of_nat (length (encryptedData shortEnvelope)) +
            Z.of_nat (length (@textEncode toyPlatform (hash shortEnvelope))))
    <= 3 * (width tinyCover * height tinyCover) /\
  forall fuel,
    @embedDataInImage toyPlatform fuel tinyCover shortEnvelope
      (js "Str0ngPass!") = None.
Proof.
  split.
  { unfold wf_image, tinyCover. cbn [width height pixels].
    split; [lia|]. split; [lia|]. split.
    - rewrite length_replicate. reflexivity.
    - apply Forall_replicate. unfold is_byte. lia. }
  split; [reflexivity|].
  split; [vm_compute; discriminate|].
  intros fuel.
  destruct (@buildPayload toyPlatform shortEnvelope) as [payload|m] eqn:Hbuild;
    [|vm_compute in Hbuild; discriminate].
  pose proof (@buildPayload_length toyPlatform _ _ Hbuild) as Hlen.
  apply (@embed_hangs toyPlatform fuel tinyCover shortEnvelope _ payload Hbuild).
  - rewrite Hlen. vm_compute. split; [reflexivity | discriminate].
  - vm_compute. discriminate.
Qed.

(** ** Extraction with another password *)

Lemma wf_plainCover : wf_image plainCover.
Proof.
  unfold wf_image, plainCover. cbn [width height pixels].
  split; [lia|]. split; [lia|]. split.
  - rewrite length_replicate. reflexivity.
  - apply Forall_replicate. unfold is_byte. lia.
Qed.

Lemma wf_largeCover : wf_image largeCover.
Proof.
  unfold wf_image, largeCover. cbn [width height pixels].
  split; [lia|]. split; [lia|]. split.
  - rewrite length_replicate, Z2Nat.id by lia. reflexivity.
  - apply Forall_replicate. unfold is_byte. lia.
Qed.

Lemma light_envelope_bytes message password randomSalt randomIv :
  Forall is_byte
    (encryptedData (@encryptMessage lightPlatform message password randomSalt randomIv)).
Proof.
  cbn [encryptMessage encryptedData].
  apply (@aesGcmEncrypt_bytes lightPlatform lightPlatform_laws).
  apply (@textEncode_bytes lightPlatform lightPlatform_laws).
Qed.

(** C8, as stated, fails when the cover already carries a payload made
    with the other password.  Embedding "old" under "battery staple" and then
    "new" under "correct horse" gives an image produced by embedding under
    "correct horse"; the two schedules share no channel, and extraction with
    "battery staple" returns the plaintext "old", verified.  Of the cipher
    only the law of the platform is used: it decrypts what it encrypted
    under the same key and nonce ([extract_stale], [decrypt_encrypt]). *)
Lemma C8_counterexample :
  js "correct horse" <> js "battery staple" /\
  exists cover stats0 image stats,
    @embedDataInImage lightPlatform 500 largeCover oldEnvelope
      (js "battery staple") = Some (StegoSuccess cover stats0) /\
    @embedDataInImage lightPlatform 500 cover newEnvelope
      (js "correct horse") = Some (StegoSuccess image stats) /\
    exists ct nonce slt h,
      @extractDataFromImage lightPlatform 500 image (js "battery staple") =
        Some (ExtractionSuccess ct nonce slt h) /\
      @decryptMessage lightPlatform ct nonce slt (js "battery staple") h =
        {| decryptedMessage := js "old"; isValid := true;
           actualHash := @generateHash lightPlatform (js "old") |}.
Proof.
  split; [vm_compute; discriminate|].
  assert (Hb1 : exists p, @buildPayload lightPlatform newEnvelope = Returned p /\
                          Z.of_nat (length p) = 42)
    by (eexists; split; [vm_compute; reflexivity | vm_compute; reflexivity]).
  assert (Hb2 : exists p, @buildPayload lightPlatform oldEnvelope = Returned p /\
                          Z.of_nat (length p) = 42)
    by (eexists; split; [vm_compute; reflexivity | vm_compute; reflexivity]).
  assert (Hpos : exists l1 l2,
            generatePixelPositions 500 512 512 42 (js "correct horse")
              = Some (Returned l1) /\
            generatePixelPositions 500 512 512 42 (js "battery staple")
              = Some (Returned l2) /\
            channelsApart l1 l2 = true)
    by (eexists _, _; split;
        [vm_compute; reflexivity
        |split; [vm_compute; reflexivity | vm_compute; reflexivity]]).
  destruct Hb1 as (payload1 & Hb1 & Hlen1).
  destruct Hb2 as (payload2 & Hb2 & Hlen2).
  destruct Hpos as (positions1 & positions2 & Hg1 & Hg2 & Hapart).
  rewrite <- Hlen1 in Hg1. rewrite <- Hlen2 in Hg2.
  assert (Hcover : exists cover stats0,
            @embedDataInImage lightPlatform 500 largeCover oldEnvelope
              (js "battery staple") = Some (StegoSuccess cover stats0) /\
            width cover = 512 /\ height cover = 512).
  { unfold embedDataInImage, embedBody. rewrite Hb2. cbn [obind liftO]. cbv zeta.
    change (width largeCover) with 512. change (height largeCover) with 512.
    rewrite Hg2. cbn [obind]. eexists _, _. split; [reflexivity|].
    split; reflexivity. }
  destruct Hcover as (cover & stats0 & Hcover & Hw & Hh).
  assert (Himage : exists image stats,
            @embedDataInImage lightPlatform 500 cover newEnvelope
              (js "correct horse") = Some (StegoSuccess image stats)).
  { unfold embedDataInImage, embedBody. rewrite Hb1. cbn [obind liftO]. cbv zeta.
    rewrite Hw, Hh, Hg1. cbn [obind]. eexists _, _. reflexivity. }
  destruct Himage as (image & stats & Himage).
  exists cover, stats0, image, stats.
  split; [exact Hcover|]. split; [exact Himage|].
  exists (encryptedData oldEnvelope), (iv oldEnvelope), (salt oldEnvelope),
         (@textDecode lightPlatform (@textEncode lightPlatform (hash oldEnvelope))).
  split.
  - assert (Hbytes : forall n x, is_byte x -> Forall is_byte (replicate n x))
      by (intros n x Hx; apply Forall_replicate, Hx).
    assert (H1 : is_byte 1) by (unfold is_byte; lia).
    assert (H2 : is_byte 2) by (unfold is_byte; lia).
    exact (@extract_stale lightPlatform lightPlatform_laws 500 largeCover
             newEnvelope oldEnvelope (js "correct horse") (js "battery staple")
             cover stats0 image stats payload1 payload2 positions1 positions2
             wf_largeCover
             (light_envelope_bytes _ _ _ _)
             (Hbytes 12%nat 1 H1) (Hbytes 16%nat 2 H2) eq_refl eq_refl
             Hb1 Hb2 Hg1 Hg2 Hapart Hcover Himage).
  - apply (@decrypt_encrypt lightPlatform lightPlatform_laws (js "old")
             (js "battery staple") (replicate 16 2) (replicate 12 1)).
    vm_compute. reflexivity.
Qed.

(** Passwords with the same seed have the same schedule. *)
Lemma generatePixelPositions_same_seed fuel w h dataLength password password' :
  PRNG.new password' = PRNG.new password ->
  generatePixelPositions fuel w h dataLength password' =
  generatePixelPositions fuel w h dataLength password.
Proof. intros Hseed. unfold generatePixelPositions. rewrite Hseed. reflexivity. Qed.

Section WrongPassword.
Context {P : Platform} {HL : PlatformLaws P}.

Lemma extract_same_seed fuel image password password' :
  PRNG.new password' = PRNG.new password ->
  extractDataFromImage fuel image password' =
  extractDataFromImage fuel image password.
Proof.
  intros Hseed. unfold extractDataFromImage, extractBody.
  rewrite (generatePixelPositions_same_seed _ _ _ _ _ _ Hseed).
  destruct (generatePixelPositions fuel (width image) (height image) 4 password)
    as [[header|m]|]; cbn [obind]; [|reflexivity|reflexivity].
  destruct (getUint32 _ 0) as [totalLength|m]; cbn [obind liftO]; [|reflexivity].
  rewrite (generatePixelPositions_same_seed _ _ _ _ _ _ Hseed). reflexivity.
Qed.

(** C8, amended. Let an image be produced by embedding a message under
    [password1], and let [password2] be a password whose key AES-GCM tells
    apart: under the key PBKDF2 derives from [password2] and the salt it
    rejects the ciphertext made under the key derived from [password1].
    Then extraction with [password2] never opens the embedded envelope.
    When [password2] has the 32-bit seed of [password1], extraction returns
    the envelope and decryption ends in the authentication failure: the
    empty message, [isValid] false, the empty hash.  And whatever
    extraction with [password2] returns, decryption gives text only from a
    ciphertext, nonce and salt other than the embedded ones, which AES-GCM
    accepts under the key derived from [password2] and that salt. *)
Theorem C8_wrong_password fuel cover message password1 password2
    randomSalt randomIv image stats :
  wf_image cover ->
  Forall is_byte randomSalt -> length randomSalt = 16%nat ->
  Forall is_byte randomIv -> length randomIv = 12%nat ->
  let er := encryptMessage message password1 randomSalt randomIv in
  embedDataInImage fuel cover er password1 = Some (StegoSuccess image stats) ->
  aesGcmDecrypt (pbkdf2 (textEncode password2) randomSalt) randomIv
    (aesGcmEncrypt (pbkdf2 (textEncode password1) randomSalt) randomIv
       (textEncode message)) = None ->
  (PRNG.new password2 = PRNG.new password1 ->
   exists h,
     extractDataFromImage fuel image password2 =
       Some (ExtractionSuccess (encryptedData er) (iv er) (salt er) h) /\
     decryptMessage (encryptedData er) (iv er) (salt er) password2 h =
       {| decryptedMessage := []; isValid := false; actualHash := [] |}) /\
  (forall fuel' ct nonce slt h,
     extractDataFromImage fuel' image password2 =
       Some (ExtractionSuccess ct nonce slt h) ->
     decryptedMessage (decryptMessage ct nonce slt password2 h) <> [] ->
     (ct, nonce, slt) <> (encryptedData er, iv er, salt er) /\
     exists buffer,
       aesGcmDecrypt (pbkdf2 (textEncode password2) slt) nonce ct =
         Some buffer /\
       decryptedMessage (decryptMessage ct nonce slt password2 h) =
         textDecode buffer).
Proof.
  intros Hwf Hsalt Hs16 Hiv Hn12 er Hembed Hreject.
  assert (Hempty : forall h,
            decryptMessage (encryptedData er) (iv er) (salt er) password2 h =
            {| decryptedMessage := []; isValid := false; actualHash := [] |}).
  { intros h. unfold decryptMessage, deriveKey. subst er.
    cbn [encryptMessage encryptedData iv salt]. unfold deriveKey.
    rewrite Hreject. reflexivity. }
  split.
  - intros Hseed. eexists. split; [|apply Hempty].
    rewrite (extract_same_seed fuel image password1 password2 Hseed).
    apply (extract_embed fuel cover er password1 image stats); auto.
    apply aesGcmEncrypt_bytes, textEncode_bytes.
  - intros fuel' ct nonce slt h _ Htext. split.
    + intros [= -> -> ->]. rewrite Hempty in Htext. apply Htext. reflexivity.
    + revert Htext. unfold decryptMessage, deriveKey.
      destruct (aesGcmDecrypt _ nonce ct) as [buffer|].
      * intros _. exists buffer. split; reflexivity.
      * intros Htext. exfalso. apply Htext. reflexivity.
Qed.

End WrongPassword.

(** With the passwords "Aa" and "BB", which have the same seed, on the
    small platform, whose tag is made from the key. *)
Lemma C8_wrong_password_witness :
  exists fuel image stats h,
    @embedDataInImage toyPlatform fuel plainCover
      (@encryptMessage toyPlatform (js "hi") (js "Aa")
         (replicate 16 2) (replicate 12 1))
      (js "Aa") = Some (StegoSuccess image stats) /\
    @extractDataFromImage toyPlatform fuel image (js "BB") =
      Some (ExtractionSuccess
              (encryptedData (@encryptMessage toyPlatform (js "hi") (js "Aa")
                                (replicate 16 2) (replicate 12 1)))
              (replicate 12 1) (replicate 16 2) h) /\
    @decryptMessage toyPlatform
      (encryptedData (@encryptMessage toyPlatform (js "hi") (js "Aa")
                        (replicate 16 2) (replicate 12 1)))
      (replicate 12 1) (replicate 16 2) (js "BB") h =
      {| decryptedMessage := []; isValid := false; actualHash := [] |}.
Proof.
  destruct (@embed_returns toyPlatform plainCover
              (@encryptMessage toyPlatform (js "hi") (js "Aa")
                 (replicate 16 2) (replicate 12 1)) (js "Aa"))
    as (fuel & image & stats & Hembed);
    [reflexivity | reflexivity | vm_compute; split; discriminate |].
  assert (Hsalt : Forall is_byte (replicate 16 2))
    by (apply Forall_replicate; unfold is_byte; lia).
  assert (Hiv : Forall is_byte (replicate 12 1))
    by (apply Forall_replicate; unfold is_byte; lia).
  destruct (proj1 (@C8_wrong_password toyPlatform toyPlatform_laws fuel
                     plainCover (js "hi") (js "Aa") (js "BB")
                     (replicate 16 2) (replicate 12 1) image stats
                     wf_plainCover Hsalt eq_refl Hiv eq_refl Hembed eq_refl)
              eq_refl)
    as (h & Hextract & Hdecrypt).
  exists fuel, image, stats, h.
  split; [exact Hembed|]. split; [exact Hextract | exact Hdecrypt].
Defined.

(** ** The length fields of the payload *)

Lemma readAt_byte arr index : Forall is_byte arr -> is_byte (readAt arr index).
Proof.
  intros Harr. unfold readAt.
  destruct (index <? 0); [unfold is_byte; lia|].
  destruct (arr !! Z.to_nat index) as [v|] eqn:E; cbn [default].
  - exact (proj1 (Forall_lookup _ _) Harr _ _ E).
  - unfold is_byte. lia.
Qed.

(** C9, as stated, fails for the hash length: a field of 100 with nothing
    left in the buffer is accepted, and the result carries the empty hash;
    an image whose scheduled channels hold that buffer is extracted with
    success. *)
Lemma C9_counterexample :
  getUint32 truncatedPayload 32 = Returned 100 /\
  Z.of_nat (length truncatedPayload) - 36 < 100 /\
  @parsePayload toyPlatform truncatedPayload =
    Returned (ExtractionSuccess [] (replicate 12 1) (replicate 16 2) []) /\
  exists fuel image,
    wf_image image /\
    @extractDataFromImage toyPlatform fuel image (js "Str0ngPass!") =
      Some (ExtractionSuccess [] (replicate 12 1) (replicate 16 2) []).
Proof.
  split; [vm_compute; reflexivity|].
  split; [vm_compute; reflexivity|].
  split; [vm_compute; reflexivity|].
  destruct (@carrier_of_payload toyPlatform plainCover truncatedPayload
              (js "Str0ngPass!")) as (fuel & image & Hwf & Hextract).
  - exact wf_plainCover.
  - unfold truncatedPayload.
    repeat (apply Forall_app; split);
      try apply bytesOfUint32_bytes;
      apply Forall_replicate; unfold is_byte; lia.
  - vm_compute. lia.
  - vm_compute. discriminate.
  - vm_compute. discriminate.
  - exists fuel, image. split; [exact Hwf|]. exact Hextract.
Qed.

(** C9, amended. Let the scheduled channels of an image hold a byte buffer
    (after its length header).  If the ciphertext length field of the
    buffer exceeds the bytes left, extraction fails: the read of the hash
    length falls outside the buffer, throws, and is reported as a failure
    with the message of the exception.  The hash length field is not
    compared with what is left: when it exceeds the rest of the buffer,
    extraction succeeds and returns that rest as the hash. *)
Theorem C9_length_fields {P : Platform} fuel image password payload positions c :
  Forall is_byte payload ->
  (4 <= length payload)%nat ->
  generatePixelPositions fuel (width image) (height image)
    (Z.of_nat (length payload)) password = Some (Returned positions) ->
  readBits positions (pixels image) 0 (32 + 8 * length payload) =
    dataToBits (lengthHeader (Z.of_nat (length payload))) ++
    dataToBits payload ->
  getUint32 payload 0 = Returned c ->
  (Z.of_nat (length payload) - 4 < c ->
   extractDataFromImage fuel image password =
     Some (ExtractionFailure "Offset is outside the bounds of the DataView")) /\
  (forall h,
     getUint32 payload (32 + c) = Returned h ->
     Z.of_nat (length payload) - (36 + c) <= h ->
     exists ct nonce slt,
       extractDataFromImage fuel image password =
       Some (ExtractionSuccess ct nonce slt
               (textDecode (drop (Z.to_nat (36 + c)) payload)))).
Proof.
  intros Hbytes Hlen4 Hgen Hreads Hc.
  rewrite (extract_reads fuel image password payload positions Hbytes Hlen4
             Hgen Hreads).
  split.
  - intros Hover. rewrite parsePayload_overrun; [reflexivity|].
    intros n Hn. rewrite Hc in Hn. injection Hn as <-. exact Hover.
  - intros h Hh Hrest.
    assert (Hc0 : 0 <= c).
    { unfold getUint32 in Hc.
      destruct (Z.of_nat (length payload) <? 0 + 4); [discriminate|].
      injection Hc as <-.
      pose proof (readAt_byte payload (0 + 0) Hbytes).
      pose proof (readAt_byte payload (0 + 1) Hbytes).
      pose proof (readAt_byte payload (0 + 2) Hbytes).
      pose proof (readAt_byte payload (0 + 3) Hbytes).
      unfold is_byte in *. lia. }
    unfold parsePayload. cbv zeta. rewrite Hc.
    replace (0 + 4 + c + 12 + 16) with (32 + c) by lia. rewrite Hh.
    do 3 eexists. do 4 f_equal.
    replace (32 + c + 4) with (36 + c) by lia.
    apply slice_clamped; lia.
Qed.

(** On the 32 x 32 cover: a 7-byte buffer whose ciphertext length field
    says 50, and the 36-byte buffer whose hash length field says 100. *)
Lemma C9_length_fields_witness :
  (exists fuel image,
     wf_image image /\
     @extractDataFromImage toyPlatform fuel image (js "Str0ngPass!") =
       Some (ExtractionFailure "Offset is outside the bounds of the DataView")) /\
  (exists fuel image ct nonce slt,
     wf_image image /\
     @extractDataFromImage toyPlatform fuel image (js "Str0ngPass!") =
       Some (ExtractionSuccess ct nonce slt (drop 36 truncatedPayload))).
Proof.
  split.
  - destruct (carrier_reads plainCover overrunPayload (js "Str0ngPass!")
                wf_plainCover)
      as (fuel & image & positions & Hwf & _ & _ & Hgen & Hreads);
      [vm_compute; discriminate | vm_compute; discriminate |].
    exists fuel, image. split; [exact Hwf|].
    refine (proj1 (@C9_length_fields toyPlatform fuel image (js "Str0ngPass!")
                     overrunPayload positions 50 _ _ Hgen Hreads _) _).
    + unfold overrunPayload. apply Forall_app. split;
        [apply bytesOfUint32_bytes|].
      repeat constructor; unfold is_byte; lia.
    + vm_compute. lia.
    + vm_compute. reflexivity.
    + vm_compute. reflexivity.
  - destruct (carrier_reads plainCover truncatedPayload (js "Str0ngPass!")
                wf_plainCover)
      as (fuel & image & positions & Hwf & _ & _ & Hgen & Hreads);
      [vm_compute; discriminate | vm_compute; discriminate |].
    destruct (proj2 (@C9_length_fields toyPlatform fuel image
                       (js "Str0ngPass!") truncatedPayload positions 0
                       ltac:(unfold truncatedPayload;
                             repeat (apply Forall_app; split);
                             try apply bytesOfUint32_bytes;
                             apply Forall_replicate; unfold is_byte; lia)
                       ltac:(vm_compute; lia) Hgen Hreads
                       ltac:(vm_compute; reflexivity))
                100 ltac:(vm_compute; reflexivity)
                ltac:(vm_compute; discriminate))
      as (ct & nonce & slt & Hextract).
    exists fuel, image, ct, nonce, slt. split; [exact Hwf | exact Hextract].
Defined.

(** ** The embedded length header *)

(** C4, as stated, fails: for a 16-byte ciphertext and a 64-character hash
    the header read back from the image that embedding produced is 116,
    not 32 + 16 + 64 = 112. *)
Lemma C4_counterexample :
  exists fuel image' stats header,
    @embedDataInImage toyPlatform fuel plainCover sampleEnvelope
      (js "Str0ngPass!") = Some (StegoSuccess image' stats) /\
    generatePixelPositions fuel (width image') (height image') 4
      (js "Str0ngPass!") = Some (Returned header) /\
    getUint32
      (bitsToData (readBits (take 32 header) (pixels image') 0 32)) 0 =
      Returned 116 /\
    116 <> 32 + Z.of_nat (length (encryptedData sampleEnvelope)) +
           Z.of_nat (length (@textEncode toyPlatform (hash sampleEnvelope))).
Proof.
  destruct (@embed_returns toyPlatform plainCover sampleEnvelope
              (js "Str0ngPass!"))
    as (fuel & image' & stats & Hembed);
    [reflexivity | reflexivity | vm_compute; split; discriminate |].
  destruct (@embedded_header toyPlatform fuel plainCover sampleEnvelope
              (js "Str0ngPass!") image' stats wf_plainCover Hembed)
    as (header & Hheader & Hvalue).
  exists fuel, image', stats, header.
  split; [exact Hembed|]. split; [exact Hheader|].
  split; [exact Hvalue|]. vm_compute. discriminate.
Qed.

(** C4, amended. The 32-bit big-endian length header that embedding writes
    ahead of the payload, read back from the produced image at the first 32
    positions of the 4-byte scheduling call, is the payload length
    36 + C + H: two 4-byte length fields, the 12-byte nonce, the 16-byte
    salt, C ciphertext bytes and H hash bytes. *)
Theorem C4_length_header {P : Platform} fuel image er password image' stats :
  wf_image image ->
  embedDataInImage fuel image er password = Some (StegoSuccess image' stats) ->
  exists header,
    generatePixelPositions fuel (width image') (height image') 4 password =
      Some (Returned header) /\
    getUint32
      (bitsToData (readBits (take 32 header) (pixels image') 0 32)) 0 =
    Returned (36 + Z.of_nat (length (encryptedData er)) +
              Z.of_nat (length (textEncode (hash er)))).
Proof. exact (embedded_header fuel image er password image' stats). Qed.

Lemma C4_length_header_witness :
  exists fuel image' stats header,
    @embedDataInImage toyPlatform fuel plainCover sampleEnvelope
      (js "Str0ngPass!") = Some (StegoSuccess image' stats) /\
    generatePixelPositions fuel (width image') (height image') 4
      (js "Str0ngPass!") = Some (Returned header) /\
    getUint32
      (bitsToData (readBits (take 32 header) (pixels image') 0 32)) 0 =
      Returned (36 + Z.of_nat (length (encryptedData sampleEnvelope)) +
                Z.of_nat (length (@textEncode toyPlatform
                                    (hash sampleEnvelope)))).
Proof.
  destruct (@embed_returns toyPlatform plainCover sampleEnvelope
              (js "Str0ngPass!"))
    as (fuel & image' & stats & Hembed);
    [reflexivity | reflexivity | vm_compute; split; discriminate |].
  destruct (@C4_length_header toyPlatform fuel plainCover sampleEnvelope
              (js "Str0ngPass!") image' stats wf_plainCover Hembed)
    as (header & Hheader & Hvalue).
  exists fuel, image', stats, header.
  split; [exact Hembed|]. split; [exact Hheader | exact Hvalue].
Defined.

(** ** More on the generator *)

Lemma toInt32_congr x y k : x = y + k * 2 ^ 32 -> toInt32 x = toInt32 y.
Proof.
  intros ->. unfold toInt32.
  replace (y + k * 2 ^ 32 + 2 ^ 31) with (y + 2 ^ 31 + k * 2 ^ 32) by lia.
  rewrite Z.mod_add by lia. reflexivity.
Qed.

Lemma toInt32_multiple x : exists k, toInt32 x = x + k * 2 ^ 32.
Proof.
  exists (- ((x + 2 ^ 31) / 2 ^ 32)). unfold toInt32.
  pose proof (Z.div_mod (x + 2 ^ 31) (2 ^ 32) ltac:(lia)). lia.
Qed.

Lemma mix_hash h c : PRNG.mix (toInt32 h) c = toInt32 (31 * h + c).
Proof.
  unfold PRNG.mix.
  destruct (toInt32_multiple h) as [q0 H0].
  destruct (toInt32_multiple (toInt32 h * 32)) as [q1 H1].
  apply (toInt32_congr _ _ (31 * q0 + q1)). lia.
Qed.

Lemma fold_mix_hash seed :
  forall h,
    fold_left PRNG.mix seed (toInt32 h) =
    toInt32 (fold_left (fun h c => 31 * h + c) seed h).
Proof.
  induction seed as [|c seed IH]; intros h; simpl; [reflexivity|].
  rewrite mix_hash. apply IH.
Qed.

(** X1. The seed of the generator is the absolute value of the 32-bit string
    hash [s[0] * 31^(n-1) + ... + s[n-1]], wrapped to a signed 32-bit
    integer. *)
Theorem seed_is_string_hash seed :
  PRNG.new seed = Z.abs (toInt32 (fold_left (fun h c => 31 * h + c) seed 0)) /\
  0 <= PRNG.new seed <= 2 ^ 31.
Proof.
  split; [|apply new_range].
  unfold PRNG.new. f_equal. exact (fold_mix_hash seed 0).
Qed.

(** X2. [nextInt(max)] leaves a state below [2^32] and returns an index below
    [max], also where the product [next() * max] is rounded. *)
Theorem nextInt_range seed max :
  0 < max ->
  0 <= fst (PRNG.nextInt seed max) < 2 ^ 32 /\
  0 <= snd (PRNG.nextInt seed max) < max.
Proof.
  intros Hmax. unfold PRNG.nextInt. cbn [fst snd].
  pose proof (step_range seed) as Hs.
  split; [exact Hs|]. apply scale_range; [exact Hs | exact Hmax].
Qed.

Lemma nextInt_range_witness :
  0 <= fst (PRNG.nextInt 3105 16) < 2 ^ 32 /\
  0 <= snd (PRNG.nextInt 3105 16) < 16.
Proof. apply (nextInt_range 3105 16). lia. Defined.

(** X3. The generator visits every 32-bit state: from any state, some number
    of [next()] calls reaches any given one. *)
Theorem next_reaches_every_state s t :
  0 <= t < 2 ^ 32 -> exists k, Nat.iter (S k) PRNG.step s = t.
Proof. exact (step_full_period s t). Qed.

Lemma next_reaches_every_state_witness :
  exists k, Nat.iter (S k) PRNG.step 3105 = 0.
Proof. apply (next_reaches_every_state 3105 0). lia. Defined.

(** X4. Whatever the dimensions and the payload size, a schedule that is
    returned has exactly [max 0 (32 + 8 * dataLength)] entries, all
    distinct pixel indices of the image; so it passed the capacity test,
    and it has at most as many entries as the image has pixels and as
    the generator has states. *)
Theorem schedule_invariants fuel w h dataLength seed l :
  generatePixelPositions fuel w h dataLength seed = Some (Returned l) ->
  Z.of_nat (length l) = Z.max 0 (32 + dataLength * 8) /\
  NoDup l /\
  (forall p, p ∈ l -> 0 <= p < w * h) /\
  32 + dataLength * 8 <= w * h /\
  32 + dataLength * 8 <= 2 ^ 32.
Proof.
  intros H.
  pose proof (generatePixelPositions_returned _ _ _ _ _ _ H)
    as (Hcap & Hlen & Hnd & _ & Hrange).
  pose proof (generatePixelPositions_at_most_states _ _ _ _ _ _ H) as Hst.
  repeat split; try assumption; try (apply Hrange; assumption).
  pose proof (NoDup_range_length l (w * h) Hnd Hrange). lia.
Qed.

Lemma schedule_invariants_witness :
  exists l,
    generatePixelPositions 100 8 8 0 (js "key") = Some (Returned l) /\
    Z.of_nat (length l) = Z.max 0 (32 + 0 * 8) /\
    NoDup l /\
    (forall p, p ∈ l -> 0 <= p < 8 * 8) /\
    32 + 0 * 8 <= 8 * 8 /\
    32 + 0 * 8 <= 2 ^ 32.
Proof.
  destruct (generatePixelPositions 100 8 8 0 (js "key")) as [[l|]|] eqn:E;
    [|vm_compute in E; discriminate..].
  exists l. split; [reflexivity|].
  exact (schedule_invariants 100 8 8 0 (js "key") l E).
Defined.

(** ** More on the bit codec *)

Lemma pack_byte b0 b1 b2 b3 b4 b5 b6 b7 :
  let byte :=
    withBit b7 0 (withBit b6 1 (withBit b5 2 (withBit b4 3
      (withBit b3 4 (withBit b2 5 (withBit b1 6 (withBit b0 7 0))))))) in
  byteBits byte =
    map (fun b => if b =? 0 then 0 else 1) [b0; b1; b2; b3; b4; b5; b6; b7].
Proof.
  unfold withBit. cbn [map].
  destruct (b0 =? 0), (b1 =? 0), (b2 =? 0), (b3 =? 0),
           (b4 =? 0), (b5 =? 0), (b6 =? 0), (b7 =? 0); reflexivity.
Qed.

Lemma collectBits_chunk k b0 b1 b2 b3 b4 b5 b6 b7 rest pre post :
  length pre = k ->
  collectBits (8 * k) (b0 :: b1 :: b2 :: b3 :: b4 :: b5 :: b6 :: b7 :: rest)
    (pre ++ 0 :: post) =
  collectBits (8 * k + 8) rest
    (pre ++
     withBit b7 0 (withBit b6 1 (withBit b5 2 (withBit b4 3
       (withBit b3 4 (withBit b2 5 (withBit b1 6 (withBit b0 7 0)))))))
     :: post).
Proof.
  intros Hk.
  replace (8 * k)%nat with (8 * k + 0)%nat at 1 by lia.
  do 8 (rewrite (collectBits_one k) by (assumption || lia)).
  reflexivity.
Qed.

Lemma collectBits_full n :
  forall bits pre,
    length bits = (8 * n)%nat ->
    exists data,
      length data = n /\
      collectBits (8 * length pre) bits (pre ++ replicate n 0) = pre ++ data /\
      dataToBits data = map (fun b => if b =? 0 then 0 else 1) bits.
Proof.
  induction n as [|n IH]; intros bits pre Hlen.
  - destruct bits; [|discriminate]. exists []. repeat split.
  - do 8 (destruct bits as [|? bits]; [simpl in Hlen; lia|]).
    cbn [replicate].
    rewrite (collectBits_chunk (length pre)) by reflexivity.
    match goal with
    | |- context [pre ++ ?byte :: replicate n 0] =>
        destruct (IH bits (pre ++ [byte])) as (data & Hn & Hcollect & Hbits);
          [simpl in Hlen; lia|];
        exists (byte :: data)
    end.
    split; [simpl; lia|]. split.
    + rewrite length_app, <- !app_assoc in Hcollect. cbn [length app] in Hcollect.
      replace (8 * (length pre + 1))%nat with (8 * length pre + 8)%nat
        in Hcollect by lia.
      exact Hcollect.
    + unfold dataToBits in *. cbn [flat_map]. rewrite Hbits.
      rewrite pack_byte. reflexivity.
Qed.

Lemma collectBits_zero_tail m :
  forall bits i bytes,
    collectBits i (bits ++ replicate m 0) bytes = collectBits i bits bytes.
Proof.
  intros bits. induction bits as [|b bits IH]; intros i bytes.
  - cbn [app]. revert i. induction m as [|m IHm]; intros i; [reflexivity|].
    cbn [replicate collectBits]. change (0 =? 0) with true. cbv iota.
    apply IHm.
  - cbn [app collectBits]. apply IH.
Qed.

(** X5. [bitsToData] packs the bits eight to a byte, most significant first,
    taking every entry other than 0 as a one and filling the last byte
    with zero bits: unpacking its result gives the normalised bits followed
    by the padding, and it has one byte for every eight bits or part of. *)
Theorem dataToBits_bitsToData bits :
  dataToBits (bitsToData bits) =
    map (fun b => if b =? 0 then 0 else 1) bits ++
    replicate ((8 - length bits mod 8) mod 8)%nat 0 /\
  length (bitsToData bits) = ((length bits + 7) / 8)%nat.
Proof.
  unfold bitsToData.
  set (n := ((length bits + 7) / 8)%nat).
  set (pad := ((8 - length bits mod 8) mod 8)%nat).
  assert (Hlen : length (bits ++ replicate pad 0) = (8 * n)%nat).
  { rewrite length_app, length_replicate. subst n pad.
    pose proof (Nat.div_mod (length bits) 8 ltac:(lia)) as H1.
    pose proof (Nat.mod_upper_bound (length bits) 8 ltac:(lia)) as H2.
    set (q := (length bits / 8)%nat) in *.
    set (r := (length bits mod 8)%nat) in *.
    rewrite H1.
    destruct (Nat.eq_dec r 0%nat) as [Hr0 | Hr].
    - rewrite Hr0.
      replace (8 * q + 0 + 7)%nat with (7 + q * 8)%nat by lia.
      rewrite Nat.div_add by lia.
      change (7 / 8)%nat with 0%nat. change ((8 - 0) mod 8)%nat with 0%nat. lia.
    - replace ((8 - r) mod 8)%nat with (8 - r)%nat
        by (symmetry; apply Nat.mod_small; lia).
      replace (8 * q + r + 7)%nat with ((r - 1) + (q + 1) * 8)%nat by lia.
      rewrite Nat.div_add by lia.
      rewrite (Nat.div_small (r - 1) 8) by lia. lia. }
  destruct (collectBits_full n (bits ++ replicate pad 0) [] Hlen)
    as (data & Hn & Hcollect & Hbits).
  cbn [length app] in Hcollect. rewrite Nat.mul_0_r in Hcollect.
  rewrite collectBits_zero_tail in Hcollect.
  rewrite Hcollect. split; [|exact Hn].
  rewrite Hbits, map_app. f_equal.
  clear. induction pad as [|pad IH]; [reflexivity|].
  cbn [replicate map]. rewrite IH. reflexivity.
Qed.

(** X6. On a channel value, [embedBit] stores the bit where [extractBit] reads
    it, stays a byte, moves the value by at most one, changes nothing when
    the bit is the one already there, and is idempotent. *)
Theorem embedBit_laws v bit :
  is_byte v -> bit = 0 \/ bit = 1 ->
  extractBit (embedBit v bit) = bit /\
  is_byte (embedBit v bit) /\
  -1 <= embedBit v bit - v <= 1 /\
  embedBit v (extractBit v) = v /\
  embedBit (embedBit v bit) bit = embedBit v bit.
Proof.
  intros Hv Hbit.
  assert (H : forall b, is_byte b ->
            ((extractBit (embedBit b bit) =? bit) &&
             (0 <=? embedBit b bit) && (embedBit b bit <? 256) &&
             (-1 <=? embedBit b bit - b) && (embedBit b bit - b <=? 1) &&
             (embedBit b (extractBit b) =? b) &&
             (embedBit (embedBit b bit) bit =? embedBit b bit)) = true).
  { apply byte_cases. destruct Hbit as [-> | ->]; vm_compute; reflexivity. }
  specialize (H v Hv).
  rewrite !andb_true_iff in H.
  destruct H as [[[[[[H1 H2] H3] H4] H5] H6] H7].
  unfold is_byte. lia.
Qed.

Lemma embedBit_laws_witness :
  extractBit (embedBit 200 1) = 1 /\
  is_byte (embedBit 200 1) /\
  -1 <= embedBit 200 1 - 200 <= 1 /\
  embedBit 200 (extractBit 200) = 200 /\
  embedBit (embedBit 200 1) 1 = embedBit 200 1.
Proof. apply (embedBit_laws 200 1); [unfold is_byte; lia | right; reflexivity]. Defined.

(** ** Embedding by capacity, and its statistics *)

Lemma schedule_fits_pixels fuel w h dataLength seed l :
  generatePixelPositions fuel w h dataLength seed = Some (Returned l) ->
  32 + dataLength * 8 <= w * h.
Proof.
  intros H.
  pose proof (generatePixelPositions_returned _ _ _ _ _ _ H)
    as (Hcap & Hlen & Hnd & _ & Hrange).
  pose proof (NoDup_range_length l (w * h) Hnd Hrange). lia.
Qed.

Section Capacity.
Context {P : Platform}.

(** X7. What [embedDataInImage] does is decided by the number of bits to place,
    [32 + 8 * (36 + C + H)] for [C] bytes of ciphertext and [H] bytes of
    hash text, against the number of pixels of the image (there is at
    least one) and the 2^24 entries a set holds: with more than three bits
    per pixel it reports 'Image too small for data payload'; with more than
    one and at most three bits per pixel, on an image of at most 2^24
    pixels, it never returns; with at most one bit per pixel and at most
    2^24 bits it returns an image; with more than 2^24 bits, on an image of
    more than 2^24 pixels, it reports 'Set maximum size exceeded'. *)
Theorem embed_by_capacity image er password :
  length (iv er) = 12%nat -> length (salt er) = 16%nat ->
  let bits := 32 + 8 * (36 + Z.of_nat (length (encryptedData er)) +
                        Z.of_nat (length (textEncode (hash er)))) in
  let totalPixels := width image * height image in
  (0 < totalPixels /\ totalPixels * 3 < bits ->
   forall fuel, embedDataInImage fuel image er password =
                Some (StegoFailure "Image too small for data payload")) /\
  (totalPixels < bits <= totalPixels * 3 /\ totalPixels <= setMaxSize ->
   forall fuel, embedDataInImage fuel image er password = None) /\
  (bits <= totalPixels /\ bits <= setMaxSize ->
   exists fuel image' stats,
     embedDataInImage fuel image er password =
       Some (StegoSuccess image' stats)) /\
  (setMaxSize < bits <= totalPixels * 3 /\ setMaxSize < totalPixels ->
   exists fuel,
     embedDataInImage fuel image er password =
       Some (StegoFailure "Set maximum size exceeded")).
Proof.
  intros Hn12 Hs16 bits totalPixels. subst bits totalPixels.
  pose proof (buildPayload_layout er Hn12 Hs16) as Hbuild.
  pose proof (buildPayload_length er _ Hbuild) as Hlen.
  split; [|split; [|split]].
  - intros [_ Hcap] fuel. eapply embed_too_small; [exact Hbuild|]. lia.
  - intros [Hcap Hset] fuel. eapply embed_hangs; [exact Hbuild| |exact Hset].
    lia.
  - intros Hcap. apply embed_returns; assumption.
  - intros [Hcap Hset]. eapply embed_set_full; [exact Hbuild| |exact Hset].
    lia.
Qed.

(** X8. The statistics of a successful embedding: [dataEmbedded] is the payload
    size [36 + C + H], [capacity] is [floor(3 * width * height / 8)], and
    the embedded bits, header included, took one pixel each, so that the
    payload is at most a third of the capacity shown. *)
Theorem embed_stats fuel image er password image' stats :
  embedDataInImage fuel image er password = Some (StegoSuccess image' stats) ->
  dataEmbedded stats = 36 + Z.of_nat (length (encryptedData er)) +
                       Z.of_nat (length (textEncode (hash er))) /\
  capacity stats = (width image * height image * 3) / 8 /\
  32 + 8 * dataEmbedded stats <= width image * height image /\
  3 * (dataEmbedded stats + 4) <= capacity stats.
Proof.
  unfold embedDataInImage, embedBody, liftO, obind.
  destruct (buildPayload er) as [payload|m] eqn:Hbuild; [|discriminate].
  destruct (generatePixelPositions _ _ _ _ _) as [[positions|m]|] eqn:Hgen;
    [|discriminate|discriminate].
  cbv zeta. intros [= _ <-]. cbn [dataEmbedded capacity].
  pose proof (buildPayload_length er _ Hbuild) as Hlen.
  pose proof (schedule_fits_pixels _ _ _ _ _ _ Hgen) as Hfit.
  split; [exact Hlen|]. split; [reflexivity|]. split; [lia|].
  apply Z.div_le_lower_bound; lia.
Qed.

End Capacity.

Lemma embed_by_capacity_witness :
  @embedDataInImage toyPlatform 10
    {| width := 4; height := 4; pixels := replicate 64 0 |}
    shortEnvelope (js "Str0ngPass!") =
    Some (StegoFailure "Image too small for data payload") /\
  @embedDataInImage toyPlatform 10 tinyCover shortEnvelope (js "Str0ngPass!") =
    None /\
  exists fuel image' stats,
    @embedDataInImage toyPlatform fuel plainCover shortEnvelope (js "Str0ngPass!")
      = Some (StegoSuccess image' stats).
Proof.
  split; [|split].
  - refine (proj1 (@embed_by_capacity toyPlatform
                     {| width := 4; height := 4; pixels := replicate 64 0 |}
                     shortEnvelope (js "Str0ngPass!") _ _) _ 10%nat);
      [reflexivity | reflexivity | vm_compute; split; reflexivity].
  - refine (proj1 (proj2 (@embed_by_capacity toyPlatform tinyCover
                            shortEnvelope (js "Str0ngPass!") _ _)) _ 10%nat);
      [reflexivity | reflexivity
      | vm_compute; split; [split; [reflexivity | discriminate] | discriminate]].
  - refine (proj1 (proj2 (proj2 (@embed_by_capacity toyPlatform plainCover
                                   shortEnvelope (js "Str0ngPass!") _ _))) _);
      [reflexivity | reflexivity | vm_compute; split; discriminate].
Defined.

Lemma embed_stats_witness :
  exists fuel image' stats,
    @embedDataInImage toyPlatform fuel plainCover shortEnvelope (js "Str0ngPass!")
      = Some (StegoSuccess image' stats) /\
    dataEmbedded stats = 119 /\ capacity stats = 384.
Proof.
  destruct (@embed_returns toyPlatform plainCover shortEnvelope (js "Str0ngPass!"))
    as (fuel & image' & stats & Hembed);
    [reflexivity | reflexivity | vm_compute; split; discriminate |].
  exists fuel, image', stats. split; [exact Hembed|].
  destruct (@embed_stats toyPlatform fuel plainCover shortEnvelope
              (js "Str0ngPass!") image' stats Hembed) as (Hd & Hc & _ & _).
  split; [rewrite Hd | rewrite Hc]; vm_compute; reflexivity.
Defined.

(** ** The payload layout, written and read back *)

Section Layout.
Context {P : Platform}.

(** X9. Parsing the payload that was built for an envelope gives back its
    ciphertext, nonce and salt, and its hash text through the text codec. *)
Theorem parsePayload_buildPayload er :
  length (iv er) = 12%nat -> length (salt er) = 16%nat ->
  Z.of_nat (length (encryptedData er)) < 2 ^ 32 ->
  Z.of_nat (length (textEncode (hash er))) < 2 ^ 32 ->
  exists payload,
    buildPayload er = Returned payload /\
    parsePayload payload =
      Returned (ExtractionSuccess (encryptedData er) (iv er) (salt er)
                  (textDecode (textEncode (hash er)))).
Proof.
  intros Hn12 Hs16 Hc Hh.
  eexists. split; [apply buildPayload_layout; assumption|].
  rewrite !Z.mod_small by lia.
  apply parsePayload_layout; assumption.
Qed.

(** X10. Whenever parsing succeeds on a byte buffer, the ciphertext has exactly
    the announced length, the nonce 12 bytes and the salt 16, all inside
    the buffer; only the hash may be shorter than its length field says. *)
Theorem parsePayload_fields payload ct nonce slt h :
  Forall is_byte payload ->
  parsePayload payload = Returned (ExtractionSuccess ct nonce slt h) ->
  exists c hashLength,
    getUint32 payload 0 = Returned c /\
    getUint32 payload (32 + c) = Returned hashLength /\
    0 <= c /\ 36 + c <= Z.of_nat (length payload) /\
    Z.of_nat (length ct) = c /\
    length nonce = 12%nat /\ length slt = 16%nat /\
    h = textDecode (slice payload (36 + c) (36 + c + hashLength)) /\
    Z.of_nat (length (slice payload (36 + c) (36 + c + hashLength))) =
      Z.min hashLength (Z.of_nat (length payload) - (36 + c)).
Proof.
  intros Hbytes. unfold parsePayload. cbv zeta.
  destruct (getUint32 payload 0) as [c|m] eqn:E1; [|discriminate].
  replace (0 + 4 + c + 12 + 16) with (32 + c) by lia.
  destruct (getUint32 payload (32 + c)) as [hl|m] eqn:E2; [|discriminate].
  intros [= <- <- <- <-].
  assert (Hc : 0 <= c).
  { unfold getUint32 in E1.
    destruct (Z.of_nat (length payload) <? 0 + 4); [discriminate|].
    injection E1 as <-.
    pose proof (readAt_byte payload (0 + 0) Hbytes).
    pose proof (readAt_byte payload (0 + 1) Hbytes).
    pose proof (readAt_byte payload (0 + 2) Hbytes).
    pose proof (readAt_byte payload (0 + 3) Hbytes).
    unfold is_byte in *. lia. }
  assert (Hhl : 0 <= hl).
  { unfold getUint32 in E2.
    destruct (Z.of_nat (length payload) <? 32 + c + 4); [discriminate|].
    injection E2 as <-.
    pose proof (readAt_byte payload (32 + c + 0) Hbytes).
    pose proof (readAt_byte payload (32 + c + 1) Hbytes).
    pose proof (readAt_byte payload (32 + c + 2) Hbytes).
    pose proof (readAt_byte payload (32 + c + 3) Hbytes).
    unfold is_byte in *. lia. }
  assert (Hin : 36 + c <= Z.of_nat (length payload)).
  { unfold getUint32 in E2.
    destruct (Z.ltb_spec (Z.of_nat (length payload)) (32 + c + 4));
      [discriminate | lia]. }
  exists c, hl. split; [reflexivity|]. split; [exact E2|].
  split; [exact Hc|]. split; [exact Hin|].
  replace (32 + c + 4) with (36 + c) by lia.
  split; [unfold slice; rewrite length_take, length_drop; lia|].
  split; [unfold slice; rewrite length_take, length_drop; lia|].
  split; [unfold slice; rewrite length_take, length_drop; lia|].
  split; [reflexivity|].
  unfold slice. rewrite length_take, length_drop. lia.
Qed.

End Layout.

Lemma parsePayload_buildPayload_witness :
  exists payload,
    @buildPayload toyPlatform sampleEnvelope = Returned payload /\
    @parsePayload toyPlatform payload =
      Returned (ExtractionSuccess (replicate 16 7) (replicate 12 1)
                  (replicate 16 2) (replicate 64 48)).
Proof.
  apply (@parsePayload_buildPayload toyPlatform sampleEnvelope);
    vm_compute; reflexivity.
Defined.

Lemma parsePayload_fields_witness :
  exists c hashLength,
    getUint32 truncatedPayload 0 = Returned c /\
    getUint32 truncatedPayload (32 + c) = Returned hashLength /\
    0 <= c /\ 36 + c <= Z.of_nat (length truncatedPayload) /\
    Z.of_nat (length (@nil Z)) = c /\
    length (replicate 12 1) = 12%nat /\ length (replicate 16 2) = 16%nat /\
    @nil Z = @textDecode toyPlatform
               (slice truncatedPayload (36 + c) (36 + c + hashLength)) /\
    Z.of_nat (length (slice truncatedPayload (36 + c) (36 + c + hashLength))) =
      Z.min hashLength (Z.of_nat (length truncatedPayload) - (36 + c)).
Proof.
  apply (@parsePayload_fields toyPlatform truncatedPayload
           [] (replicate 12 1) (replicate 16 2) []).
  - unfold truncatedPayload. rewrite !Forall_app.
    repeat split;
      (apply bytesOfUint32_bytes || (apply Forall_replicate; unfold is_byte; lia)).
  - vm_compute. reflexivity.
Defined.

(** ** Extraction from images that carry nothing *)

Lemma readBits_constant positions pixels bit from count :
  (forall i, (from <= i < from + count)%nat -> readOne positions pixels i = bit) ->
  readBits positions pixels from count = replicate count bit.
Proof.
  unfold readBits. revert from.
  induction count as [|count IH]; intros from Hall; [reflexivity|].
  cbn [seq map replicate]. rewrite Hall by lia. f_equal.
  apply IH. intros i Hi. apply Hall. lia.
Qed.

Lemma extractBit_parity v : extractBit v = if Z.even v then 0 else 1.
Proof.
  unfold extractBit.
  pose proof (Z.land_ones v 1 ltac:(lia)) as H.
  change (Z.ones 1) with 1 in H. change (2 ^ 1) with 2 in H.
  rewrite H. apply Zmod_even.
Qed.

Lemma readOne_even positions pixels i :
  Forall (fun v => Z.even v = true) pixels ->
  readOne positions pixels i = 0.
Proof.
  intros Heven. unfold readOne.
  destruct (channelIndex positions i) as [k|]; [|reflexivity].
  rewrite extractBit_parity. unfold readAt.
  destruct (k <? 0); [reflexivity|].
  destruct (pixels !! Z.to_nat k) as [v|] eqn:E; simpl; [|reflexivity].
  rewrite (proj1 (Forall_lookup _ _) Heven _ _ E). reflexivity.
Qed.

Lemma readOne_odd positions pixels totalPixels i :
  Forall (fun v => Z.even v = false) pixels ->
  Z.of_nat (length pixels) = totalPixels * 4 ->
  (forall p, p ∈ positions -> 0 <= p < totalPixels) ->
  (i < length positions)%nat ->
  readOne positions pixels i = 1.
Proof.
  intros Hodd Hlen Hrange Hi. unfold readOne, channelIndex.
  destruct (lookup_lt_is_Some_2 positions i Hi) as [p Hp]. rewrite Hp.
  pose proof (Hrange p (list_elem_of_lookup_2 _ _ _ Hp)) as Hp'.
  pose proof (Z.mod_pos_bound (Z.of_nat i) 3 ltac:(lia)) as Hch.
  rewrite extractBit_parity. unfold readAt.
  destruct (Z.ltb_spec (p * 4 + Z.of_nat i mod 3) 0); [lia|].
  destruct (lookup_lt_is_Some_2 pixels (Z.to_nat (p * 4 + Z.of_nat i mod 3)))
    as [v Hv]; [lia|].
  rewrite Hv. simpl.
  rewrite (proj1 (Forall_lookup _ _) Hodd _ _ Hv). reflexivity.
Qed.

Section Unmarked.
Context {P : Platform}.

(** X11. An image with 1 to 21 pixels is refused with 'Image too small for
    data payload'; on an image with 22 to 63 pixels extraction never
    returns, because the 64 positions drawn for the length header cannot
    be distinct. *)
Theorem extract_small_image fuel image password :
  (0 < width image * height image /\ width image * height image * 3 < 64 ->
   extractDataFromImage fuel image password =
     Some (ExtractionFailure "Image too small for data payload")) /\
  (width image * height image < 64 <= width image * height image * 3 ->
   extractDataFromImage fuel image password = None).
Proof.
  unfold extractDataFromImage, extractBody. split; intros Hsize.
  - destruct Hsize as [_ Hsize]. unfold generatePixelPositions. cbv zeta.
    destruct (Z.gtb_spec (32 + 4 * 8) (width image * height image * 3));
      [reflexivity | lia].
  - rewrite generatePixelPositions_at_most_pixels
      by (unfold setMaxSize; lia).
    reflexivity.
Qed.

(** X12. An image whose channel values are all even (a black or otherwise
    unmarked flat image) reads as a payload of length zero, and extraction
    fails in the parser with the DataView bounds error. *)
Theorem extract_all_even image password :
  Forall (fun v => Z.even v = true) (pixels image) ->
  64 <= width image * height image <= 2 ^ 32 - 1024 ->
  exists fuel,
    extractDataFromImage fuel image password =
      Some (ExtractionFailure "Offset is outside the bounds of the DataView").
Proof.
  intros Heven Hsize.
  destruct (generatePixelPositions_terminates (width image) (height image) 4
              password) as (fuel & header & Hgen);
    [lia | lia | unfold setMaxSize; lia |].
  exists fuel. unfold extractDataFromImage, extractBody.
  rewrite Hgen. cbn [obind].
  rewrite (readBits_constant _ _ 0)
    by (intros; apply readOne_even; exact Heven).
  change (bitsToData (replicate 32 0)) with [0; 0; 0; 0].
  change (getUint32 [0; 0; 0; 0] 0) with (Returned 0).
  cbn [obind liftO].
  rewrite (generatePixelPositions_prefix fuel _ _ password 0 4 header)
    by (lia || exact Hgen).
  cbn [obind]. reflexivity.
Qed.

(** X13. An image whose channel values are all odd (a white image, say) reads
    as a payload of 2^32 - 1 bytes, and extraction fails with 'Image too
    small for data payload'. *)
Theorem extract_all_odd image password :
  Forall (fun v => Z.even v = false) (pixels image) ->
  Z.of_nat (length (pixels image)) = width image * height image * 4 ->
  64 <= width image * height image <= 2 ^ 32 - 1024 ->
  exists fuel,
    extractDataFromImage fuel image password =
      Some (ExtractionFailure "Image too small for data payload").
Proof.
  intros Hodd Hlen Hsize.
  destruct (generatePixelPositions_terminates (width image) (height image) 4
              password) as (fuel & header & Hgen);
    [lia | lia | unfold setMaxSize; lia |].
  pose proof (generatePixelPositions_returned _ _ _ _ _ _ Hgen)
    as (_ & Hcount & _ & _ & Hrange).
  exists fuel. unfold extractDataFromImage, extractBody.
  rewrite Hgen. cbn [obind].
  rewrite (readBits_constant _ _ 1).
  2:{ intros i Hi.
      apply (readOne_odd _ _ (width image * height image)); try assumption.
      - intros p Hp. apply Hrange. exact (subseteq_take 32 header p Hp).
      - rewrite length_take. lia. }
  change (bitsToData (replicate 32 1)) with [255; 255; 255; 255].
  change (getUint32 [255; 255; 255; 255] 0) with (Returned 4294967295).
  cbn [obind liftO].
  unfold generatePixelPositions. cbv zeta.
  destruct (Z.gtb_spec (32 + 4294967295 * 8) (width image * height image * 3));
    [reflexivity | lia].
Qed.

End Unmarked.

Lemma extract_small_image_witness :
  @extractDataFromImage toyPlatform 10
    {| width := 3; height := 7; pixels := replicate 84 0 |} (js "pw") =
    Some (ExtractionFailure "Image too small for data payload") /\
  @extractDataFromImage toyPlatform 10
    {| width := 5; height := 5; pixels := replicate 100 0 |} (js "pw") = None.
Proof.
  split.
  - apply (@extract_small_image toyPlatform 10
             {| width := 3; height := 7; pixels := replicate 84 0 |} (js "pw")).
    cbn [width height]. lia.
  - apply (@extract_small_image toyPlatform 10
             {| width := 5; height := 5; pixels := replicate 100 0 |} (js "pw")).
    cbn [width height]. lia.
Defined.

Lemma extract_all_even_witness :
  exists fuel,
    @extractDataFromImage toyPlatform fuel plainCover (js "pw") =
      Some (ExtractionFailure "Offset is outside the bounds of the DataView").
Proof.
  apply (@extract_all_even toyPlatform plainCover (js "pw")).
  - apply Forall_replicate. reflexivity.
  - cbn [plainCover width height]. lia.
Defined.

Lemma extract_all_odd_witness :
  exists fuel,
    @extractDataFromImage toyPlatform fuel
      {| width := 8; height := 8; pixels := replicate 256 255 |} (js "pw") =
      Some (ExtractionFailure "Image too small for data payload").
Proof.
  apply (@extract_all_odd toyPlatform
           {| width := 8; height := 8; pixels := replicate 256 255 |} (js "pw")).
  - apply Forall_replicate. reflexivity.
  - reflexivity.
  - cbn [width height]. lia.
Defined.

(** ** Passwords with the same seed *)

Section SameSeed.
Context {P : Platform} {HL : PlatformLaws P}.

(** X14. The password places the bits only through its 32-bit seed: any other
    password with the same seed extracts the envelope from the image. *)
Theorem extract_with_colliding_password fuel image er password password'
    image' stats :
  wf_image image ->
  Forall is_byte (encryptedData er) ->
  Forall is_byte (iv er) -> Forall is_byte (salt er) ->
  length (iv er) = 12%nat -> length (salt er) = 16%nat ->
  PRNG.new password' = PRNG.new password ->
  embedDataInImage fuel image er password = Some (StegoSuccess image' stats) ->
  extractDataFromImage fuel image' password' =
    Some (ExtractionSuccess (encryptedData er) (iv er) (salt er)
            (textDecode (textEncode (hash er)))).
Proof.
  intros Hwf Hct Hiv Hsalt Hn12 Hs16 Hseed Hembed.
  rewrite (extract_same_seed _ _ _ _ Hseed).
  eapply extract_embed; eassumption.
Qed.

End SameSeed.

Lemma extract_with_colliding_password_witness :
  js "BB" <> js "Aa" /\
  exists fuel image' stats,
    @embedDataInImage toyPlatform fuel plainCover shortEnvelope (js "Aa") =
      Some (StegoSuccess image' stats) /\
    @extractDataFromImage toyPlatform fuel image' (js "BB") =
      Some (ExtractionSuccess (encryptedData shortEnvelope) (iv shortEnvelope)
              (salt shortEnvelope)
              (@textDecode toyPlatform
                 (@textEncode toyPlatform (hash shortEnvelope)))).
Proof.
  split; [discriminate|].
  destruct (@embed_returns toyPlatform plainCover shortEnvelope (js "Aa"))
    as (fuel & image' & stats & Hembed);
    [reflexivity | reflexivity | vm_compute; split; discriminate |].
  exists fuel, image', stats. split; [exact Hembed|].
  apply (@extract_with_colliding_password toyPlatform toyPlatform_laws
           fuel plainCover shortEnvelope (js "Aa") (js "BB") image' stats).
  - exact wf_plainCover.
  - apply (@aesGcmEncrypt_bytes toyPlatform toyPlatform_laws).
    apply (@textEncode_bytes toyPlatform toyPlatform_laws).
  - apply Forall_replicate. unfold is_byte. lia.
  - apply Forall_replicate. unfold is_byte. lia.
  - reflexivity.
  - reflexivity.
  - reflexivity.
  - exact Hembed.
Defined.

(** ** Embedding twice *)

Lemma embedOne_same positions i bit pixels :
  Forall is_byte pixels ->
  readOne positions pixels i = bit ->
  embedOne positions i bit pixels = pixels.
Proof.
  intros Hbytes. unfold readOne, embedOne.
  destruct (channelIndex positions i) as [k|]; [|reflexivity].
  intros <-. unfold writeClamped, readAt.
  destruct (k <? 0); [reflexivity|].
  destruct (pixels !! Z.to_nat k) as [v|] eqn:E; simpl.
  - pose proof (proj1 (Forall_lookup _ _) Hbytes _ _ E) as Hv.
    assert (H : forall b, is_byte b ->
              (clampUint8 (embedBit b (extractBit b)) =? b) = true).
    { apply byte_cases. vm_compute. reflexivity. }
    rewrite (proj1 (Z.eqb_eq _ _) (H v Hv)).
    apply list_insert_id. exact E.
  - apply list_insert_ge. apply lookup_ge_None. exact E.
Qed.

Lemma embedBits_same positions bits :
  forall i pixels,
    Forall is_byte pixels ->
    readBits positions pixels i (length bits) = bits ->
    embedBits positions i bits pixels = pixels.
Proof.
  induction bits as [|b bits IH]; intros i pixels Hbytes Hread; [reflexivity|].
  unfold readBits in Hread. cbn [length seq map] in Hread.
  injection Hread as Hb Hrest.
  cbn [embedBits]. rewrite (embedOne_same _ _ _ _ Hbytes Hb).
  apply IH; assumption.
Qed.

Section Twice.
Context {P : Platform}.

(** X15. Embedding is idempotent on the image: embedding the same envelope
    with the same password into the image that embedding produced succeeds
    and gives that image again.  (Nothing is said of the statistics: the
    size of the file, which they report, is not that of the first file.) *)
Theorem embed_idempotent fuel image er password image' stats :
  wf_image image ->
  embedDataInImage fuel image er password = Some (StegoSuccess image' stats) ->
  exists stats',
    embedDataInImage fuel image' er password =
      Some (StegoSuccess image' stats').
Proof.
  intros Hwf Hembed.
  destruct (embedDataInImage_success _ _ _ _ _ _ Hembed)
    as (payload & positions & Hbuild & Hgen & Himage).
  pose proof (readBits_allBits _ _ _ _ _ Hwf Hgen) as Hread.
  destruct Hwf as (_ & _ & _ & Hbytes).
  pose proof (embedBits_frame positions _ (allBits_bits payload) 0%nat
                (pixels image) Hbytes) as (Hbytes' & _ & _).
  revert Hembed. unfold embedDataInImage, embedBody.
  rewrite Hbuild. cbn [obind liftO]. cbv zeta.
  subst image'. cbn [width height pixels].
  rewrite Hgen. cbn [obind]. intros _. eexists.
  rewrite embedBits_same; [reflexivity | exact Hbytes' |].
  rewrite length_allBits. exact Hread.
Qed.

End Twice.

Lemma embed_idempotent_witness :
  exists fuel image' stats,
    @embedDataInImage toyPlatform fuel plainCover shortEnvelope (js "Str0ngPass!")
      = Some (StegoSuccess image' stats) /\
    exists stats',
      @embedDataInImage toyPlatform fuel image' shortEnvelope
        (js "Str0ngPass!") = Some (StegoSuccess image' stats').
Proof.
  destruct (@embed_returns toyPlatform plainCover shortEnvelope (js "Str0ngPass!"))
    as (fuel & image' & stats & Hembed);
    [reflexivity | reflexivity | vm_compute; split; discriminate |].
  exists fuel, image', stats. split; [exact Hembed|].
  exact (@embed_idempotent toyPlatform fuel plainCover shortEnvelope
           (js "Str0ngPass!") image' stats wf_plainCover Hembed).
Defined.

(** ** The hash text and the integrity flag *)

Lemma hexByte_inj a b :
  is_byte a -> is_byte b -> hexByte a = hexByte b -> a = b.
Proof.
  unfold is_byte, hexByte, hexDigit. intros Ha Hb [= H1 H2].
  assert (Hq : a / 16 = b / 16).
  { destruct (Z.ltb_spec (a / 16) 10), (Z.ltb_spec (b / 16) 10); try lia;
      pose proof (Z.div_lt_upper_bound a 16 16 ltac:(lia) ltac:(lia));
      pose proof (Z.div_lt_upper_bound b 16 16 ltac:(lia) ltac:(lia)); lia. }
  assert (Hr : a mod 16 = b mod 16).
  { pose proof (Z.mod_pos_bound a 16 ltac:(lia)).
    pose proof (Z.mod_pos_bound b 16 ltac:(lia)).
    destruct (Z.ltb_spec (a mod 16) 10), (Z.ltb_spec (b mod 16) 10); lia. }
  rewrite (Z.div_mod a 16), (Z.div_mod b 16) by lia. rewrite Hq, Hr. reflexivity.
Qed.

Lemma hex_inj l :
  Forall is_byte l ->
  forall l', Forall is_byte l' ->
    flat_map hexByte l = flat_map hexByte l' -> l = l'.
Proof.
  induction 1 as [|a l Ha _ IH]; intros l' Hl' Heq.
  - destruct l'; [reflexivity | discriminate].
  - destruct Hl' as [|b l' Hb Hl']; [discriminate|].
    cbn [flat_map hexByte app] in Heq.
    injection Heq as H1 H2 Hrest.
    assert (a = b) as <-.
    { apply hexByte_inj; [assumption..|]. unfold hexByte. congruence. }
    f_equal. apply IH; assumption.
Qed.

Lemma hexByte_digits b :
  is_byte b ->
  Forall (fun c => 48 <= c <= 57 \/ 97 <= c <= 102) (hexByte b).
Proof.
  intros Hb.
  assert (H : forall b, is_byte b ->
            forallb (fun c => ((48 <=? c) && (c <=? 57)) ||
                              ((97 <=? c) && (c <=? 102))) (hexByte b) = true).
  { apply byte_cases. vm_compute. reflexivity. }
  specialize (H b Hb). rewrite forallb_forall in H.
  apply Forall_forall. intros c Hc%list_elem_of_In%H. lia.
Qed.

Section HashText.
Context {P : Platform} {HL : PlatformLaws P}.

(** X16. [generateHash] writes two lowercase hexadecimal digits for every byte
    of the digest, and two messages have the same hash text exactly when
    they have the same digest. *)
Theorem generateHash_hex message :
  length (generateHash message) =
    (2 * length (sha256 (textEncode message)))%nat /\
  Forall (fun c => 48 <= c <= 57 \/ 97 <= c <= 102) (generateHash message) /\
  forall message',
    generateHash message = generateHash message' <->
    sha256 (textEncode message) = sha256 (textEncode message').
Proof.
  unfold generateHash. split; [|split].
  - generalize (sha256 (textEncode message)). intros l.
    induction l as [|b l IH]; [reflexivity|].
    cbn [flat_map hexByte app length]. rewrite IH. lia.
  - pose proof (sha256_bytes (textEncode message)) as Hbytes.
    induction Hbytes as [|b l Hb _ IH]; cbn [flat_map]; [constructor|].
    apply Forall_app. split; [apply hexByte_digits, Hb | exact IH].
  - intros message'. split; [|intros ->; reflexivity].
    apply hex_inj; apply sha256_bytes.
Qed.


End HashText.

Lemma generateHash_hex_witness :
  length (@generateHash toyPlatform (js "hi")) = 64%nat /\
  Forall (fun c => 48 <= c <= 57 \/ 97 <= c <= 102)
    (@generateHash toyPlatform (js "hi")).
Proof.
  destruct (@generateHash_hex toyPlatform toyPlatform_laws (js "hi"))
    as (Hlen & Hhex & _).
  split; [exact Hlen | exact Hhex].
Defined.


(** ** The page handlers *)

Lemma trimStart_nil s :
  Page.trimStart s = [] <-> Forall (fun c => Page.isWhiteSpace c = true) s.
Proof.
  induction s as [|c s IH]; cbn [Page.trimStart].
  - split; [constructor | reflexivity].
  - destruct (Page.isWhiteSpace c) eqn:E.
    + rewrite IH. split; [intros H; constructor; assumption|].
      intros H. inversion H. assumption.
    + split; [discriminate|]. intros H. inversion H. congruence.
Qed.

Lemma trimStart_suffix s :
  exists prefix,
    s = prefix ++ Page.trimStart s /\
    Forall (fun c => Page.isWhiteSpace c = true) prefix.
Proof.
  induction s as [|c s (prefix & Hs & Hws)]; cbn [Page.trimStart].
  - exists []. split; [reflexivity | constructor].
  - destruct (Page.isWhiteSpace c) eqn:E.
    + exists (c :: prefix). split; [cbn [app]; f_equal; exact Hs|].
      constructor; assumption.
    + exists []. split; [reflexivity | constructor].
Qed.

Lemma trim_nil s :
  Page.trim s = [] <-> Forall (fun c => Page.isWhiteSpace c = true) s.
Proof.
  unfold Page.trim.
  destruct (trimStart_suffix s) as (prefix & Hs & Hws).
  split.
  - intros H. apply (f_equal (@rev Z)) in H. rewrite rev_involutive in H.
    cbn [rev] in H. apply trimStart_nil in H.
    apply Forall_rev in H. rewrite rev_involutive in H.
    rewrite Hs. apply Forall_app. split; assumption.
  - intros H. rewrite Hs in H. apply Forall_app in H. destruct H as [_ H].
    apply Forall_rev in H. apply trimStart_nil in H. rewrite H. reflexivity.
Qed.

Lemma truthy_true s : Page.truthy s = true <-> s <> [].
Proof.
  unfold Page.truthy. rewrite negb_true_iff, bool_decide_eq_false. reflexivity.
Qed.

Lemma truthy_false s : Page.truthy s = false <-> s = [].
Proof.
  unfold Page.truthy. rewrite negb_false_iff, bool_decide_eq_true. reflexivity.
Qed.

Section PageProperties.
Context {P : Platform} {HL : PlatformLaws P}.

(** X18. [handleEmbedMessage] refuses with 'Missing Information', leaving the
    state as it was, exactly when no image is selected, the message has
    only white space in it (or nothing), or the password is empty. *)
Theorem handleEmbedMessage_guard fuel st randomSalt randomIv st' toast :
  Page.handleEmbedMessage fuel st randomSalt randomIv = Some (st', toast) ->
  (Page.title toast = "Missing Information"%string <->
   Page.selectedImage st = None \/
   Forall (fun c => Page.isWhiteSpace c = true) (Page.message st) \/
   Page.password st = []) /\
  (Page.title toast = "Missing Information"%string -> st' = st).
Proof.
  unfold Page.handleEmbedMessage.
  destruct (Page.selectedImage st) as [image|].
  2:{ intros [= <- <-]. cbn [Page.title]. split; [|reflexivity].
      split; [left; reflexivity | reflexivity]. }
  destruct (Page.truthy (Page.trim (Page.message st))) eqn:Hm;
    [destruct (Page.truthy (Page.password st)) eqn:Hp|]; cbn [andb].
  - apply truthy_true in Hm, Hp. rewrite trim_nil in Hm.
    destruct (embedDataInImage _ _ _ _) as [[image' stats'|e]|];
      [| |discriminate]; intros [= <- <-]; cbn [Page.title];
      (split; [split; [discriminate | intros [?|[?|?]]; [discriminate|tauto..]]
              | discriminate]).
  - apply truthy_false in Hp. intros [= <- <-]. cbn [Page.title].
    split; [|reflexivity]. split; [right; right; exact Hp | reflexivity].
  - apply truthy_false, trim_nil in Hm. intros [= <- <-]. cbn [Page.title].
    split; [|reflexivity]. split; [right; left; exact Hm | reflexivity].
Qed.

(** X19. The page round trip: with an image selected, a message that is not
    blank and that the text codec round-trips, a password, and a cover
    with a pixel per bit for at most 2^24 bits, [handleEmbedMessage] ends
    in status 'success' with an image; and [handleExtractMessage] on that
    image with the same password, from any state, ends in status
    'verified' showing the message and its hash. *)
Theorem page_round_trip st randomSalt randomIv image :
  Page.selectedImage st = Some image ->
  Page.trim (Page.message st) <> [] ->
  Page.password st <> [] ->
  textDecode (textEncode (Page.message st)) = Page.message st ->
  Forall is_byte randomSalt -> length randomSalt = 16%nat ->
  Forall is_byte randomIv -> length randomIv = 12%nat ->
  wf_image image ->
  let er := encryptMessage (Page.message st) (Page.password st)
              randomSalt randomIv in
  32 + 8 * (36 + Z.of_nat (length (encryptedData er)) +
            Z.of_nat (length (textEncode (hash er))))
    <= width image * height image /\
  32 + 8 * (36 + Z.of_nat (length (encryptedData er)) +
            Z.of_nat (length (textEncode (hash er))))
    <= setMaxSize ->
  exists fuel st1 toast1 image',
    Page.handleEmbedMessage fuel st randomSalt randomIv = Some (st1, toast1) /\
    Page.status st1 = Page.success /\
    Page.progress st1 = 100 /\
    Page.modifiedImageBlob st1 = Some image' /\
    forall st2,
      Page.extractImage st2 = Some image' ->
      Page.extractPassword st2 = Page.password st ->
      exists st3 toast3,
        Page.handleExtractMessage fuel st2 = Some (st3, toast3) /\
        Page.status st3 = Page.verified /\
        Page.extractedMessage st3 = Page.message st /\
        Page.integrityStatus st3 =
          Some {| Page.integrityValid := true;
                  Page.integrityHash := generateHash (Page.message st) |} /\
        Page.title toast3 = "Message Verified!"%string.
Proof.
  intros Himage Hmessage Hpassword Htext Hsalt Hs16 Hiv Hn12 Hwf er Hcap.
  destruct (embed_returns image er (Page.password st) Hn12 Hs16 Hcap)
    as (fuel & image' & stats & Hembed).
  assert (Hnonempty : Page.message st <> []).
  { intros H. apply Hmessage. rewrite H. reflexivity. }
  exists fuel. unfold Page.handleEmbedMessage.
  rewrite Himage.
  rewrite (proj2 (truthy_true _) Hmessage), (proj2 (truthy_true _) Hpassword).
  cbn [andb]. fold er. rewrite Hembed.
  eexists _, _, image'. split; [reflexivity|].
  cbn [Page.status Page.progress Page.modifiedImageBlob].
  split; [reflexivity|]. split; [reflexivity|]. split; [reflexivity|].
  intros st2 Himage2 Hpassword2.
  unfold Page.handleExtractMessage. rewrite Himage2, Hpassword2.
  rewrite (proj2 (truthy_true _) Hpassword).
  rewrite (extract_embed fuel image er (Page.password st) image' stats Hwf)
    by (assumption ||
        (apply aesGcmEncrypt_bytes; apply textEncode_bytes) || exact Hembed).
  pose proof (decrypt_encrypt (Page.message st) (Page.password st)
                randomSalt randomIv Htext) as Hdecrypt.
  cbv zeta in Hdecrypt. fold er in Hdecrypt. rewrite Hdecrypt.
  cbn [decryptedMessage isValid actualHash].
  rewrite (proj2 (truthy_true _) Hnonempty).
  eexists _, _. split; [reflexivity|].
  cbn [Page.status Page.extractedMessage Page.integrityStatus Page.title].
  repeat split.
Qed.

(** X20. A failed extraction sets status 'error' and clears the integrity
    status, but the message extracted before stays on the page. *)
Theorem failed_extraction_keeps_message fuel st st' toast :
  Page.handleExtractMessage fuel st = Some (st', toast) ->
  Page.title toast = "Extraction Failed"%string ->
  Page.status st' = Page.error /\
  Page.integrityStatus st' = None /\
  Page.extractedMessage st' = Page.extractedMessage st.
Proof.
  unfold Page.handleExtractMessage, Page.extractFailed.
  destruct (Page.extractImage st) as [image|];
    [|intros [= <- <-]; discriminate].
  destruct (Page.truthy (Page.extractPassword st));
    [|intros [= <- <-]; discriminate].
  destruct (extractDataFromImage _ _ _) as [[ct nonce slt h|e]|];
    [| |discriminate].
  - destruct (Page.truthy _).
    + destruct (isValid _); intros [= <- <-]; discriminate.
    + intros [= <- <-] _. repeat split.
  - intros [= <- <-] _. repeat split.
Qed.

(** X21. An image that carries the envelope of the empty message is reported as
    'Decryption failed - incorrect password or corrupted data', although
    the password is the right one and decryption succeeded. *)
Theorem empty_message_reported_as_failure fuel st cover password
    randomSalt randomIv image stats :
  wf_image cover ->
  Forall is_byte randomSalt -> length randomSalt = 16%nat ->
  Forall is_byte randomIv -> length randomIv = 12%nat ->
  password <> [] ->
  embedDataInImage fuel cover (encryptMessage [] password randomSalt randomIv)
    password = Some (StegoSuccess image stats) ->
  Page.extractImage st = Some image ->
  Page.extractPassword st = password ->
  exists st' toast,
    Page.handleExtractMessage fuel st = Some (st', toast) /\
    Page.status st' = Page.error /\
    Page.description toast =
      "Decryption failed - incorrect password or corrupted data"%string.
Proof.
  intros Hwf Hsalt Hs16 Hiv Hn12 Hpassword Hembed Himage Hpw. subst password.
  unfold Page.handleExtractMessage. rewrite Himage.
  rewrite (proj2 (truthy_true _) Hpassword).
  rewrite (extract_embed fuel cover
             (encryptMessage [] (Page.extractPassword st) randomSalt randomIv)
             (Page.extractPassword st) image stats Hwf)
    by (assumption ||
        (apply aesGcmEncrypt_bytes; apply textEncode_bytes) || exact Hembed).
  assert (Htext : textDecode (textEncode []) = []).
  { rewrite textEncode_ascii by constructor.
    apply textDecode_ascii. constructor. }
  pose proof (decrypt_encrypt [] (Page.extractPassword st)
                randomSalt randomIv Htext) as Hdecrypt.
  cbv zeta in Hdecrypt. rewrite Hdecrypt.
  cbn [decryptedMessage]. eexists _, _. split; [reflexivity|].
  split; reflexivity.
Qed.

End PageProperties.

Lemma handleEmbedMessage_guard_witness :
  let st := embeddingPage plainCover [32; 9; 10; 160] (js "Str0ngPass!") in
  exists toast,
    @Page.handleEmbedMessage toyPlatform 0 st (replicate 16 2) (replicate 12 1)
      = Some (st, toast) /\
    (Page.title toast = "Missing Information"%string <->
     Page.selectedImage st = None \/
     Forall (fun c => Page.isWhiteSpace c = true) (Page.message st) \/
     Page.password st = []).
Proof.
  intros st.
  destruct (@Page.handleEmbedMessage toyPlatform 0 st (replicate 16 2)
              (replicate 12 1)) as [[st' toast]|] eqn:E;
    [|vm_compute in E; discriminate].
  pose proof (@handleEmbedMessage_guard toyPlatform 0 st
                (replicate 16 2) (replicate 12 1) st' toast E) as [Hiff _].
  vm_compute in E. injection E as <- <-.
  eexists. split; [reflexivity | exact Hiff].
Defined.

Lemma page_round_trip_witness :
  let st := embeddingPage plainCover (js "hi") (js "Str0ngPass!") in
  exists fuel st1 toast1 image',
    @Page.handleEmbedMessage toyPlatform fuel st (replicate 16 2)
      (replicate 12 1) = Some (st1, toast1) /\
    Page.status st1 = Page.success /\
    Page.progress st1 = 100 /\
    Page.modifiedImageBlob st1 = Some image' /\
    forall st2,
      Page.extractImage st2 = Some image' ->
      Page.extractPassword st2 = Page.password st ->
      exists st3 toast3,
        @Page.handleExtractMessage toyPlatform fuel st2 = Some (st3, toast3) /\
        Page.status st3 = Page.verified /\
        Page.extractedMessage st3 = Page.message st /\
        Page.integrityStatus st3 =
          Some {| Page.integrityValid := true;
                  Page.integrityHash :=
                    @generateHash toyPlatform (Page.message st) |} /\
        Page.title toast3 = "Message Verified!"%string.
Proof.
  intros st.
  apply (@page_round_trip toyPlatform toyPlatform_laws st
           (replicate 16 2) (replicate 12 1) plainCover).
  - reflexivity.
  - vm_compute. discriminate.
  - discriminate.
  - vm_compute. reflexivity.
  - apply Forall_replicate. unfold is_byte. lia.
  - reflexivity.
  - apply Forall_replicate. unfold is_byte. lia.
  - reflexivity.
  - exact wf_plainCover.
  - vm_compute. split; discriminate.
Defined.

Lemma failed_extraction_keeps_message_witness :
  let st := extractionPage {| width := 3; height := 7; pixels := replicate 84 0 |}
              (js "Str0ngPass!") (js "old secret") in
  exists st' toast,
    @Page.handleExtractMessage toyPlatform 10 st = Some (st', toast) /\
    Page.status st' = Page.error /\
    Page.integrityStatus st' = None /\
    Page.extractedMessage st' = js "old secret".
Proof.
  intros st.
  destruct (@Page.handleExtractMessage toyPlatform 10 st) as [[st' toast]|] eqn:E;
    [|vm_compute in E; discriminate].
  exists st', toast. split; [reflexivity|].
  apply (@failed_extraction_keeps_message toyPlatform 10 st
           st' toast E).
  vm_compute in E. injection E as _ <-. reflexivity.
Defined.

Lemma empty_message_reported_as_failure_witness :
  exists fuel image stats,
    @embedDataInImage toyPlatform fuel plainCover
      (@encryptMessage toyPlatform [] (js "Str0ngPass!")
         (replicate 16 2) (replicate 12 1))
      (js "Str0ngPass!") = Some (StegoSuccess image stats) /\
    exists st' toast,
      @Page.handleExtractMessage toyPlatform fuel
        (extractionPage image (js "Str0ngPass!") []) = Some (st', toast) /\
      Page.status st' = Page.error /\
      Page.description toast =
        "Decryption failed - incorrect password or corrupted data"%string.
Proof.
  destruct (@embed_returns toyPlatform plainCover
              (@encryptMessage toyPlatform [] (js "Str0ngPass!")
                 (replicate 16 2) (replicate 12 1)) (js "Str0ngPass!"))
    as (fuel & image & stats & Hembed);
    [reflexivity | reflexivity | vm_compute; split; discriminate |].
  exists fuel, image, stats. split; [exact Hembed|].
  apply (@empty_message_reported_as_failure toyPlatform toyPlatform_laws fuel
           (extractionPage image (js "Str0ngPass!") []) plainCover
           (js "Str0ngPass!") (replicate 16 2) (replicate 12 1) image stats).
  - exact wf_plainCover.
  - apply Forall_replicate. unfold is_byte. lia.
  - reflexivity.
  - apply Forall_replicate. unfold is_byte. lia.
  - reflexivity.
  - discriminate.
  - exact Hembed.
  - reflexivity.
  - reflexivity.
Defined.

(** ** The buttons and the guards *)

Section Buttons.
Context {P : Platform}.

(** X22. While a button is enabled, the handler it calls finds an image and a
    password of at least eight code units (and, for embedding, a message
    that is not blank): it never answers 'Missing Information'. *)
Theorem enabled_buttons_pass_guards fuel st randomSalt randomIv st' toast :
  (Page.embedDisabled st = false ->
   Page.handleEmbedMessage fuel st randomSalt randomIv = Some (st', toast) ->
   (8 <= length (Page.password st))%nat /\
   Page.title toast <> "Missing Information"%string) /\
  (Page.extractDisabled st = false ->
   Page.handleExtractMessage fuel st = Some (st', toast) ->
   (8 <= length (Page.extractPassword st))%nat /\
   Page.title toast <> "Missing Information"%string).
Proof.
  split.
  - unfold Page.embedDisabled, Page.handleEmbedMessage. cbv zeta.
    rewrite !orb_false_iff, !negb_false_iff.
    intros [[[Hm Hp] Hi] _].
    apply Z.ltb_lt in Hm. apply Z.leb_le in Hp.
    destruct (Page.selectedImage st) as [image|]; [|discriminate].
    assert (Hm' : Page.truthy (Page.trim (Page.message st)) = true).
    { apply truthy_true. intros H. rewrite H in Hm. simpl in Hm. lia. }
    assert (Hp' : Page.truthy (Page.password st) = true).
    { apply truthy_true. intros H. rewrite H in Hp. simpl in Hp. lia. }
    rewrite Hm', Hp'. cbn [andb].
    destruct (embedDataInImage _ _ _ _) as [[image' stats'|e]|];
      [| |discriminate]; intros [= <- <-]; cbn [Page.title];
      (split; [lia | discriminate]).
  - unfold Page.extractDisabled, Page.handleExtractMessage, Page.extractFailed.
    cbv zeta. rewrite !orb_false_iff.
    intros [[Hp Hi] _]. apply Z.ltb_ge in Hp.
    destruct (Page.extractImage st) as [image|]; [|discriminate].
    assert (Hp' : Page.truthy (Page.extractPassword st) = true).
    { apply truthy_true. intros H. rewrite H in Hp. simpl in Hp. lia. }
    rewrite Hp'. clear Hp'.
    destruct (extractDataFromImage _ _ _) as [[ct nonce slt h|e]|];
      [| |discriminate].
    + destruct (Page.truthy _); [destruct (isValid _)|];
        intros [= <- <-]; cbn [Page.title]; (split; [lia | discriminate]).
    + intros [= <- <-]; cbn [Page.title]. split; [lia | discriminate].
Qed.

End Buttons.

Lemma enabled_buttons_pass_guards_witness :
  let st := extractionPage {| width := 3; height := 7; pixels := replicate 84 0 |}
              (js "Str0ngPass!") [] in
  exists st' toast,
    @Page.handleExtractMessage toyPlatform 10 st = Some (st', toast) /\
    (8 <= length (Page.extractPassword st))%nat /\
    Page.title toast <> "Missing Information"%string.
Proof.
  intros st.
  destruct (@Page.handleExtractMessage toyPlatform 10 st) as [[st' toast]|] eqn:E;
    [|vm_compute in E; discriminate].
  exists st', toast. split; [reflexivity|].
  apply (proj2 (@enabled_buttons_pass_guards toyPlatform 10 st [] [] st' toast));
    [reflexivity | exact E].
Defined.

(** ** Images on which extraction never returns *)

Section Stuck.
Context {P : Platform}.

(** X23. Extraction can hang: for every cover of 64 to 2^24 pixels (what a
    set holds) and every length [L] with more bits than pixels but at most
    three bits per pixel, writing the header of [L] at the scheduled
    positions gives an image of the same size on which
    [extractDataFromImage] never returns, whatever the fuel. *)
Theorem extract_never_returns cover password L :
  wf_image cover ->
  64 <= width cover * height cover <= setMaxSize ->
  width cover * height cover < 32 + L * 8 <= width cover * height cover * 3 ->
  exists image,
    wf_image image /\
    width image = width cover /\ height image = height cover /\
    forall fuel, extractDataFromImage fuel image password = None.
Proof.
  intros Hwf Hsize HL.
  destruct (generatePixelPositions_terminates (width cover) (height cover) 4
              password) as (fuel0 & header & Hgen0);
    [lia | lia | unfold setMaxSize; lia |].
  pose proof (generatePixelPositions_prefix fuel0 _ _ password 0 4 header
                ltac:(lia) Hgen0) as Hgen32.
  change (Z.to_nat (32 + 0 * 8)) with 32%nat in Hgen32.
  set (bits := dataToBits (lengthHeader L)).
  assert (Hbits : forall b, b ∈ bits -> b = 0 \/ b = 1)
    by (intros b; apply dataToBits_bit).
  assert (Hcount : length bits = 32%nat) by reflexivity.
  pose proof (readBits_scheduled fuel0 cover 0 password (take 32 header) bits
                Hwf Hgen32 Hbits ltac:(rewrite Hcount; reflexivity)) as Hread.
  rewrite Hcount in Hread.
  pose proof Hwf as (Hw & Hh & Hlen & Hbytes).
  destruct (embedBits_frame (take 32 header) bits Hbits 0%nat (pixels cover)
              Hbytes) as (Hbytes' & Hlen' & _).
  exists {| width := width cover; height := height cover;
            pixels := embedBits (take 32 header) 0 bits (pixels cover) |}.
  split; [|split; [reflexivity|split; [reflexivity|]]].
  { unfold wf_image. cbn [width height pixels].
    rewrite Hlen'. auto. }
  intros fuel. unfold extractDataFromImage, extractBody.
  cbn [width height pixels].
  destruct (generatePixelPositions fuel (width cover) (height cover) 4 password)
    as [r|] eqn:E; [|reflexivity].
  assert (r = Returned header) as ->.
  { destruct (Nat.le_ge_cases fuel fuel0) as [Hle | Hge].
    - pose proof (generatePixelPositions_more_fuel _ _ _ _ _ _ _ Hle E).
      congruence.
    - pose proof (generatePixelPositions_more_fuel _ _ _ _ _ _ _ Hge Hgen0).
      congruence. }
  cbn [obind]. rewrite Hread. subst bits.
  assert (HL32 : 0 <= L < 2 ^ 32) by (unfold setMaxSize in Hsize; lia).
  rewrite bitsToData_dataToBits
    by (rewrite lengthHeader_bytes by exact HL32; apply bytesOfUint32_bytes).
  rewrite getUint32_lengthHeader by exact HL32.
  cbn [obind liftO].
  rewrite generatePixelPositions_at_most_pixels by (exact HL || lia).
  reflexivity.
Qed.

End Stuck.

Lemma extract_never_returns_witness :
  exists image,
    wf_image image /\
    width image = 32 /\ height image = 32 /\
    forall fuel, @extractDataFromImage toyPlatform fuel image (js "pw") = None.
Proof.
  apply (@extract_never_returns toyPlatform plainCover (js "pw") 200).
  - exact wf_plainCover.
  - cbn [plainCover width height]. unfold setMaxSize. lia.
  - cbn [plainCover width height]. lia.
Defined.
